(** * Debug interface of the Sol interpreter (ldebug.c)

    A shallow embedding of the debug core: the line-info decoder, the
    register-origin scan of the symbolic executor, the frame walker, the
    info assembler, the hook/trace engine and the host entry points that
    drive them, together with the properties stated about them.

    Conventions of the embedding.
    - A C [int] is a [Z].  Signed overflow is undefined in C, so sums and
      differences of [int]s are taken in [Z]; the narrowing and unsigned
      casts ([cast_byte], [cast_uint]), whose wrap-around is defined,
      are written out.
    - A pointer into an array is the index it points at: a [StkId] is a
      stack index, a [CallInfo *] the position of the frame in the chain,
      an [Instruction *] an offset from [p->code].
    - Reading an array outside its bounds, or through a pointer of the
      wrong type, has no defined result: such functions return [None]
      (or [Undefined]). *)

From Stdlib Require Import ZArith Lia Bool String Ascii List.
From stdpp Require Import base tactics option list.

Import ListNotations.
Local Open Scope Z_scope.

(** ** Machine integers and arrays *)

(** Modelled from the spec: [cast_uint] of llimits.h, the conversion to
    [unsigned int] (32 bits) under which the estimate
    [pc / MAXIWTHABS - 1] of the base line is computed. *)
Definition cast_uint (z : Z) : Z := z mod 2 ^ 32.

(** Modelled from the spec: [cast_byte] of llimits.h, the conversion to
    [lu_byte], the unsigned byte that holds the hook mask. *)
Definition cast_byte (z : Z) : Z := z mod 2 ^ 8.

(** [a[i]] for a C array held as a list: no value outside the bounds. *)
Definition at_index {A : Type} (a : list A) (i : Z) : option A :=
  if i <? 0 then None else a !! Z.to_nat i.

(** [a[i] = x], defined inside the bounds only. *)
Definition store_at {A : Type} (a : list A) (i : Z) (x : A) : option (list A) :=
  if (0 <=? i) && (i <? Z.of_nat (length a)) then Some (<[Z.to_nat i := x]> a)
  else None.

(** ** Function prototypes *)

(** Modelled from the spec: an instruction word of the code vector; it
    is only looked at through the accessors of the opcode interface. *)
Definition Instruction := Z.

(** Modelled from the spec: an anchor of the line table, the pair
    [abslineinfo[i].pc], [abslineinfo[i].line]. *)
Record AbsLineInfo := mkAbsLineInfo { abs_pc : Z; abs_line : Z }.

(** Modelled from the spec: the function prototype, with the fields of
    [Proto] the debug interface reads.  [lineinfo] is [None] for a
    prototype stripped of its debug information (a NULL array);
    [sizelineinfo], [sizecode] and [sizeabslineinfo] are the lengths of
    the lists. *)
Record Proto := mkProto {
  numparams : Z;
  is_vararg : Z;
  code : list Instruction;
  lineinfo : option (list Z);
  abslineinfo : list AbsLineInfo;
  linedefined : Z;
  lastlinedefined : Z;
  source : option string
}.

Definition sizecode (f : Proto) : Z := Z.of_nat (length (code f)).
Definition sizelineinfo (f : Proto) : Z :=
  match lineinfo f with Some li => Z.of_nat (length li) | None => 0 end.

(** ** Line-info decoder *)

(** The two constants of the line table, which ldebug.h defines: the
    distance between anchors and the marker of an anchored instruction.
    They are parameters of the development. *)
Class LineConsts := {
  MAXIWTHABS : Z;
  ABSLINEINFO : Z
}.

Section LineInfo.
Context `{LineConsts}.

(** [cast_uint(pc) / MAXIWTHABS - 1], the estimate of [getbaseline]. *)
Definition estimate (pc : Z) : Z := Z.quot (cast_uint pc) MAXIWTHABS - 1.

(** The [while] of [getbaseline]: [rest] is [abslineinfo] from index
    [i + 1] on, so that [i + 1 < sizeabslineinfo] is [rest] being
    non-empty. *)
Fixpoint adjust_estimate (rest : list AbsLineInfo) (pc i : Z) : Z :=
  match rest with
  | e :: rest' => if pc >=? abs_pc e then adjust_estimate rest' pc (i + 1) else i
  | [] => i
  end.

(** [getbaseline f pc] is the pair [( *basepc, result)].  The estimate
    is at least [-1], so the slice starts at a valid position. *)
Definition getbaseline (f : Proto) (pc : Z) : option (Z * Z) :=
  match abslineinfo f with
  | [] => Some (-1, linedefined f)
  | e0 :: _ =>
      if pc <? abs_pc e0 then Some (-1, linedefined f)
      else
        let i := estimate pc in
        let i := adjust_estimate (drop (Z.to_nat (i + 1)) (abslineinfo f)) pc i in
        e ← at_index (abslineinfo f) i;
        Some (abs_pc e, abs_line e)
  end.

(** The [while (basepc++ < pc)] of [solG_getfuncline], run for the [n]
    iterations it has left. *)
Fixpoint walk_lines (li : list Z) (n : nat) (basepc baseline : Z) : option Z :=
  match n with
  | O => Some baseline
  | S n' =>
      d ← at_index li (basepc + 1);
      walk_lines li n' (basepc + 1) (baseline + d)
  end.

Definition solG_getfuncline (f : Proto) (pc : Z) : option Z :=
  match lineinfo f with
  | None => Some (-1)
  | Some li =>
      '(basepc, baseline) ← getbaseline f pc;
      walk_lines li (Z.to_nat (pc - basepc)) basepc baseline
  end.

Definition nextline (p : Proto) (currentline pc : Z) : option Z :=
  li ← lineinfo p;
  d ← at_index li pc;
  if d =? ABSLINEINFO then solG_getfuncline p pc else Some (currentline + d).

(** How the [for (;;)] of [changedline] ends: at a marker, at [newpc], or
    by reading past the end of [lineinfo]. *)
Inductive delta_scan := DeltaBreak | DeltaDone (changed : bool) | DeltaOutside.

(** [rest] is [lineinfo] from index [pc + 1] on; each step reads
    [lineinfo[++pc]]. *)
Fixpoint scan_delta (rest : list Z) (pc newpc delta : Z) : delta_scan :=
  match rest with
  | [] => DeltaOutside
  | d :: rest' =>
      if d =? ABSLINEINFO then DeltaBreak
      else
        let delta := delta + d in
        if pc + 1 =? newpc then DeltaDone (negb (delta =? 0))
        else scan_delta rest' (pc + 1) newpc delta
  end.

(** The last line of [changedline]. *)
Definition compare_lines (p : Proto) (oldpc newpc : Z) : option bool :=
  l1 ← solG_getfuncline p oldpc;
  l2 ← solG_getfuncline p newpc;
  Some (negb (l1 =? l2)).

Definition changedline (p : Proto) (oldpc newpc : Z) : option bool :=
  match lineinfo p with
  | None => Some false
  | Some li =>
      if newpc - oldpc <? Z.quot MAXIWTHABS 2 then
        if oldpc + 1 <? 0 then None
        else
          match scan_delta (drop (Z.to_nat (oldpc + 1)) li) oldpc newpc 0 with
          | DeltaDone b => Some b
          | DeltaBreak => compare_lines p oldpc newpc
          | DeltaOutside => None
          end
      else compare_lines p oldpc newpc
  end.

(** The base as a plain scan of the anchors from the first one, with no
    estimate: the last anchor at or before [pc], or the line where the
    function is defined. *)
Definition anchor_before (f : Proto) (pc : Z) : Z * Z :=
  match at_index (abslineinfo f) (adjust_estimate (abslineinfo f) pc (-1)) with
  | Some e => (abs_pc e, abs_line e)
  | None => (-1, linedefined f)
  end.

(** *** Well-formed line tables

    What the compiler guarantees of a prototype with debug information,
    as decidable checks: one entry of [lineinfo] per instruction, each a
    signed byte; anchors in increasing [pc] order, each at an instruction
    marked [ABSLINEINFO]; and the estimate of [getbaseline] a lower
    bound of the right anchor, which is the assertion of that function. *)

Fixpoint anchors_sorted (abs : list AbsLineInfo) : bool :=
  match abs with
  | e1 :: rest =>
      match rest with
      | e2 :: _ => (abs_pc e1 <? abs_pc e2) && anchors_sorted rest
      | [] => true
      end
  | [] => true
  end.

Definition anchor_marked (li : list Z) (e : AbsLineInfo) : bool :=
  match at_index li (abs_pc e) with
  | Some d => d =? ABSLINEINFO
  | None => false
  end.

(** [sol_assert(i < 0 || (i < f->sizeabslineinfo && f->abslineinfo[i].pc <= pc))] *)
Definition estimate_asserted (abs : list AbsLineInfo) (pc : Z) : bool :=
  let i := estimate pc in
  (i <? 0) ||
  match at_index abs i with
  | Some e => abs_pc e <=? pc
  | None => false
  end.

Definition estimates_asserted (abs : list AbsLineInfo) (size : nat) : bool :=
  match abs with
  | [] => true
  | e0 :: _ =>
      forallb (fun pc => (pc <? abs_pc e0) || estimate_asserted abs pc)
              (map Z.of_nat (seq 0 size))
  end.

Definition lineinfo_wf (p : Proto) : bool :=
  match lineinfo p with
  | None => true
  | Some li =>
      (length li =? length (code p))%nat
      && (Z.of_nat (length li) <? 2 ^ 31)
      && anchors_sorted (abslineinfo p)
      && forallb (anchor_marked li) (abslineinfo p)
      && estimates_asserted (abslineinfo p) (length li)
  end.

End LineInfo.

(** The prototype of the first scenario, five instructions long. *)
Definition scenario_proto `{LineConsts} : Proto :=
  {| numparams := 0; is_vararg := 0; code := [0; 0; 0; 0; 0];
     lineinfo := Some [0; 1; 2; ABSLINEINFO; -3];
     abslineinfo := [mkAbsLineInfo 3 15];
     linedefined := 10; lastlinedefined := 20; source := None |}.

(** Sample values of the two constants, for the examples: an anchor
    every 128 instructions and the marker [-0x80]. *)
Definition sample_LineConsts : LineConsts :=
  {| MAXIWTHABS := 128; ABSLINEINFO := -128 |}.

(** ** Symbolic execution *)

(** The opcode interface of lopcodes.h, a parameter of the development:
    the decoding of an instruction word, the two opcode properties and
    the stack-top predicate the debug interface asks for,
    and the opcodes [findsetreg] tells apart.  An [OpCode] is the integer
    of the C enumeration. *)
Class Opcodes := {
  GET_OPCODE : Instruction -> Z;
  GETARG_A : Instruction -> Z;
  GETARG_B : Instruction -> Z;
  GETARG_sJ : Instruction -> Z;
  testAMode : Z -> bool;
  testMMMode : Z -> bool;
  isIT : Instruction -> bool;
  OP_LOADNIL : Z;
  OP_TFORCALL : Z;
  OP_CALL : Z;
  OP_TAILCALL : Z;
  OP_JMP : Z
}.

Definition filterpc (pc jmptarget : Z) : Z :=
  if pc <? jmptarget then -1 else pc.

Section SymbolicExecution.
Context `{Opcodes}.

(** The [switch] of [findsetreg] on the instruction [i] at [pc]: whether
    it changes [reg], and the jump target after it. *)
Definition changes_reg (lastpc reg pc jmptarget : Z) (i : Instruction) : bool * Z :=
  let op := GET_OPCODE i in
  let a := GETARG_A i in
  if op =? OP_LOADNIL then
    let b := GETARG_B i in
    ((a <=? reg) && (reg <=? a + b), jmptarget)
  else if op =? OP_TFORCALL then (reg >=? a + 2, jmptarget)
  else if (op =? OP_CALL) || (op =? OP_TAILCALL) then (reg >=? a, jmptarget)
  else if op =? OP_JMP then
    let b := GETARG_sJ i in
    let dest := pc + 1 + b in
    (false, if (dest <=? lastpc) && (dest >? jmptarget) then dest else jmptarget)
  else (testAMode op && (reg =? a), jmptarget).

(** The [for (pc = 0; pc < lastpc; pc++)] of [findsetreg] over the
    instructions it still has to read, [code[pc..lastpc)]. *)
Fixpoint scan_setreg (rest : list Instruction) (lastpc reg pc setreg jmptarget : Z) : Z :=
  match rest with
  | [] => setreg
  | i :: rest' =>
      let '(change, jmptarget) := changes_reg lastpc reg pc jmptarget i in
      let setreg := if change then filterpc pc jmptarget else setreg in
      scan_setreg rest' lastpc reg (pc + 1) setreg jmptarget
  end.

(** The limit of the scan: [lastpc], or the instruction before it. *)
Definition scan_limit (i : Instruction) (lastpc : Z) : Z :=
  if testMMMode (GET_OPCODE i) then lastpc - 1 else lastpc.

Definition findsetreg (p : Proto) (lastpc reg : Z) : option Z :=
  i ← at_index (code p) lastpc;
  let lastpc := scan_limit i lastpc in
  Some (scan_setreg (take (Z.to_nat lastpc) (code p)) lastpc reg 0 (-1) 0).

(** *** The scan as the specification words it

    The same loop, except that a write found before [jmptarget] is
    discarded, leaving the candidate as it was. *)
Fixpoint scan_setreg_discarding
    (rest : list Instruction) (lastpc reg pc setreg jmptarget : Z) : Z :=
  match rest with
  | [] => setreg
  | i :: rest' =>
      let '(change, jmptarget) := changes_reg lastpc reg pc jmptarget i in
      let setreg :=
        if change then (if pc <? jmptarget then setreg else pc) else setreg in
      scan_setreg_discarding rest' lastpc reg (pc + 1) setreg jmptarget
  end.

Definition findsetreg_discarding (p : Proto) (lastpc reg : Z) : option Z :=
  i ← at_index (code p) lastpc;
  let lastpc := scan_limit i lastpc in
  Some (scan_setreg_discarding (take (Z.to_nat lastpc) (code p)) lastpc reg 0 (-1) 0).

(** The jump target the scan has reached after the instructions [rest],
    which start at [pc]. *)
Fixpoint jmptarget_after (rest : list Instruction) (lastpc reg pc jmptarget : Z) : Z :=
  match rest with
  | [] => jmptarget
  | i :: rest' =>
      jmptarget_after rest' lastpc reg (pc + 1)
        (snd (changes_reg lastpc reg pc jmptarget i))
  end.

(** The jump target in force when the scan reaches [pc]. *)
Definition jmptarget_at (p : Proto) (lastpc reg pc : Z) : Z :=
  jmptarget_after (take (Z.to_nat pc) (code p)) lastpc reg 0 0.

(** Whether the [switch] finds that [i] changes [reg]; the answer does
    not depend on where [i] stands. *)
Definition writes_reg (reg : Z) (i : Instruction) : bool :=
  fst (changes_reg 0 reg 0 0 i).

(** The position of the last instruction of [rest] that changes [reg],
    [rest] starting at [pc]. *)
Fixpoint last_write (rest : list Instruction) (reg pc : Z) : option Z :=
  match rest with
  | [] => None
  | i :: rest' =>
      match last_write rest' reg (pc + 1) with
      | Some w => Some w
      | None => if writes_reg reg i then Some pc else None
      end
  end.

End SymbolicExecution.

(** ** Values, frames and the interpreter state *)

(** Modelled from the spec: the values of the dynamically typed language
    (declared in lobject.h), as far as the debug
    interface tells them apart: strings, numbers, tables, script
    closures with their prototype, native closures and native functions.
    A float carries its bit pattern; [VOther] stands for the remaining
    kinds of value. *)
#[warnings="-register-all"] Inductive TValue :=
| VNil
| VFalse
| VTrue
| VInteger (i : Z)
| VFloat (bits : Z)
| VString (s : string)
| VTable (h : list (TValue * TValue))
| VLCL (nupvalues : Z) (p : Proto)
| VCCL (nupvalues : Z)
| VLCF
| VOther (tag : Z).

(** Modelled from the spec: the type tests of lobject.h on these
    values. *)
Definition ttisstring (o : TValue) : bool :=
  match o with VString _ => true | _ => false end.
Definition ttisnumber (o : TValue) : bool :=
  match o with VInteger _ | VFloat _ => true | _ => false end.
Definition ttisfunction (o : TValue) : bool :=
  match o with VLCL _ _ | VCCL _ | VLCF => true | _ => false end.
Definition ttisclosure (o : TValue) : bool :=
  match o with VLCL _ _ | VCCL _ => true | _ => false end.
Definition isLfunction (o : TValue) : bool :=
  match o with VLCL _ _ => true | _ => false end.

(** Modelled from the spec: what a [Closure *] points at, a script
    closure or a native one. *)
Inductive Closure :=
| LClosure (nupvalues : Z) (p : Proto)
| CClosure (nupvalues : Z).

(** Modelled from the spec: [clvalue], the closure of a value that
    holds one, and [f->c.nupvalues]. *)
Definition clvalue (o : TValue) : option Closure :=
  match o with
  | VLCL n p => Some (LClosure n p)
  | VCCL n => Some (CClosure n)
  | _ => None
  end.

Definition c_nupvalues (f : Closure) : Z :=
  match f with LClosure n _ | CClosure n => n end.

(** [SolClosure(f)]: [f] is not NULL and is a script closure; the
    result is then its prototype, [f->l.p]. *)
Definition SolClosure (f : option Closure) : option Proto :=
  match f with Some (LClosure _ p) => Some p | _ => None end.

(** Modelled from the spec: the activation record, with the fields of
    [CallInfo] the debug interface uses.  [func] and [ci_top] are stack
    indices
    ([ci->func.p], [ci->top.p]); [savedpc] is the offset of
    [ci->u.l.savedpc] from the start of the code of the running
    prototype; [ftransfer] and [ntransfer] are [ci->u2.transferinfo]. *)
Record CallInfo := mkCallInfo {
  func : Z;
  ci_top : Z;
  callstatus : Z;
  savedpc : Z;
  trap : Z;
  nextraargs : Z;
  ftransfer : Z;
  ntransfer : Z
}.

Definition set_trap (c : CallInfo) (v : Z) : CallInfo :=
  mkCallInfo (func c) (ci_top c) (callstatus c) (savedpc c) v
             (nextraargs c) (ftransfer c) (ntransfer c).
Definition set_savedpc (c : CallInfo) (v : Z) : CallInfo :=
  mkCallInfo (func c) (ci_top c) (callstatus c) v (trap c)
             (nextraargs c) (ftransfer c) (ntransfer c).
Definition set_callstatus (c : CallInfo) (v : Z) : CallInfo :=
  mkCallInfo (func c) (ci_top c) v (savedpc c) (trap c)
             (nextraargs c) (ftransfer c) (ntransfer c).

(** Modelled from the spec: the interpreter state, with the fields of
    [sol_State] the debug interface uses.  The frames are kept in call
    order,
    [base_ci] first: [ci->previous] of the frame at position [S k] is the
    frame at [k], [base_ci] has no previous frame, and [ci->next] of the
    frame at [k] is the frame at [S k].  [ci] is the position of the
    running frame, [L->ci].  A hook is the address of the host function,
    [None] for NULL. *)
Record sol_State := mkState {
  stack : list TValue;
  top : Z;
  ci : nat;
  callinfo : list CallInfo;
  hook : option nat;
  hookmask : Z;
  basehookcount : Z;
  hookcount : Z;
  oldpc : Z;
  status : Z
}.

Definition set_stack (L : sol_State) (v : list TValue) : sol_State :=
  mkState v (top L) (ci L) (callinfo L) (hook L) (hookmask L)
          (basehookcount L) (hookcount L) (oldpc L) (status L).
Definition set_top (L : sol_State) (v : Z) : sol_State :=
  mkState (stack L) v (ci L) (callinfo L) (hook L) (hookmask L)
          (basehookcount L) (hookcount L) (oldpc L) (status L).
Definition set_callinfo (L : sol_State) (v : list CallInfo) : sol_State :=
  mkState (stack L) (top L) (ci L) v (hook L) (hookmask L)
          (basehookcount L) (hookcount L) (oldpc L) (status L).
Definition set_hook (L : sol_State) (v : option nat) : sol_State :=
  mkState (stack L) (top L) (ci L) (callinfo L) v (hookmask L)
          (basehookcount L) (hookcount L) (oldpc L) (status L).
Definition set_hookmask (L : sol_State) (v : Z) : sol_State :=
  mkState (stack L) (top L) (ci L) (callinfo L) (hook L) v
          (basehookcount L) (hookcount L) (oldpc L) (status L).
Definition set_basehookcount (L : sol_State) (v : Z) : sol_State :=
  mkState (stack L) (top L) (ci L) (callinfo L) (hook L) (hookmask L)
          v (hookcount L) (oldpc L) (status L).
Definition set_hookcount (L : sol_State) (v : Z) : sol_State :=
  mkState (stack L) (top L) (ci L) (callinfo L) (hook L) (hookmask L)
          (basehookcount L) v (oldpc L) (status L).
Definition set_oldpc (L : sol_State) (v : Z) : sol_State :=
  mkState (stack L) (top L) (ci L) (callinfo L) (hook L) (hookmask L)
          (basehookcount L) (hookcount L) v (status L).

(** [ci->field = ...] through a frame pointer. *)
Definition update_frame (L : sol_State) (ci : nat) (f : CallInfo -> CallInfo) : sol_State :=
  set_callinfo L (alter f ci (callinfo L)).

(** [setobj2s(L, L->top.p, v); api_incr_top(L)]. *)
Definition push (L : sol_State) (v : TValue) : option sol_State :=
  stk ← store_at (stack L) (top L) v;
  Some (set_top (set_stack L stk) (top L + 1)).

(** Modelled from the spec: [resethookcount], a macro of ldebug.h, resets
    the live hook count to [basehookcount]. *)
Definition resethookcount (L : sol_State) : sol_State :=
  set_hookcount L (basehookcount L).

(** The declarations of lstate.h, sol.h and ldebug.h the debug interface
    relies on, parameters of the development: the test for a script
    frame, the bits of [callstatus], the bits of the hook mask,
    the thread status of a yield, and the conversion of an instruction
    pointer (here an offset into the code) to a program counter. *)
Class StateConsts := {
  isSol : CallInfo -> bool;
  CIST_TAIL : Z;
  CIST_TRAN : Z;
  CIST_HOOKYIELD : Z;
  SOL_MASKLINE : Z;
  SOL_MASKCOUNT : Z;
  SOL_YIELD : Z;
  pcRel : Z -> Proto -> Z
}.

(** Modelled from the spec: the hook event codes of sol.h. *)
Inductive HookEvent :=
| SOL_HOOKCALL | SOL_HOOKRET | SOL_HOOKLINE | SOL_HOOKCOUNT | SOL_HOOKTAILCALL.

(** ** Setting the hook *)

Section Hooks.
Context `{StateConsts}.

(** [settraps(ci)]: the frame at [ci], then its [previous] frames down to
    [base_ci]. *)
Fixpoint settraps (cis : list CallInfo) (ci : nat) : list CallInfo :=
  let cis := alter (fun c => if isSol c then set_trap c 1 else c) ci cis in
  match ci with
  | O => cis
  | S previous => settraps cis previous
  end.

Definition sol_sethook (L : sol_State) (func : option nat) (mask count : Z) : sol_State :=
  let '(func, mask) :=
    match func with
    | None => (None, 0)
    | Some _ => if mask =? 0 then (None, 0) else (func, mask)
    end in
  let L := set_hook L func in
  let L := set_basehookcount L count in
  let L := resethookcount L in
  let L := set_hookmask L (cast_byte mask) in
  if mask =? 0 then L else set_callinfo L (settraps (callinfo L) (ci L)).

Definition sol_gethook (L : sol_State) : option nat := hook L.
Definition sol_gethookmask (L : sol_State) : Z := hookmask L.
Definition sol_gethookcount (L : sol_State) : Z := basehookcount L.

End Hooks.

(** ** Frame walker *)

(** The name of a local variable live at a program counter comes from
    lfunc.c and is a parameter of the development. *)
Class LocalNames := {
  solF_getlocalname : Proto -> Z -> Z -> option string
}.

(** What [solG_findlocal] finds: the name it returns and the slot it
    stores in [*pos]. *)
Definition found := option (string * Z).

Section FrameWalker.
Context `{StateConsts} `{LocalNames}.

(** [ci_func(ci)->p]: the prototype of the script closure in the function
    slot of the frame. *)
Definition ci_func_p (L : sol_State) (c : CallInfo) : option Proto :=
  v ← at_index (stack L) (func c);
  match v with
  | VLCL _ p => Some p
  | _ => None
  end.

Definition currentpc (L : sol_State) (c : CallInfo) : option Z :=
  p ← ci_func_p L c;
  Some (pcRel (savedpc c) p).

Definition findvararg (L : sol_State) (c : CallInfo) (n : Z) : option found :=
  p ← ci_func_p L c;
  if negb (is_vararg p =? 0) then
    let nextra := nextraargs c in
    if n >=? - nextra then Some (Some ("(vararg)"%string, func c - nextra - (n + 1)))
    else Some None
  else Some None.

(** The frame pointer [ci] is the position of the frame in the chain. *)
Definition solG_findlocal (L : sol_State) (ci_ : nat) (n : Z) : option found :=
  c ← callinfo L !! ci_;
  let base := func c + 1 in
  if isSol c && (n <? 0) then findvararg L c n
  else
    name ← (if isSol c then
              p ← ci_func_p L c;
              pc ← currentpc L c;
              Some (solF_getlocalname p n pc)
            else Some None);
    match name with
    | Some name => Some (Some (name, base + (n - 1)))
    | None =>
        limit ← (if decide (ci_ = ci L) then Some (top L)
                 else next ← callinfo L !! S ci_; Some (func next));
        if (limit - base >=? n) && (n >? 0) then
          Some (Some ((if isSol c then "(temporary)" else "(C temporary)")%string,
                      base + (n - 1)))
        else Some None
    end.

(** [sol_getlocal] for an active function ([ar] not NULL); [i_ci] is
    [ar->i_ci]. *)
Definition sol_getlocal (L : sol_State) (i_ci : nat) (n : Z)
  : option (option string * sol_State) :=
  r ← solG_findlocal L i_ci n;
  match r with
  | Some (name, pos) =>
      v ← at_index (stack L) pos;
      L' ← push L v;
      Some (Some name, L')
  | None => Some (None, L)
  end.

(** [sol_getlocal] for a function on the stack ([ar] is NULL). *)
Definition sol_getlocal_nonactive (L : sol_State) (n : Z) : option (option string) :=
  v ← at_index (stack L) (top L - 1);
  match v with
  | VLCL _ p => Some (solF_getlocalname p n 0)
  | _ => Some None
  end.

Definition sol_setlocal (L : sol_State) (i_ci : nat) (n : Z)
  : option (option string * sol_State) :=
  r ← solG_findlocal L i_ci n;
  match r with
  | Some (name, pos) =>
      v ← at_index (stack L) (top L - 1);
      stk ← store_at (stack L) pos v;
      Some (Some name, set_top (set_stack L stk) (top L - 1))
  | None => Some (None, L)
  end.

Definition getcurrentline `{LineConsts} (L : sol_State) (c : CallInfo) : option Z :=
  p ← ci_func_p L c;
  pc ← currentpc L c;
  solG_getfuncline p pc.

End FrameWalker.

(** ** Info assembler *)

(** Modelled from the spec: the debug-info record the host passes to
    [sol_getinfo].  The fields carry the prefix [ar_] to keep them apart
    from those of [Proto] and [CallInfo]; [i_ci] is the frame handle. *)
Record sol_Debug := mkDebug {
  ar_name : option string;
  ar_namewhat : string;
  ar_what : string;
  ar_source : string;
  ar_srclen : Z;
  ar_currentline : Z;
  ar_linedefined : Z;
  ar_lastlinedefined : Z;
  ar_nups : Z;
  ar_nparams : Z;
  ar_isvararg : Z;
  ar_istailcall : Z;
  ar_ftransfer : Z;
  ar_ntransfer : Z;
  ar_short_src : string;
  i_ci : nat
}.

(** The fields written by each option. *)
Definition set_funcinfo (ar : sol_Debug)
    (source : string) (srclen linedefined lastlinedefined : Z)
    (what short_src : string) : sol_Debug :=
  mkDebug (ar_name ar) (ar_namewhat ar) what source srclen (ar_currentline ar)
          linedefined lastlinedefined (ar_nups ar) (ar_nparams ar)
          (ar_isvararg ar) (ar_istailcall ar) (ar_ftransfer ar) (ar_ntransfer ar)
          short_src (i_ci ar).
Definition set_currentline (ar : sol_Debug) (v : Z) : sol_Debug :=
  mkDebug (ar_name ar) (ar_namewhat ar) (ar_what ar) (ar_source ar) (ar_srclen ar) v
          (ar_linedefined ar) (ar_lastlinedefined ar) (ar_nups ar) (ar_nparams ar)
          (ar_isvararg ar) (ar_istailcall ar) (ar_ftransfer ar) (ar_ntransfer ar)
          (ar_short_src ar) (i_ci ar).
Definition set_upinfo (ar : sol_Debug) (nups isvararg nparams : Z) : sol_Debug :=
  mkDebug (ar_name ar) (ar_namewhat ar) (ar_what ar) (ar_source ar) (ar_srclen ar)
          (ar_currentline ar) (ar_linedefined ar) (ar_lastlinedefined ar)
          nups nparams isvararg (ar_istailcall ar) (ar_ftransfer ar)
          (ar_ntransfer ar) (ar_short_src ar) (i_ci ar).
Definition set_istailcall (ar : sol_Debug) (v : Z) : sol_Debug :=
  mkDebug (ar_name ar) (ar_namewhat ar) (ar_what ar) (ar_source ar) (ar_srclen ar)
          (ar_currentline ar) (ar_linedefined ar) (ar_lastlinedefined ar)
          (ar_nups ar) (ar_nparams ar) (ar_isvararg ar) v (ar_ftransfer ar)
          (ar_ntransfer ar) (ar_short_src ar) (i_ci ar).
Definition set_funcname (ar : sol_Debug) (namewhat : string) (name : option string)
  : sol_Debug :=
  mkDebug name namewhat (ar_what ar) (ar_source ar) (ar_srclen ar)
          (ar_currentline ar) (ar_linedefined ar) (ar_lastlinedefined ar)
          (ar_nups ar) (ar_nparams ar) (ar_isvararg ar) (ar_istailcall ar)
          (ar_ftransfer ar) (ar_ntransfer ar) (ar_short_src ar) (i_ci ar).
Definition set_transfer (ar : sol_Debug) (ftransfer ntransfer : Z) : sol_Debug :=
  mkDebug (ar_name ar) (ar_namewhat ar) (ar_what ar) (ar_source ar) (ar_srclen ar)
          (ar_currentline ar) (ar_linedefined ar) (ar_lastlinedefined ar)
          (ar_nups ar) (ar_nparams ar) (ar_isvararg ar) (ar_istailcall ar)
          ftransfer ntransfer (ar_short_src ar) (i_ci ar).

(** What the info assembler asks of the rest of the interpreter:
    [solO_chunkid] of lobject.c, which builds the printable form of a
    source name from the name and its length, and the naming of a called
    function from the frame that called it, [funcnamefromcall], which is
    the symbolic executor at work on the caller's code; its result is the
    pair of what the name is and the name. *)
Class InfoServices := {
  solO_chunkid : string -> Z -> string;
  funcnamefromcall : sol_State -> nat -> option (string * string)
}.

Section InfoAssembler.
Context `{LineConsts} `{StateConsts} `{LocalNames} `{InfoServices}.

Definition funcinfo (ar : sol_Debug) (cl : option Closure) : sol_Debug :=
  match SolClosure cl with
  | None =>
      set_funcinfo ar "=[C]" 4 (-1) (-1) "C" (solO_chunkid "=[C]" 4)
  | Some p =>
      let '(source, srclen) :=
        match source p with
        | Some s => (s, Z.of_nat (String.length s))
        | None => ("=?"%string, 2)
        end in
      let what := if linedefined p =? 0 then "main"%string else "Sol"%string in
      set_funcinfo ar source srclen (linedefined p) (lastlinedefined p) what
                   (solO_chunkid source srclen)
  end.

(** [getfuncname]: the frame pointer may be NULL ([None]). *)
Definition getfuncname (L : sol_State) (ci_ : option nat)
  : option (option (string * string)) :=
  match ci_ with
  | None => Some None
  | Some k =>
      c ← callinfo L !! k;
      if Z.land (callstatus c) CIST_TAIL =? 0 then
        match k with
        | S previous => Some (funcnamefromcall L previous)
        | O => None
        end
      else Some None
  end.

(** One turn of the [for] of [auxgetinfo]: the [switch] on [*what]. *)
Definition auxgetinfo_option (L : sol_State) (opt : ascii) (status : Z)
    (ar : sol_Debug) (f : option Closure) (ci_ : option nat)
  : option (Z * sol_Debug) :=
  match opt with
  | "S"%char => Some (status, funcinfo ar f)
  | "l"%char =>
      line ← match ci_ with
             | None => Some (-1)
             | Some k =>
                 c ← callinfo L !! k;
                 if isSol c then getcurrentline L c else Some (-1)
             end;
      Some (status, set_currentline ar line)
  | "u"%char =>
      let nups := match f with None => 0 | Some f => c_nupvalues f end in
      match SolClosure f with
      | None => Some (status, set_upinfo ar nups 1 0)
      | Some p => Some (status, set_upinfo ar nups (is_vararg p) (numparams p))
      end
  | "t"%char =>
      v ← match ci_ with
          | None => Some 0
          | Some k => c ← callinfo L !! k; Some (Z.land (callstatus c) CIST_TAIL)
          end;
      Some (status, set_istailcall ar v)
  | "n"%char =>
      r ← getfuncname L ci_;
      match r with
      | Some (namewhat, name) => Some (status, set_funcname ar namewhat (Some name))
      | None => Some (status, set_funcname ar "" None)
      end
  | "r"%char =>
      match ci_ with
      | None => Some (status, set_transfer ar 0 0)
      | Some k =>
          c ← callinfo L !! k;
          if Z.land (callstatus c) CIST_TRAN =? 0 then Some (status, set_transfer ar 0 0)
          else Some (status, set_transfer ar (ftransfer c) (ntransfer c))
      end
  | "L"%char | "f"%char => Some (status, ar)
  | _ => Some (0, ar)
  end.

Fixpoint auxgetinfo_from (L : sol_State) (what : string) (status : Z)
    (ar : sol_Debug) (f : option Closure) (ci_ : option nat)
  : option (Z * sol_Debug) :=
  match what with
  | EmptyString => Some (status, ar)
  | String opt what' =>
      '(status, ar) ← auxgetinfo_option L opt status ar f ci_;
      auxgetinfo_from L what' status ar f ci_
  end.

Definition auxgetinfo (L : sol_State) (what : string) (ar : sol_Debug)
    (f : option Closure) (ci_ : option nat) : option (Z * sol_Debug) :=
  auxgetinfo_from L what 1 ar f ci_.

End InfoAssembler.

(** *** The host entry point *)

(** [strchr(what, c) != NULL]. *)
Definition strchr (what : string) (c : ascii) : bool :=
  existsb (Ascii.eqb c) (list_ascii_of_string what).

(** The option characters [auxgetinfo] has a [case] for. *)
Definition known_option (opt : ascii) : bool := strchr "SlutnrfL" opt.

(** Whether a string of options has a character with no [case]. *)
Fixpoint has_unknown_option (what : string) : bool :=
  match what with
  | EmptyString => false
  | String opt what' => negb (known_option opt) || has_unknown_option what'
  end.

(** The string of options without those characters. *)
Fixpoint known_options (what : string) : string :=
  match what with
  | EmptyString => EmptyString
  | String opt what' =>
      if known_option opt then String opt (known_options what')
      else known_options what'
  end.

(** [*what == '>'], with [what + 1] when it holds. *)
Definition function_mode (what : string) : option string :=
  match what with
  | String c what' => if Ascii.eqb c ">" then Some what' else None
  | EmptyString => None
  end.

(** The options of a call of [sol_getinfo]: [what] past the ['>'] that
    selects the function on the stack. *)
Definition getinfo_options (what : string) : string :=
  match function_mode what with
  | Some what' => what'
  | None => what
  end.

(** Modelled from the spec: [settable_integer] of ltable.c, [t[key] = v]
    on a table held as the list of its entries. *)
Fixpoint solH_setint (h : list (TValue * TValue)) (key : Z) (v : TValue)
  : list (TValue * TValue) :=
  match h with
  | [] => [(VInteger key, v)]
  | (k, x) :: h' =>
      match k with
      | VInteger k' =>
          if k' =? key then (k, v) :: h' else (k, x) :: solH_setint h' key v
      | _ => (k, x) :: solH_setint h' key v
      end
  end.

Section GetInfo.
Context `{LineConsts} `{StateConsts} `{LocalNames} `{InfoServices}.

(** The [for] of [collectvalidlines], with [n] instructions to go. *)
Fixpoint collect_lines (p : Proto) (n : nat) (i currentline : Z)
    (t : list (TValue * TValue)) : option (list (TValue * TValue)) :=
  match n with
  | O => Some t
  | S n' =>
      currentline ← nextline p currentline i;
      collect_lines p n' (i + 1) currentline (solH_setint t currentline VTrue)
  end.

(** The table is new, so it is pushed here once it is filled. *)
Definition collectvalidlines (L : sol_State) (f : option Closure) : option sol_State :=
  match SolClosure f with
  | None => push L VNil
  | Some p =>
      t ← match lineinfo p with
          | None => Some []
          | Some _ =>
              '(i, currentline) ←
                (if is_vararg p =? 0 then Some (0, linedefined p)
                 else currentline ← nextline p (linedefined p) 0;
                      Some (1, currentline));
              collect_lines p (Z.to_nat (sizelineinfo p - i)) i currentline []
          end;
      push L (VTable t)
  end.

(** [sol_getinfo]: the status, the state and the record it leaves.  A
    value that is not a function where one is expected is a misuse the
    API check is there for, and gives no result. *)
Definition sol_getinfo (L : sol_State) (what : string) (ar : sol_Debug)
  : option (Z * sol_State * sol_Debug) :=
  '(ci_, func_, what, L) ←
    match function_mode what with
    | Some what' =>
        Some (None, top L - 1, what', set_top L (top L - 1))
    | None =>
        c ← callinfo L !! i_ci ar;
        Some (Some (i_ci ar), func c, what, L)
    end;
  o ← at_index (stack L) func_;
  if ttisfunction o then
    let cl := if ttisclosure o then clvalue o else None in
    '(status, ar) ← auxgetinfo L what ar cl ci_;
    L ← (if strchr what "f" then push L o else Some L);
    L ← (if strchr what "L" then collectvalidlines L cl else Some L);
    Some (status, L, ar)
  else None.

End GetInfo.

(** *** What the options leave in the record *)

(** The fields of the record by the option that writes them.  For an
    option X, [kept_X ar ar'] says that the fields of X are in [ar']
    what they are in [ar], and [written_X ... ar'] says that they hold
    in [ar'] what the [case] of X in [auxgetinfo] stores, for the
    function [f] and the frame [ci_] of the call. *)
Section InfoFields.
Context `{LineConsts} `{StateConsts} `{LocalNames} `{InfoServices}.

Definition kept_S (ar ar' : sol_Debug) : Prop :=
  ar_source ar' = ar_source ar /\ ar_srclen ar' = ar_srclen ar /\
  ar_linedefined ar' = ar_linedefined ar /\
  ar_lastlinedefined ar' = ar_lastlinedefined ar /\
  ar_what ar' = ar_what ar /\ ar_short_src ar' = ar_short_src ar.

(** [case 'S']: [funcinfo]. *)
Definition written_S (f : option Closure) (ar' : sol_Debug) : Prop :=
  match SolClosure f with
  | None =>
      ar_source ar' = "=[C]"%string /\ ar_srclen ar' = 4 /\
      ar_linedefined ar' = -1 /\ ar_lastlinedefined ar' = -1 /\
      ar_what ar' = "C"%string /\
      ar_short_src ar' = solO_chunkid "=[C]" 4
  | Some p =>
      match source p with
      | Some src =>
          ar_source ar' = src /\ ar_srclen ar' = Z.of_nat (String.length src)
      | None => ar_source ar' = "=?"%string /\ ar_srclen ar' = 2
      end /\
      ar_linedefined ar' = linedefined p /\
      ar_lastlinedefined ar' = lastlinedefined p /\
      ar_what ar' = (if linedefined p =? 0 then "main"%string else "Sol"%string) /\
      ar_short_src ar' = solO_chunkid (ar_source ar') (ar_srclen ar')
  end.

Definition kept_l (ar ar' : sol_Debug) : Prop :=
  ar_currentline ar' = ar_currentline ar.

(** [case 'l']: the current line of a script frame, -1 otherwise. *)
Definition written_l (L : sol_State) (ci_ : option nat) (ar' : sol_Debug) : Prop :=
  match ci_ with
  | None => ar_currentline ar' = -1
  | Some k =>
      exists c, callinfo L !! k = Some c /\
        if isSol c then getcurrentline L c = Some (ar_currentline ar')
        else ar_currentline ar' = -1
  end.

Definition kept_u (ar ar' : sol_Debug) : Prop :=
  ar_nups ar' = ar_nups ar /\ ar_nparams ar' = ar_nparams ar /\
  ar_isvararg ar' = ar_isvararg ar.

(** [case 'u']: the number of upvalues of the closure, and the
    parameters of a script function. *)
Definition written_u (f : option Closure) (ar' : sol_Debug) : Prop :=
  ar_nups ar' = match f with None => 0 | Some f => c_nupvalues f end /\
  match SolClosure f with
  | None => ar_isvararg ar' = 1 /\ ar_nparams ar' = 0
  | Some p => ar_isvararg ar' = is_vararg p /\ ar_nparams ar' = numparams p
  end.

Definition kept_t (ar ar' : sol_Debug) : Prop :=
  ar_istailcall ar' = ar_istailcall ar.

(** [case 't']: the tail-call bit of the frame. *)
Definition written_t (L : sol_State) (ci_ : option nat) (ar' : sol_Debug) : Prop :=
  match ci_ with
  | None => ar_istailcall ar' = 0
  | Some k =>
      exists c, callinfo L !! k = Some c /\
        ar_istailcall ar' = Z.land (callstatus c) CIST_TAIL
  end.

Definition kept_n (ar ar' : sol_Debug) : Prop :=
  ar_name ar' = ar_name ar /\ ar_namewhat ar' = ar_namewhat ar.

(** [case 'n']: the name [getfuncname] finds, or no name. *)
Definition written_n (L : sol_State) (ci_ : option nat) (ar' : sol_Debug) : Prop :=
  exists r, getfuncname L ci_ = Some r /\
    match r with
    | Some (namewhat, name) =>
        ar_namewhat ar' = namewhat /\ ar_name ar' = Some name
    | None => ar_namewhat ar' = ""%string /\ ar_name ar' = None
    end.

Definition kept_r (ar ar' : sol_Debug) : Prop :=
  ar_ftransfer ar' = ar_ftransfer ar /\ ar_ntransfer ar' = ar_ntransfer ar.

(** [case 'r']: the transfer range of a frame that has one. *)
Definition written_r (L : sol_State) (ci_ : option nat) (ar' : sol_Debug) : Prop :=
  match ci_ with
  | None => ar_ftransfer ar' = 0 /\ ar_ntransfer ar' = 0
  | Some k =>
      exists c, callinfo L !! k = Some c /\
        if Z.land (callstatus c) CIST_TRAN =? 0
        then ar_ftransfer ar' = 0 /\ ar_ntransfer ar' = 0
        else ar_ftransfer ar' = ftransfer c /\ ar_ntransfer ar' = ntransfer c
  end.

(** The record [ar'] after the options [what] on the record [ar]: the
    fields of each option that occurs in [what] are written, the fields
    of every other option are kept, and so is the frame handle. *)
Definition fields_after (L : sol_State) (what : string) (f : option Closure)
    (ci_ : option nat) (ar ar' : sol_Debug) : Prop :=
  i_ci ar' = i_ci ar /\
  (if strchr what "S" then written_S f ar' else kept_S ar ar') /\
  (if strchr what "l" then written_l L ci_ ar' else kept_l ar ar') /\
  (if strchr what "u" then written_u f ar' else kept_u ar ar') /\
  (if strchr what "t" then written_t L ci_ ar' else kept_t ar ar') /\
  (if strchr what "n" then written_n L ci_ ar' else kept_n ar ar') /\
  (if strchr what "r" then written_r L ci_ ar' else kept_r ar ar').

End InfoFields.

(** ** Error constructor *)

(** A [const TValue *]: the address, which tells the operands apart, and
    the value it points at. *)
Record TValuePtr := mkPtr { ptr_addr : Z; ptr_val : TValue }.

(** What the error constructor asks of the rest of the interpreter: the
    name of the type of a value (ltm.c); the coercion test [cvt2str] of
    lvm.h, true of the values the language turns into strings by itself;
    the description [varinfo] of the variable a value sits in, found by
    the symbolic executor; and the raising of the error itself, which
    formats the message, adds the position and unwinds (ldo.c), and whose
    outcome is left open. *)
Class ErrorServices := {
  Raised : Type;
  solT_objtypename : sol_State -> TValue -> string;
  cvt2str : TValue -> bool;
  varinfo : sol_State -> TValuePtr -> string;
  solG_runerror : sol_State -> string -> list string -> Raised
}.

Section ErrorConstructor.
Context `{ErrorServices}.

Definition typeerror (L : sol_State) (o : TValuePtr) (op extra : string) : Raised :=
  let t := solT_objtypename L (ptr_val o) in
  solG_runerror L "attempt to %s a %s value%s" [op; t; extra].

Definition solG_typeerror (L : sol_State) (o : TValuePtr) (op : string) : Raised :=
  typeerror L o op (varinfo L o).

Definition solG_forerror (L : sol_State) (o : TValuePtr) (what : string) : Raised :=
  solG_runerror L "bad 'for' %s (number expected, got %s)"
                [what; solT_objtypename L (ptr_val o)].

Definition solG_concaterror (L : sol_State) (p1 p2 : TValuePtr) : Raised :=
  let p1 := if ttisstring (ptr_val p1) || cvt2str (ptr_val p1) then p2 else p1 in
  solG_typeerror L p1 "concatenate".

Definition solG_opinterror (L : sol_State) (p1 p2 : TValuePtr) (msg : string) : Raised :=
  let p2 := if negb (ttisnumber (ptr_val p1)) then p1 else p2 in
  solG_typeerror L p2 msg.

Definition solG_ordererror (L : sol_State) (p1 p2 : TValuePtr) : Raised :=
  let t1 := solT_objtypename L (ptr_val p1) in
  let t2 := solT_objtypename L (ptr_val p2) in
  if String.eqb t1 t2 then solG_runerror L "attempt to compare two %s values" [t1]
  else solG_runerror L "attempt to compare %s with %s" [t1; t2].

End ErrorConstructor.

(** ** Hook/trace engine *)

(** How a call of a dispatcher ends: the hook returns, or it raises an
    error, which unwinds through the caller of the dispatcher with the
    status thrown; either way it leaves a state. *)
Inductive Hooked :=
| HookReturns (L : sol_State)
| HookRaises (errcode : Z) (L : sol_State).

(** The two dispatchers of ldo.c, parameters of the development.  Each
    runs a hook of the host, which may do anything to the state and may
    raise an error; what is known of a call is that it was made, with
    which arguments and in which state. *)
Class HookDispatch := {
  solD_hook : sol_State -> HookEvent -> Z -> Z -> Z -> Hooked;
  solD_hookcall : sol_State -> nat -> Hooked
}.

(** A call made to a dispatcher. *)
Inductive Dispatch :=
| D_hook (event : HookEvent) (line ftransfer ntransfer : Z)
| D_hookcall (ci_ : nat).

(** How a function of the engine ends: it returns a value, it unwinds
    through [solD_throw] with a status, or it has no defined result. *)
Inductive Outcome :=
| Returns (r : Z)
| Throws (errcode : Z)
| Undefined.

(** A run: how it ended, the state it left and the calls it made to the
    dispatchers, in order. *)
Record Run := mkRun {
  outcome : Outcome;
  final : sol_State;
  dispatched : list Dispatch
}.

Section TraceEngine.
Context `{LineConsts} `{Opcodes} `{StateConsts} `{LocalNames} `{HookDispatch}.

Definition solG_tracecall (L : sol_State) : Run :=
  match callinfo L !! ci L with
  | None => mkRun Undefined L []
  | Some c =>
      match ci_func_p L c with
      | None => mkRun Undefined L []
      | Some p =>
          let L := update_frame L (ci L) (fun c => set_trap c 1) in
          if savedpc c =? 0 then
            if negb (is_vararg p =? 0) then mkRun (Returns 0) L []
            else if Z.land (callstatus c) CIST_HOOKYIELD =? 0 then
              match solD_hookcall L (ci L) with
              | HookReturns L' => mkRun (Returns 1) L' [D_hookcall (ci L)]
              | HookRaises errcode L' =>
                  mkRun (Throws errcode) L' [D_hookcall (ci L)]
              end
            else mkRun (Returns 1) L []
          else mkRun (Returns 1) L []
      end
  end.

(** The end of [solG_traceexec], from the test of [L->status] on. *)
Definition traceexec_finish (L : sol_State) (ci_ : nat) (counthook : bool)
    (calls : list Dispatch) : Run :=
  if status L =? SOL_YIELD then
    let L := if counthook then set_hookcount L 1 else L in
    let L := update_frame L ci_
               (fun c => set_callstatus c (Z.lor (callstatus c) CIST_HOOKYIELD)) in
    mkRun (Throws SOL_YIELD) L calls
  else mkRun (Returns 1) L calls.

(** The line hook of [solG_traceexec]: [if (mask & SOL_MASKLINE) {...}]
    and what follows it. *)
Definition traceexec_line (L : sol_State) (ci_ : nat) (p : Proto) (pc : Z)
    (counthook : bool) (calls : list Dispatch) : Run :=
  let oldpc_ := if oldpc L <? sizecode p then oldpc L else 0 in
  let npci := pcRel pc p in
  match (if npci <=? oldpc_ then Some true else changedline p oldpc_ npci) with
  | None => mkRun Undefined L calls
  | Some true =>
      match solG_getfuncline p npci with
      | None => mkRun Undefined L calls
      | Some newline =>
          let calls := calls ++ [D_hook SOL_HOOKLINE newline 0 0] in
          match solD_hook L SOL_HOOKLINE newline 0 0 with
          | HookRaises errcode L => mkRun (Throws errcode) L calls
          | HookReturns L =>
              let L := set_oldpc L npci in
              traceexec_finish L ci_ counthook calls
          end
      end
  | Some false =>
      let L := set_oldpc L npci in
      traceexec_finish L ci_ counthook calls
  end.

(** [pc] is the offset of the instruction about to run. *)
Definition solG_traceexec (L : sol_State) (pc : Z) : Run :=
  let ci_ := ci L in
  match callinfo L !! ci_ with
  | None => mkRun Undefined L []
  | Some c =>
  let mask := cast_byte (hookmask L) in
  match ci_func_p L c with
  | None => mkRun Undefined L []
  | Some p =>
  if Z.land mask (Z.lor SOL_MASKLINE SOL_MASKCOUNT) =? 0 then
    mkRun (Returns 0) (update_frame L ci_ (fun c => set_trap c 0)) []
  else
    let pc := pc + 1 in
    let L := update_frame L ci_ (fun c => set_savedpc c pc) in
    let L := if Z.land mask SOL_MASKCOUNT =? 0 then L
             else set_hookcount L (hookcount L - 1) in
    let counthook := negb (Z.land mask SOL_MASKCOUNT =? 0) && (hookcount L =? 0) in
    let L := if counthook then resethookcount L else L in
    if negb counthook && (Z.land mask SOL_MASKLINE =? 0) then mkRun (Returns 1) L []
    else if negb (Z.land (callstatus c) CIST_HOOKYIELD =? 0) then
      mkRun (Returns 1)
            (update_frame L ci_
               (fun c => set_callstatus c
                           (Z.land (callstatus c) (Z.lnot CIST_HOOKYIELD))))
            []
    else
      match at_index (code p) (pc - 1) with
      | None => mkRun Undefined L []
      | Some i =>
          let L := if negb (isIT i) then set_top L (ci_top c) else L in
          let '(hooked, calls) :=
            if counthook then
              (solD_hook L SOL_HOOKCOUNT (-1) 0 0, [D_hook SOL_HOOKCOUNT (-1) 0 0])
            else (HookReturns L, []) in
          match hooked with
          | HookRaises errcode L => mkRun (Throws errcode) L calls
          | HookReturns L =>
              if negb (Z.land mask SOL_MASKLINE =? 0) then
                traceexec_line L ci_ p pc counthook calls
              else traceexec_finish L ci_ counthook calls
          end
      end
  end
  end.

End TraceEngine.

(** ** Sample instances of the interfaces, for the examples *)

(** The layout of an instruction word in the examples: the opcode in the
    low 7 bits, [A] in the next 8, [B] from bit 16, and the jump offset
    [sJ] from bit 7, stored with an excess of [2^24 - 1]. *)
Definition sample_Opcodes : Opcodes :=
  {| GET_OPCODE := fun i => i mod 2 ^ 7;
     GETARG_A := fun i => (i / 2 ^ 7) mod 2 ^ 8;
     GETARG_B := fun i => (i / 2 ^ 16) mod 2 ^ 8;
     GETARG_sJ := fun i => (i / 2 ^ 7) mod 2 ^ 25 - (2 ^ 24 - 1);
     testAMode := fun op => op <? 10;
     testMMMode := fun op => (46 <=? op) && (op <=? 48);
     isIT := fun _ => false;
     OP_LOADNIL := 8;
     OP_TFORCALL := 76;
     OP_CALL := 68;
     OP_TAILCALL := 69;
     OP_JMP := 56 |}.

(** Instructions of the examples, in that layout: a load of a constant
    into register [a] (opcode 3), a jump, a call and a return (opcode
    70). *)
Definition sample_LOADK (a : Z) : Instruction := 3 + 2 ^ 7 * a.
Definition sample_JMP (sJ : Z) : Instruction := 56 + 2 ^ 7 * (sJ + (2 ^ 24 - 1)).
Definition sample_CALL (a : Z) : Instruction := 68 + 2 ^ 7 * a.
Definition sample_RETURN : Instruction := 70.

(** A register loaded, then loaded again under a jump that skips the
    second load, then called. *)
Definition conditional_load_proto : Proto :=
  {| numparams := 0; is_vararg := 0;
     code := [sample_LOADK 0; sample_JMP 1; sample_LOADK 0; sample_RETURN;
              sample_CALL 0];
     lineinfo := None; abslineinfo := [];
     linedefined := 0; lastlinedefined := 0; source := None |}.

Definition sample_StateConsts : StateConsts :=
  {| isSol := fun c => Z.land (callstatus c) 2 =? 0;
     CIST_TAIL := 32;
     CIST_TRAN := 256;
     CIST_HOOKYIELD := 64;
     SOL_MASKLINE := 4;
     SOL_MASKCOUNT := 8;
     SOL_YIELD := 1;
     pcRel := fun pc _ => pc - 1 |}.

Definition sample_LocalNames : LocalNames :=
  {| solF_getlocalname := fun _ _ _ => None |}.

Definition sample_InfoServices : InfoServices :=
  {| solO_chunkid := fun source _ => source;
     funcnamefromcall := fun _ _ => None |}.

Definition sample_HookDispatch : HookDispatch :=
  {| solD_hook := fun L _ _ _ _ => HookReturns L;
     solD_hookcall := fun L _ => HookReturns (set_oldpc L 0) |}.

(** Hooks that raise: the line hook and the call hook raise an error
    with status 2; the count hook returns. *)
Definition raising_HookDispatch : HookDispatch :=
  {| solD_hook := fun L event _ _ _ =>
       match event with
       | SOL_HOOKLINE => HookRaises 2 L
       | _ => HookReturns L
       end;
     solD_hookcall := fun L _ => HookRaises 2 L |}.

Definition sample_typename (o : TValue) : string :=
  match o with
  | VNil => "nil"
  | VFalse | VTrue => "boolean"
  | VInteger _ | VFloat _ => "number"
  | VString _ => "string"
  | VTable _ => "table"
  | VLCL _ _ | VCCL _ | VLCF => "function"
  | VOther _ => "userdata"
  end.

(** Numbers are the values the language turns into strings by itself;
    the error raised is kept as the format and its arguments. *)
Definition sample_ErrorServices : ErrorServices :=
  {| Raised := string * list string;
     solT_objtypename := fun _ o => sample_typename o;
     cvt2str := ttisnumber;
     varinfo := fun _ _ => ""%string;
     solG_runerror := fun _ fmt args => (fmt, args) |}.

(** ** Reference notions for the line table *)

(** The sum of a run of deltas. *)
Definition sum_deltas (deltas : list Z) : Z := foldr Z.add 0 deltas.

(** [t[line] == true] in a table held as the list of its entries. *)
Definition line_active (t : list (TValue * TValue)) (line : Z) : Prop :=
  In (VInteger line, VTrue) t.

(** ** Walking the frames *)

Definition set_i_ci (ar : sol_Debug) (v : nat) : sol_Debug :=
  mkDebug (ar_name ar) (ar_namewhat ar) (ar_what ar) (ar_source ar) (ar_srclen ar)
          (ar_currentline ar) (ar_linedefined ar) (ar_lastlinedefined ar)
          (ar_nups ar) (ar_nparams ar) (ar_isvararg ar) (ar_istailcall ar)
          (ar_ftransfer ar) (ar_ntransfer ar) (ar_short_src ar) v.

(** The [for] of [sol_getstack]: from the frame at [ci_] towards
    [base_ci], the frame at 0, as long as [level] is positive. *)
Fixpoint getstack_walk (ci_ : nat) (level : Z) : nat * Z :=
  match ci_ with
  | O => (O, level)
  | S previous =>
      if level >? 0 then getstack_walk previous (level - 1) else (ci_, level)
  end.

(** [sol_getstack]: the status and the record, whose [i_ci] is written
    when the level is found. *)
Definition sol_getstack (L : sol_State) (level : Z) (ar : sol_Debug) : Z * sol_Debug :=
  if level <? 0 then (0, ar)
  else
    let '(ci_, level) := getstack_walk (ci L) level in
    if (level =? 0) && negb (ci_ =? 0)%nat then (1, set_i_ci ar ci_)
    else (0, ar).

(** The [for] of [instack], with [n] slots of the frame left to compare
    with the address [o]. *)
Fixpoint instack_from (n : nat) (base pos o : Z) : Z :=
  match n with
  | O => -1
  | S n' => if o =? base + pos then pos else instack_from n' base (pos + 1) o
  end.

(** [instack]: the index in the frame of the stack slot at address [o],
    or -1. *)
Definition instack (c : CallInfo) (o : Z) : Z :=
  let base := func c + 1 in
  instack_from (Z.to_nat (ci_top c - base)) base 0 o.

(** ** Names from the code *)

(** The rest of the opcode interface of lopcodes.h that the naming of
    registers and functions asks for: four more operand accessors and the
    opcodes it tells apart.  As before, a parameter of the development. *)
Class NameOpcodes := {
  GETARG_C : Instruction -> Z;
  GETARG_k : Instruction -> Z;
  GETARG_Bx : Instruction -> Z;
  GETARG_Ax : Instruction -> Z;
  OP_MOVE : Z;
  OP_GETUPVAL : Z;
  OP_LOADK : Z;
  OP_LOADKX : Z;
  OP_GETTABUP : Z;
  OP_GETTABLE : Z;
  OP_GETI : Z;
  OP_GETFIELD : Z;
  OP_SELF : Z;
  OP_SETTABUP : Z;
  OP_SETTABLE : Z;
  OP_SETI : Z;
  OP_SETFIELD : Z;
  OP_MMBIN : Z;
  OP_MMBINI : Z;
  OP_MMBINK : Z;
  OP_UNM : Z;
  OP_BNOT : Z;
  OP_LEN : Z;
  OP_CONCAT : Z;
  OP_EQ : Z;
  OP_LT : Z;
  OP_LTI : Z;
  OP_GTI : Z;
  OP_LE : Z;
  OP_LEI : Z;
  OP_GEI : Z;
  OP_CLOSE : Z;
  OP_RETURN : Z
}.

(** What the naming reads besides the code: the constants [p->k] and the
    names [p->upvalues[uv].name] of a prototype ([None] for a NULL name),
    the name of the environment variable, the names of the metamethods
    [G(L)->tmname] with the tags the naming uses, and two more bits of
    [callstatus].  Parameters of the development. *)
Class NameTables := {
  proto_k : Proto -> list TValue;
  proto_upvalues : Proto -> list (option string);
  SOL_ENV : string;
  tmname : sol_State -> Z -> option string;
  TM_INDEX : Z;
  TM_NEWINDEX : Z;
  TM_UNM : Z;
  TM_BNOT : Z;
  TM_LEN : Z;
  TM_CONCAT : Z;
  TM_EQ : Z;
  TM_LT : Z;
  TM_LE : Z;
  TM_CLOSE : Z;
  CIST_HOOKED : Z;
  CIST_FIN : Z
}.

(** [s + 2] on a string: what follows its first two characters. *)
Definition skip2 (s : string) : option string :=
  match s with
  | String _ (String _ rest) => Some rest
  | _ => None
  end.

(** [*what == 'c'] *)
Definition starts_with_c (what : option string) : bool :=
  match what with
  | Some (String c _) => Ascii.eqb c "c"
  | _ => false
  end.

Module Naming.

(** What a naming function leaves: the kind it returns (NULL is [None])
    and the string it stores in [*name]. *)
Definition named := (option string * option string)%type.

Definition strlocal : string := "local".
Definition strupval : string := "upvalue".

Section Naming.
Context `{Opcodes} `{NameOpcodes} `{NameTables} `{StateConsts} `{LocalNames}.

Definition upvalname (p : Proto) (uv : Z) : option string :=
  s ← at_index (proto_upvalues p) uv;
  Some (match s with Some s => s | None => "?"%string end).

(** [kname]: the kind and the name, which is written in both cases. *)
Definition kname (p : Proto) (index : Z) : option (option string * string) :=
  kvalue ← at_index (proto_k p) index;
  match kvalue with
  | VString s => Some (Some "constant"%string, s)
  | _ => Some (None, "?"%string)
  end.

(** [basicgetobjname] with a bound on the depth of its recursion; the
    result is the final [*ppc], the kind and [*name]. *)
Fixpoint basicgetobjname_upto (depth : nat) (p : Proto) (pc reg : Z)
  : option (Z * option string * option string) :=
  match depth with
  | O => None
  | S depth' =>
      match solF_getlocalname p (reg + 1) pc with
      | Some name => Some (pc, Some strlocal, Some name)
      | None =>
          pc ← findsetreg p pc reg;
          if pc =? -1 then Some (pc, None, None)
          else
            i ← at_index (code p) pc;
            let op := GET_OPCODE i in
            if op =? OP_MOVE then
              let b := GETARG_B i in
              if b <? GETARG_A i then basicgetobjname_upto depth' p pc b
              else Some (pc, None, None)
            else if op =? OP_GETUPVAL then
              name ← upvalname p (GETARG_B i);
              Some (pc, Some strupval, Some name)
            else if op =? OP_LOADK then
              '(kind, name) ← kname p (GETARG_Bx i);
              Some (pc, kind, Some name)
            else if op =? OP_LOADKX then
              i' ← at_index (code p) (pc + 1);
              '(kind, name) ← kname p (GETARG_Ax i');
              Some (pc, kind, Some name)
            else Some (pc, None, None)
      end
  end.

(** Each recursive call is at an instruction before the one it comes
    from, so [pc + 1] calls are all there can be. *)
Definition basicgetobjname (p : Proto) (pc reg : Z)
  : option (Z * option string * option string) :=
  basicgetobjname_upto (S (Z.to_nat pc)) p pc reg.

Definition rname (p : Proto) (pc c : Z) : option string :=
  '(_, what, name) ← basicgetobjname p pc c;
  Some (match name with
        | Some name => if starts_with_c what then name else "?"%string
        | None => "?"%string
        end).

Definition rkname (p : Proto) (pc : Z) (i : Instruction) : option string :=
  let c := GETARG_C i in
  if negb (GETARG_k i =? 0) then '(_, name) ← kname p c; Some name
  else rname p pc c.

Definition isEnv (p : Proto) (pc : Z) (i : Instruction) (isup : bool) : option string :=
  let t := GETARG_B i in
  name ← (if isup then name ← upvalname p t; Some (Some name)
          else
            '(_, what, name) ← basicgetobjname p pc t;
            match what with
            | Some what =>
                if String.eqb what strlocal || String.eqb what strupval
                then Some name else Some None
            | None => Some None
            end);
  Some (match name with
        | Some name => if String.eqb name SOL_ENV then "global" else "field"
        | None => "field"
        end)%string.

Definition getobjname (p : Proto) (lastpc reg : Z) : option named :=
  '(lastpc, kind, name) ← basicgetobjname p lastpc reg;
  match kind with
  | Some kind => Some (Some kind, name)
  | None =>
      if lastpc =? -1 then Some (None, name)
      else
        i ← at_index (code p) lastpc;
        let op := GET_OPCODE i in
        if op =? OP_GETTABUP then
          '(_, name) ← kname p (GETARG_C i);
          kind ← isEnv p lastpc i true;
          Some (Some kind, Some name)
        else if op =? OP_GETTABLE then
          name ← rname p lastpc (GETARG_C i);
          kind ← isEnv p lastpc i false;
          Some (Some kind, Some name)
        else if op =? OP_GETI then
          Some (Some "field"%string, Some "integer index"%string)
        else if op =? OP_GETFIELD then
          '(_, name) ← kname p (GETARG_C i);
          kind ← isEnv p lastpc i false;
          Some (Some kind, Some name)
        else if op =? OP_SELF then
          name ← rkname p lastpc i;
          Some (Some "method"%string, Some name)
        else Some (None, name)
  end.

(** The [switch] of [funcnamefromcode] on an opcode that calls through a
    metamethod: the tag of the metamethod. *)
Definition metamethod_tag (i : Instruction) : option Z :=
  let op := GET_OPCODE i in
  if (op =? OP_SELF) || (op =? OP_GETTABUP) || (op =? OP_GETTABLE)
     || (op =? OP_GETI) || (op =? OP_GETFIELD) then Some TM_INDEX
  else if (op =? OP_SETTABUP) || (op =? OP_SETTABLE) || (op =? OP_SETI)
          || (op =? OP_SETFIELD) then Some TM_NEWINDEX
  else if (op =? OP_MMBIN) || (op =? OP_MMBINI) || (op =? OP_MMBINK) then
    Some (GETARG_C i)
  else if op =? OP_UNM then Some TM_UNM
  else if op =? OP_BNOT then Some TM_BNOT
  else if op =? OP_LEN then Some TM_LEN
  else if op =? OP_CONCAT then Some TM_CONCAT
  else if op =? OP_EQ then Some TM_EQ
  else if (op =? OP_LT) || (op =? OP_LTI) || (op =? OP_GTI) then Some TM_LT
  else if (op =? OP_LE) || (op =? OP_LEI) || (op =? OP_GEI) then Some TM_LE
  else if (op =? OP_CLOSE) || (op =? OP_RETURN) then Some TM_CLOSE
  else None.

Definition funcnamefromcode (L : sol_State) (p : Proto) (pc : Z) : option named :=
  i ← at_index (code p) pc;
  let op := GET_OPCODE i in
  if (op =? OP_CALL) || (op =? OP_TAILCALL) then getobjname p pc (GETARG_A i)
  else if op =? OP_TFORCALL then
    Some (Some "for iterator"%string, Some "for iterator"%string)
  else
    match metamethod_tag i with
    | None => Some (None, None)
    | Some tm =>
        s ← tmname L tm;
        name ← skip2 s;
        Some (Some "metamethod"%string, Some name)
    end.

Definition funcnamefromcall (L : sol_State) (ci_ : nat) : option named :=
  c ← callinfo L !! ci_;
  if negb (Z.land (callstatus c) CIST_HOOKED =? 0) then
    Some (Some "hook"%string, Some "?"%string)
  else if negb (Z.land (callstatus c) CIST_FIN =? 0) then
    Some (Some "metamethod"%string, Some "__gc"%string)
  else if isSol c then
    p ← ci_func_p L c;
    pc ← currentpc L c;
    funcnamefromcode L p pc
  else Some (None, None).

End Naming.

End Naming.

(** The kinds of name [getobjname] knows. *)
Definition name_kinds : list string :=
  ["local"; "upvalue"; "constant"; "global"; "field"; "method"]%string.

(** ** Memory manager (lmem.c) *)

(** A block is the address the allocator gave, [None] for NULL; sizes
    and the debt are taken in [Z]. *)
Definition block := option Z.

Section Memory.

(** The data of the allocator, [g->ud]. *)
Variable heap : Type.

(** Modelled from the spec: the fields of [global_State] the memory
    manager uses. *)
Record global_State := mkGlobal {
  GCdebt : Z;
  gcstopem : Z;
  ud : heap
}.

Definition set_GCdebt (g : global_State) (v : Z) : global_State :=
  mkGlobal v (gcstopem g) (ud g).
Definition set_ud (g : global_State) (v : heap) : global_State :=
  mkGlobal (GCdebt g) (gcstopem g) v.

(** What the memory manager calls: the allocation function of the host,
    [g->frealloc], which works on its own data; the test for a fully
    built state (lstate.h); the full collection (lgc.c); the conversion
    to [size_t] (llimits.h); and the error constructor [solG_runerror]
    of ldebug.c, here with the arguments the memory manager gives it, a
    format, a string and an integer.  That function checks the
    collector, allocates the formatted message, calls the message
    handler and unwinds, all but the first line of it through functions
    of lgc.c, lobject.c and ldo.c: what it leaves is left open, as
    [MemRaised], a function of the state it is called in and of its
    arguments.  Parameters of the development. *)
Class MemServices := {
  frealloc : heap -> block -> Z -> Z -> block * heap;
  completestate : global_State -> bool;
  solC_fullgc : global_State -> global_State;
  cast_sizet : Z -> Z;
  MemRaised : Type;
  solG_runerror_g : global_State -> string -> string -> Z -> MemRaised
}.

Context `{MemServices}.

Definition callfrealloc (g : global_State) (b : block) (os ns : Z)
  : block * global_State :=
  let '(newblock, h) := frealloc (ud g) b os ns in
  (newblock, set_ud g h).

Definition cantryagain (g : global_State) : bool :=
  completestate g && (gcstopem g =? 0).

Definition MINSIZEARRAY : Z := 4.

(** How a function of the memory manager ends: with a result, with the
    memory error of [solM_error], or in a call of [solG_runerror], which
    does not return. *)
Inductive MemResult (A : Type) :=
| MemOk (a : A) (g : global_State)
| MemError (g : global_State)
| MemRunError (raised : MemRaised).
Arguments MemOk {A}.
Arguments MemError {A}.
Arguments MemRunError {A}.

Definition solM_free_ (g : global_State) (b : block) (osize : Z) : global_State :=
  let '(_, g) := callfrealloc g b osize 0 in
  set_GCdebt g (GCdebt g - osize).

Definition tryagain (g : global_State) (b : block) (osize nsize : Z)
  : block * global_State :=
  if cantryagain g then callfrealloc (solC_fullgc g) b osize nsize
  else (None, g).

Definition solM_realloc_ (g : global_State) (b : block) (osize nsize : Z)
  : block * global_State :=
  let '(newblock, g) := callfrealloc g b osize nsize in
  match newblock with
  | Some _ => (newblock, set_GCdebt g (GCdebt g + nsize - osize))
  | None =>
      if nsize >? 0 then
        let '(newblock, g) := tryagain g b osize nsize in
        match newblock with
        | None => (None, g)
        | Some _ => (newblock, set_GCdebt g (GCdebt g + nsize - osize))
        end
      else (newblock, set_GCdebt g (GCdebt g + nsize - osize))
  end.

Definition solM_saferealloc_ (g : global_State) (b : block) (osize nsize : Z)
  : MemResult block :=
  let '(newblock, g) := solM_realloc_ g b osize nsize in
  match newblock with
  | None => if nsize >? 0 then MemError g else MemOk newblock g
  | Some _ => MemOk newblock g
  end.

Definition solM_malloc_ (g : global_State) (size tag : Z) : MemResult block :=
  if size =? 0 then MemOk None g
  else
    let '(newblock, g) := callfrealloc g None tag size in
    match newblock with
    | Some _ => MemOk newblock (set_GCdebt g (GCdebt g + size))
    | None =>
        let '(newblock, g) := tryagain g None tag size in
        match newblock with
        | None => MemError g
        | Some _ => MemOk newblock (set_GCdebt g (GCdebt g + size))
        end
    end.

(** The size [solM_growaux_] settles on when one more element does not
    fit, or [None] when the array cannot grow. *)
Definition grown_size (size limit : Z) : option Z :=
  if size >=? Z.quot limit 2 then
    if size >=? limit then None else Some limit
  else
    let size := size * 2 in
    Some (if size <? MINSIZEARRAY then MINSIZEARRAY else size).

(** [solM_growaux_]: the block and the size left in [*psize]. *)
Definition solM_growaux_ (g : global_State) (b : block)
    (nelems size size_elems limit : Z) (what : string) : MemResult (block * Z) :=
  if nelems + 1 <=? size then MemOk (b, size) g
  else
    match grown_size size limit with
    | None => MemRunError (solG_runerror_g g "too many %s (limit is %d)" what limit)
    | Some newsize =>
        match solM_saferealloc_ g b (cast_sizet size * size_elems)
                                (cast_sizet newsize * size_elems) with
        | MemOk newblock g => MemOk (newblock, newsize) g
        | MemError g => MemError g
        | MemRunError raised => MemRunError raised
        end
    end.

Definition solM_shrinkvector_ (g : global_State) (b : block)
    (size final_n size_elem : Z) : MemResult (block * Z) :=
  let oldsize := cast_sizet (size * size_elem) in
  let newsize := cast_sizet (final_n * size_elem) in
  match solM_saferealloc_ g b oldsize newsize with
  | MemOk newblock g => MemOk (newblock, final_n) g
  | MemError g => MemError g
  | MemRunError raised => MemRunError raised
  end.

End Memory.

Arguments GCdebt {heap}.
Arguments gcstopem {heap}.
Arguments ud {heap}.
Arguments MemOk {heap _ A}.
Arguments MemError {heap _ A}.
Arguments MemRunError {heap _ A}.
Arguments mkGlobal {heap}.
Arguments set_GCdebt {heap}.
Arguments set_ud {heap}.
Arguments frealloc {heap _}.
Arguments completestate {heap _}.
Arguments solC_fullgc {heap _}.
Arguments cast_sizet {heap _}.
Arguments MemRaised {heap _}.
Arguments solG_runerror_g {heap _}.
Arguments callfrealloc {heap _}.
Arguments cantryagain {heap _}.
Arguments solM_free_ {heap _}.
Arguments tryagain {heap _}.
Arguments solM_realloc_ {heap _}.
Arguments solM_saferealloc_ {heap _}.
Arguments solM_malloc_ {heap _}.
Arguments solM_growaux_ {heap _}.
Arguments solM_shrinkvector_ {heap _}.

(** A vararg function of two instructions and a thread that runs it with
    two extra arguments, in slots 1 and 2 below the function in slot 3;
    the frame at 0 is [base_ci], a native frame. *)
Definition sample_vararg_proto : Proto :=
  {| numparams := 0; is_vararg := 1; code := [sample_RETURN; sample_RETURN];
     lineinfo := Some [1; 0]; abslineinfo := [];
     linedefined := 7; lastlinedefined := 9; source := Some "@sample"%string |}.

Definition sample_state : sol_State :=
  {| stack := [VNil; VInteger 7; VInteger 8; VLCL 0 sample_vararg_proto;
               VInteger 1; VNil; VNil; VNil];
     top := 5;
     ci := 1;
     callinfo := [mkCallInfo 0 1 2 0 0 0 0 0; mkCallInfo 3 6 0 1 0 2 0 0];
     hook := None; hookmask := 0; basehookcount := 0; hookcount := 0;
     oldpc := 0; status := 0 |}.

Definition sample_Debug : sol_Debug :=
  mkDebug None "" "" "" 0 0 0 0 0 0 0 0 0 0 "" 1.

(** A prototype whose anchor at 3 is not marked in [lineinfo].  Its table
    is not well formed, and the two functions part on it: the line goes
    from 10 to 15 at instruction 3 and [changedline] sees a delta of
    zero. *)
Definition unmarked_anchor_proto : Proto :=
  {| numparams := 0; is_vararg := 0; code := [0; 0; 0; 0; 0];
     lineinfo := Some [0; 0; 0; 0; 0];
     abslineinfo := [mkAbsLineInfo 3 15];
     linedefined := 10; lastlinedefined := 20; source := None |}.

(** A thread entering a function that is not vararg. *)
Definition sample_entry_proto : Proto :=
  {| numparams := 1; is_vararg := 0; code := [sample_LOADK 1; sample_RETURN];
     lineinfo := Some [1; 1]; abslineinfo := [];
     linedefined := 3; lastlinedefined := 5; source := None |}.

Definition sample_entry_state (mask count : Z) : sol_State :=
  {| stack := [VNil; VLCL 0 sample_entry_proto; VInteger 1; VNil; VNil];
     top := 3;
     ci := 1;
     callinfo := [mkCallInfo 0 1 2 0 0 0 0 0; mkCallInfo 1 4 0 0 0 0 0 0];
     hook := Some 1%nat; hookmask := mask; basehookcount := count;
     hookcount := count; oldpc := 0; status := 0 |}.

(** ** Sample instances for the naming and the memory manager *)

(** The rest of the layout of an instruction word in the examples: [k]
    is bit 15, [C] starts at bit 24, [Bx] at bit 15 and [Ax] at bit 7. *)
Definition sample_NameOpcodes : NameOpcodes :=
  {| GETARG_C := fun i => (i / 2 ^ 24) mod 2 ^ 8;
     GETARG_k := fun i => (i / 2 ^ 15) mod 2;
     GETARG_Bx := fun i => (i / 2 ^ 15) mod 2 ^ 17;
     GETARG_Ax := fun i => (i / 2 ^ 7) mod 2 ^ 25;
     OP_MOVE := 0;
     OP_GETUPVAL := 9;
     OP_LOADK := 3;
     OP_LOADKX := 4;
     OP_GETTABUP := 11;
     OP_GETTABLE := 12;
     OP_GETI := 13;
     OP_GETFIELD := 14;
     OP_SELF := 20;
     OP_SETTABUP := 15;
     OP_SETTABLE := 16;
     OP_SETI := 17;
     OP_SETFIELD := 18;
     OP_MMBIN := 46;
     OP_MMBINI := 47;
     OP_MMBINK := 48;
     OP_UNM := 49;
     OP_BNOT := 50;
     OP_LEN := 52;
     OP_CONCAT := 53;
     OP_EQ := 57;
     OP_LT := 58;
     OP_LTI := 62;
     OP_GTI := 64;
     OP_LE := 59;
     OP_LEI := 63;
     OP_GEI := 65;
     OP_CLOSE := 54;
     OP_RETURN := 70 |}.

(** Every prototype of the examples has the constant "print" and the
    upvalue "_ENV". *)
Definition sample_NameTables : NameTables :=
  {| proto_k := fun _ => [VString "print"];
     proto_upvalues := fun _ => [Some "_ENV"%string];
     SOL_ENV := "_ENV";
     tmname := fun _ tm =>
       at_index ["__index"; "__newindex"; "__gc"; "__mode"; "__len"; "__eq";
                 "__add"; "__sub"; "__mul"; "__mod"; "__pow"; "__div"; "__idiv";
                 "__band"; "__bor"; "__bxor"; "__shl"; "__shr"; "__unm"; "__bnot";
                 "__lt"; "__le"; "__concat"; "__call"; "__close"]%string tm;
     TM_INDEX := 0;
     TM_NEWINDEX := 1;
     TM_UNM := 18;
     TM_BNOT := 19;
     TM_LEN := 4;
     TM_CONCAT := 22;
     TM_EQ := 5;
     TM_LT := 20;
     TM_LE := 21;
     TM_CLOSE := 24;
     CIST_HOOKED := 8;
     CIST_FIN := 128 |}.

(** A function that loads its constant into register 0 and calls it, and
    a thread in which that call is running: the frame at 1 has gone
    past the call at instruction 1. *)
Definition sample_caller_proto : Proto :=
  {| numparams := 0; is_vararg := 0; code := [sample_LOADK 0; sample_CALL 0];
     lineinfo := None; abslineinfo := [];
     linedefined := 0; lastlinedefined := 0; source := None |}.

Definition sample_caller_state : sol_State :=
  {| stack := [VNil; VLCL 1 sample_caller_proto; VLCF; VNil; VNil];
     top := 3;
     ci := 2;
     callinfo := [mkCallInfo 0 1 2 0 0 0 0 0; mkCallInfo 1 4 0 2 0 0 0 0;
                  mkCallInfo 2 4 2 0 0 0 0 0];
     hook := None; hookmask := 0; basehookcount := 0; hookcount := 0;
     oldpc := 0; status := 0 |}.

(** The thread of [sample_entry_state] with the line hook on, after a
    hook has yielded: the status is that of a yield. *)
Definition sample_yielded_state : sol_State :=
  {| stack := [VNil; VLCL 0 sample_entry_proto; VInteger 1; VNil; VNil];
     top := 3;
     ci := 1;
     callinfo := [mkCallInfo 0 1 2 0 0 0 0 0; mkCallInfo 1 4 0 0 0 0 0 0];
     hook := Some 1%nat; hookmask := 4; basehookcount := 0;
     hookcount := 0; oldpc := 0; status := 1 |}.

(** An allocator over a heap of 100 bytes, of which it keeps the number
    in use: it frees at size 0, and refuses what does not fit.  The
    state is always complete and the collection frees nothing; the
    error raised is kept as the state of the call, the format and its
    arguments. *)
Definition sample_MemServices : MemServices Z :=
  {| frealloc := fun used b os ns =>
       if ns =? 0 then (None, used - os)
       else if used - os + ns <=? 100 then (Some 1, used - os + ns)
       else (None, used);
     completestate := fun _ => true;
     solC_fullgc := fun g => g;
     cast_sizet := fun z => z mod 2 ^ 64;
     MemRaised := global_State Z * string * string * Z;
     solG_runerror_g := fun g fmt what limit => (g, fmt, what, limit) |}.

(** * Properties *)

(** ** Arrays *)

Lemma at_index_Some {A : Type} (a : list A) (i : Z) (x : A) :
  at_index a i = Some x -> 0 <= i < Z.of_nat (length a).
Proof.
  unfold at_index. destruct (Z.ltb_spec i 0) as [Hneg|Hpos]; [discriminate|].
  intros Hl%lookup_lt_Some. lia.
Qed.

Lemma at_index_is_Some {A : Type} (a : list A) (i : Z) :
  0 <= i < Z.of_nat (length a) -> exists x, at_index a i = Some x.
Proof.
  intros [H0 H1]. unfold at_index.
  destruct (Z.ltb_spec i 0); [lia|].
  destruct (lookup_lt_is_Some_2 a (Z.to_nat i)) as [x Hx]; [lia|].
  eauto.
Qed.

Lemma at_index_drop {A : Type} (a : list A) (i : Z) :
  0 <= i ->
  drop (Z.to_nat i) a =
    match at_index a i with
    | Some x => x :: drop (Z.to_nat (i + 1)) a
    | None => []
    end.
Proof.
  intros Hi. unfold at_index. destruct (Z.ltb_spec i 0); [lia|].
  replace (Z.to_nat (i + 1)) with (S (Z.to_nat i)) by lia.
  destruct (a !! Z.to_nat i) as [x|] eqn:E.
  - by apply drop_S.
  - apply drop_ge. by apply lookup_ge_None.
Qed.

(** ** Line-info decoder *)

Section LineInfoFacts.
Context `{LineConsts}.

Lemma cast_uint_small (pc : Z) : 0 <= pc < 2 ^ 31 -> cast_uint pc = pc.
Proof. intros Hpc. unfold cast_uint. apply Z.mod_small. lia. Qed.

(** On a program counter the estimate is the plain quotient, less one. *)
Lemma estimate_small (pc : Z) :
  0 < MAXIWTHABS -> 0 <= pc < 2 ^ 31 -> estimate pc = pc / MAXIWTHABS - 1.
Proof.
  intros HM Hpc. unfold estimate. rewrite cast_uint_small by done.
  rewrite Z.quot_div_nonneg by lia. reflexivity.
Qed.

Lemma scenario_estimate (pc : Z) :
  3 <= MAXIWTHABS -> 3 <= pc <= 5 ->
  getbaseline scenario_proto pc = Some (3, 15).
Proof.
  intros HM Hpc. unfold getbaseline, scenario_proto. cbn [abslineinfo abs_pc].
  destruct (Z.ltb_spec pc 3) as [?|_]; [lia|].
  rewrite estimate_small by lia.
  assert (Hq : pc / MAXIWTHABS = 0 \/ pc / MAXIWTHABS = 1).
  { assert (0 <= pc / MAXIWTHABS) by (apply Z.div_pos; lia).
    assert (pc / MAXIWTHABS <= pc / 3) by (apply Z.div_le_compat_l; lia).
    assert (pc / 3 <= 5 / 3) by (apply Z.div_le_mono; lia).
    change (5 / 3) with 1 in *. lia. }
  destruct Hq as [-> | ->]; simpl.
  - destruct (Z.geb_spec pc 3) as [_|?]; [reflexivity|lia].
  - reflexivity.
Qed.

(** *** Reading the well-formedness checks *)

Lemma anchors_sorted_tail (e : AbsLineInfo) (rest : list AbsLineInfo) :
  anchors_sorted (e :: rest) = true -> anchors_sorted rest = true.
Proof.
  destruct rest as [|e2 rest]; [reflexivity|].
  cbn [anchors_sorted]. intros [_ Ht]%andb_prop. exact Ht.
Qed.

Lemma anchors_sorted_head (rest : list AbsLineInfo) :
  forall e, anchors_sorted (e :: rest) = true ->
  forall e', In e' rest -> abs_pc e < abs_pc e'.
Proof.
  induction rest as [|e2 rest IH]; intros e Hs e' Hin; [destruct Hin|].
  pose proof (anchors_sorted_tail _ _ Hs) as Ht.
  cbn [anchors_sorted] in Hs. apply andb_prop in Hs as [Hlt _].
  apply Z.ltb_lt in Hlt.
  destruct Hin as [<-|Hin]; [exact Hlt|].
  specialize (IH e2 Ht e' Hin). lia.
Qed.

Lemma anchors_sorted_take (abs : list AbsLineInfo) :
  anchors_sorted abs = true ->
  forall (k : nat) e, abs !! k = Some e ->
  forall e', In e' (take (S k) abs) -> abs_pc e' <= abs_pc e.
Proof.
  induction abs as [|a abs IH]; intros Hs k e Hk e' Hin; [discriminate|].
  destruct k as [|k]; cbn in Hk, Hin.
  - injection Hk as ->. rewrite take_0 in Hin.
    destruct Hin as [<-|[]]. lia.
  - destruct Hin as [<-|Hin].
    + apply Z.lt_le_incl, (anchors_sorted_head abs _ Hs).
      apply list_elem_of_In, list_elem_of_lookup. eauto.
    + exact (IH (anchors_sorted_tail _ _ Hs) k e Hk e' Hin).
Qed.

Lemma anchors_marked (li : list Z) (abs : list AbsLineInfo) (e : AbsLineInfo) :
  forallb (anchor_marked li) abs = true -> In e abs ->
  at_index li (abs_pc e) = Some ABSLINEINFO.
Proof.
  intros Hall Hin. rewrite forallb_forall in Hall. specialize (Hall e Hin).
  unfold anchor_marked in Hall.
  destruct (at_index li (abs_pc e)) as [d|]; [|discriminate].
  apply Z.eqb_eq in Hall. by subst.
Qed.

Lemma estimates_asserted_at (abs : list AbsLineInfo) (e0 : AbsLineInfo)
    (rest : list AbsLineInfo) (size : nat) (pc : Z) :
  0 < MAXIWTHABS -> abs = e0 :: rest ->
  estimates_asserted abs size = true ->
  0 <= pc < Z.of_nat size -> pc < 2 ^ 31 -> abs_pc e0 <= pc ->
  let i := pc / MAXIWTHABS - 1 in
  i < 0 \/ exists e, at_index abs i = Some e /\ abs_pc e <= pc.
Proof.
  intros HM -> Hall Hpc Hint Hge i. unfold estimates_asserted in Hall.
  rewrite forallb_forall in Hall.
  assert (Hin : In pc (map Z.of_nat (seq 0 size))).
  { apply in_map_iff. exists (Z.to_nat pc). split; [lia|].
    apply in_seq. lia. }
  specialize (Hall pc Hin). apply orb_prop in Hall as [Hlt|Hest].
  { apply Z.ltb_lt in Hlt. lia. }
  unfold estimate_asserted in Hest. rewrite estimate_small in Hest by lia.
  fold i in Hest. apply orb_prop in Hest as [Hneg|Hat].
  - left. by apply Z.ltb_lt.
  - right. destruct (at_index (e0 :: rest) i) as [e|]; [|discriminate].
    exists e. split; [reflexivity|]. by apply Z.leb_le.
Qed.

(** *** The scan for the anchor *)

Lemma adjust_estimate_app (pre rest : list AbsLineInfo) (pc : Z) :
  (forall e, In e pre -> abs_pc e <= pc) ->
  forall i, adjust_estimate (pre ++ rest) pc i
            = adjust_estimate rest pc (i + Z.of_nat (length pre)).
Proof.
  induction pre as [|a pre IH]; intros Hle i.
  - cbn. f_equal. lia.
  - cbn [app adjust_estimate].
    destruct (Z.geb_spec pc (abs_pc a)) as [_|Hlt].
    + rewrite IH by (intros e He; apply Hle; by right).
      f_equal. cbn [length]. lia.
    + specialize (Hle a (or_introl eq_refl)). lia.
Qed.

Lemma adjust_estimate_bounds (rest : list AbsLineInfo) (pc : Z) :
  forall pre : list AbsLineInfo,
  let j := adjust_estimate rest pc (Z.of_nat (length pre) - 1) in
  Z.of_nat (length pre) - 1 <= j < Z.of_nat (length (pre ++ rest)) /\
  (Z.of_nat (length pre) <= j ->
   exists e, at_index (pre ++ rest) j = Some e /\ abs_pc e <= pc).
Proof.
  induction rest as [|a rest IH]; intros pre; cbn [adjust_estimate].
  - rewrite app_nil_r. cbv zeta. split; [|lia].
    destruct pre; cbn [length]; lia.
  - destruct (Z.geb_spec pc (abs_pc a)) as [Hge|Hlt].
    + specialize (IH (pre ++ [a])). cbv zeta in IH |- *.
      rewrite <- app_assoc in IH. cbn [app] in IH.
      rewrite length_app in IH. cbn [length] in IH.
      replace (Z.of_nat (length pre + 1) - 1) with (Z.of_nat (length pre) - 1 + 1)
        in IH by lia.
      destruct IH as [Hb IH]. split; [lia|]. intros Hj.
      destruct (Z.eq_dec (adjust_estimate rest pc (Z.of_nat (length pre) - 1 + 1))
                         (Z.of_nat (length pre))) as [Heq|Hne].
      * exists a. rewrite Heq. split; [|lia].
        unfold at_index. destruct (Z.ltb_spec (Z.of_nat (length pre)) 0); [lia|].
        rewrite Nat2Z.id. by rewrite list_lookup_middle.
      * apply IH. lia.
    + cbv zeta. rewrite length_app. cbn [length]. split; lia.
Qed.

Lemma adjust_estimate_next (abs : list AbsLineInfo) (pc : Z) :
  (forall e, In e abs -> abs_pc e <> pc + 1) ->
  forall i, adjust_estimate abs (pc + 1) i = adjust_estimate abs pc i.
Proof.
  induction abs as [|a abs IH]; intros Hne i; [reflexivity|].
  cbn [adjust_estimate].
  pose proof (Hne a (or_introl eq_refl)).
  rewrite IH by (intros e He; apply Hne; by right).
  destruct (Z.geb_spec (pc + 1) (abs_pc a)), (Z.geb_spec pc (abs_pc a));
    (reflexivity || lia).
Qed.

(** With a well-formed table, [getbaseline] finds the last anchor at or
    before [pc], whatever the estimate it starts from. *)
Lemma getbaseline_anchor_before (p : Proto) (li : list Z) (pc : Z) :
  0 < MAXIWTHABS -> lineinfo p = Some li -> lineinfo_wf p = true ->
  0 <= pc < Z.of_nat (length li) ->
  getbaseline p pc = Some (anchor_before p pc).
Proof.
  intros HM Hli Hwf Hpc. unfold lineinfo_wf in Hwf. rewrite Hli in Hwf.
  repeat (apply andb_prop in Hwf as [Hwf ?]).
  match goal with Hx : (_ <? 2 ^ 31) = true |- _ => apply Z.ltb_lt in Hx end.
  unfold getbaseline, anchor_before.
  destruct (abslineinfo p) as [|e0 rest] eqn:Habs; [reflexivity|].
  destruct (Z.ltb_spec pc (abs_pc e0)) as [Hlt|Hge].
  { cbn [adjust_estimate]. destruct (Z.geb_spec pc (abs_pc e0)); [lia|reflexivity]. }
  rewrite estimate_small by lia.
  set (i := pc / MAXIWTHABS - 1).
  assert (Hi : -1 <= i) by (assert (0 <= pc / MAXIWTHABS) by (apply Z.div_pos; lia); lia).
  assert (Hadj : adjust_estimate (drop (Z.to_nat (i + 1)) (e0 :: rest)) pc i
                 = adjust_estimate (e0 :: rest) pc (-1)).
  { destruct (estimates_asserted_at (e0 :: rest) e0 rest (length li) pc)
      as [Hneg|(e & He & Hle)]; try done; try lia.
    - fold i in Hneg. replace i with (-1) by lia. reflexivity.
    - fold i in He. pose proof (at_index_Some _ _ _ He) as Hrange.
      unfold at_index in He. destruct (Z.ltb_spec i 0); [lia|].
      rewrite <- (take_drop (Z.to_nat (i + 1)) (e0 :: rest)) at 2.
      rewrite adjust_estimate_app.
      + f_equal. rewrite length_take. lia.
      + intros e' He'. replace (Z.to_nat (i + 1)) with (S (Z.to_nat i)) in He' by lia.
        pose proof (anchors_sorted_take (e0 :: rest) ltac:(done) _ _ He _ He'). lia. }
  rewrite Hadj.
  destruct (adjust_estimate_bounds rest pc [e0]) as [Hb _].
  cbn [length app] in Hb.
  assert (Hstep : adjust_estimate (e0 :: rest) pc (-1) = adjust_estimate rest pc 0).
  { cbn [adjust_estimate]. destruct (Z.geb_spec pc (abs_pc e0)); [reflexivity|lia]. }
  rewrite Hstep. change (Z.of_nat 1 - 1) with 0 in Hb.
  destruct (at_index_is_Some (e0 :: rest) (adjust_estimate rest pc 0)) as [e ->].
  { cbn [length]. lia. }
  reflexivity.
Qed.

Lemma anchor_before_bounds (p : Proto) (li : list Z) (pc : Z) :
  forallb (anchor_marked li) (abslineinfo p) = true -> 0 <= pc ->
  -1 <= fst (anchor_before p pc) <= pc.
Proof.
  intros Hmarked Hpc. unfold anchor_before.
  pose proof (adjust_estimate_bounds (abslineinfo p) pc []) as Hat.
  cbv zeta in Hat. cbn [app length] in Hat.
  change (Z.of_nat 0 - 1) with (-1) in Hat. destruct Hat as [_ Hat].
  destruct (at_index (abslineinfo p) (adjust_estimate (abslineinfo p) pc (-1)))
    as [e|] eqn:He; cbn [fst]; [|lia].
  pose proof (at_index_Some _ _ _ He) as Hrange.
  destruct Hat as (e' & He' & Hle); [lia|].
  injection He' as <-.
  assert (Hin : In e (abslineinfo p)).
  { unfold at_index in He. destruct (Z.ltb_spec (adjust_estimate (abslineinfo p) pc (-1)) 0);
      [discriminate|].
    apply list_elem_of_In, list_elem_of_lookup. eauto. }
  pose proof (at_index_Some _ _ _ (anchors_marked _ _ _ Hmarked Hin)). lia.
Qed.

Lemma anchor_before_next (p : Proto) (li : list Z) (pc d : Z) :
  forallb (anchor_marked li) (abslineinfo p) = true ->
  at_index li (pc + 1) = Some d -> d <> ABSLINEINFO ->
  anchor_before p (pc + 1) = anchor_before p pc.
Proof.
  intros Hmarked Hd Hne. unfold anchor_before.
  rewrite adjust_estimate_next; [reflexivity|].
  intros e He Heq. pose proof (anchors_marked _ _ _ Hmarked He) as Hm.
  rewrite Heq, Hd in Hm. congruence.
Qed.

(** *** The walk from the anchor *)

Lemma walk_lines_defined (li : list Z) (n : nat) :
  forall basepc baseline,
  -1 <= basepc -> basepc + Z.of_nat n < Z.of_nat (length li) ->
  exists line, walk_lines li n basepc baseline = Some line.
Proof.
  induction n as [|n IH]; intros basepc baseline Hlo Hhi; cbn [walk_lines]; [eauto|].
  destruct (at_index_is_Some li (basepc + 1)) as [d ->]; [lia|].
  cbn. apply IH; lia.
Qed.

Lemma walk_lines_unfold (li : list Z) (n : nat) (basepc baseline : Z) :
  walk_lines li (S n) basepc baseline =
    d ← at_index li (basepc + 1);
    walk_lines li n (basepc + 1) (baseline + d).
Proof. reflexivity. Qed.

Lemma walk_lines_S (li : list Z) (n : nat) :
  forall basepc baseline,
  walk_lines li (S n) basepc baseline =
    line ← walk_lines li n basepc baseline;
    d ← at_index li (basepc + Z.of_nat n + 1);
    Some (line + d).
Proof.
  induction n as [|n IH]; intros basepc baseline.
  - replace (basepc + Z.of_nat 0 + 1) with (basepc + 1) by lia.
    cbn [walk_lines]. by destruct (at_index li (basepc + 1)).
  - rewrite (walk_lines_unfold li (S n) basepc baseline).
    rewrite (walk_lines_unfold li n basepc baseline).
    destruct (at_index li (basepc + 1)) as [d|]; [|reflexivity].
    cbn [mbind option_bind]. rewrite IH.
    replace (basepc + 1 + Z.of_nat n + 1) with (basepc + Z.of_nat (S n) + 1) by lia.
    reflexivity.
Qed.

(** [solG_getfuncline] is defined at every instruction of a well-formed
    prototype. *)
Lemma getfuncline_defined (p : Proto) (li : list Z) (pc : Z) :
  0 < MAXIWTHABS -> lineinfo p = Some li -> lineinfo_wf p = true ->
  0 <= pc < Z.of_nat (length li) ->
  exists line, solG_getfuncline p pc = Some line.
Proof.
  intros HM Hli Hwf Hpc. unfold solG_getfuncline. rewrite Hli.
  rewrite (getbaseline_anchor_before p li pc) by done. cbn.
  assert (Hmarked : forallb (anchor_marked li) (abslineinfo p) = true).
  { unfold lineinfo_wf in Hwf. rewrite Hli in Hwf.
    repeat (apply andb_prop in Hwf as [Hwf ?]). done. }
  pose proof (anchor_before_bounds p li pc Hmarked ltac:(lia)) as Hb.
  destruct (anchor_before p pc) as [basepc baseline]. cbn [fst] in Hb.
  apply walk_lines_defined; lia.
Qed.

(** One instruction further with no marker: one more delta. *)
Lemma getfuncline_next (p : Proto) (li : list Z) (pc d : Z) :
  0 < MAXIWTHABS -> lineinfo p = Some li -> lineinfo_wf p = true ->
  0 <= pc -> at_index li (pc + 1) = Some d -> d <> ABSLINEINFO ->
  exists line, solG_getfuncline p pc = Some line /\
               solG_getfuncline p (pc + 1) = Some (line + d).
Proof.
  intros HM Hli Hwf Hpc Hd Hne.
  pose proof (at_index_Some _ _ _ Hd) as Hrange.
  destruct (getfuncline_defined p li pc) as [line Hline]; try done; [lia|].
  exists line. split; [exact Hline|].
  unfold solG_getfuncline in *. rewrite Hli in *.
  assert (Hmarked : forallb (anchor_marked li) (abslineinfo p) = true).
  { unfold lineinfo_wf in Hwf. rewrite Hli in Hwf.
    repeat (apply andb_prop in Hwf as [Hwf ?]). done. }
  rewrite (getbaseline_anchor_before p li (pc + 1)) by (done || lia).
  rewrite (getbaseline_anchor_before p li pc) in Hline by (done || lia).
  rewrite (anchor_before_next p li pc d) by done.
  pose proof (anchor_before_bounds p li pc Hmarked Hpc) as Hb.
  destruct (anchor_before p pc) as [basepc baseline]. cbn [fst] in Hb.
  cbn in Hline |- *.
  replace (Z.to_nat (pc + 1 - basepc)) with (S (Z.to_nat (pc - basepc))) by lia.
  rewrite walk_lines_S, Hline. cbn.
  replace (basepc + Z.of_nat (Z.to_nat (pc - basepc)) + 1) with (pc + 1) by lia.
  rewrite Hd. reflexivity.
Qed.

(** *** The first scenario *)

(** C1, amended.  On the prototype of the first scenario, with anchors at
    least three instructions apart, [solG_getfuncline] gives the lines
    10, 10, 11, 13, 15, 12 at the program counters -1 (the function
    entry, before its first instruction), 0, 1, 2, 3, 4: the five
    instructions are on lines 10, 11, 13, 15, 12.  The program counter 5
    is past the end of [lineinfo] and has no line. *)
Theorem getfuncline_scenario :
  3 <= MAXIWTHABS ->
  map (solG_getfuncline scenario_proto) [-1; 0; 1; 2; 3; 4]
    = map Some [10; 10; 11; 13; 15; 12]
  /\ solG_getfuncline scenario_proto 5 = None.
Proof.
  intros HM.
  assert (H3 := scenario_estimate 3 HM ltac:(lia)).
  assert (H4 := scenario_estimate 4 HM ltac:(lia)).
  assert (H5 := scenario_estimate 5 HM ltac:(lia)).
  unfold solG_getfuncline. cbn [map lineinfo scenario_proto].
  fold scenario_proto. rewrite H3, H4, H5. split; reflexivity.
Qed.

(** *** Adjacent instructions *)

(** C2.  For a prototype whose line table is well formed and two
    adjacent instructions [pc], [pc + 1] of it, [changedline] and
    [solG_getfuncline] are defined, and [changedline p pc (pc + 1)]
    holds exactly when the two lines differ. *)
Theorem changedline_adjacent (p : Proto) (pc : Z) :
  0 < MAXIWTHABS -> lineinfo_wf p = true ->
  0 <= pc -> pc + 1 < sizecode p ->
  exists (changed : bool) (l1 l2 : Z),
    changedline p pc (pc + 1) = Some changed /\
    solG_getfuncline p pc = Some l1 /\
    solG_getfuncline p (pc + 1) = Some l2 /\
    (changed = true <-> l1 <> l2).
Proof.
  intros HM Hwf Hpc Hsize.
  destruct (lineinfo p) as [li|] eqn:Hli.
  2:{ exists false, (-1), (-1). unfold changedline, solG_getfuncline.
      rewrite Hli. repeat split; (done || lia). }
  assert (Hlen : Z.of_nat (length li) = sizecode p).
  { unfold lineinfo_wf in Hwf. rewrite Hli in Hwf.
    repeat (apply andb_prop in Hwf as [Hwf ?]).
    apply Nat.eqb_eq in Hwf. unfold sizecode. by rewrite Hwf. }
  destruct (getfuncline_defined p li pc) as [l1 Hl1]; try done; [lia|].
  destruct (getfuncline_defined p li (pc + 1)) as [l2 Hl2]; try done; [lia|].
  assert (Hslow : exists changed,
             compare_lines p pc (pc + 1) = Some changed /\
             (changed = true <-> l1 <> l2)).
  { exists (negb (l1 =? l2)). unfold compare_lines. rewrite Hl1, Hl2. cbn.
    split; [reflexivity|]. rewrite negb_true_iff, Z.eqb_neq. reflexivity. }
  destruct (at_index_is_Some li (pc + 1)) as [d Hd]; [lia|].
  unfold changedline. rewrite Hli.
  destruct (pc + 1 - pc <? Z.quot MAXIWTHABS 2).
  2:{ destruct Hslow as (changed & Hc & Hiff). by exists changed, l1, l2. }
  destruct (Z.ltb_spec (pc + 1) 0) as [?|_]; [lia|].
  rewrite (at_index_drop li (pc + 1)) by lia. rewrite Hd.
  cbn [scan_delta].
  destruct (Z.eqb_spec d ABSLINEINFO) as [Habs|Hne].
  { destruct Hslow as (changed & Hc & Hiff). by exists changed, l1, l2. }
  rewrite Z.eqb_refl.
  destruct (getfuncline_next p li pc d) as (line & Hline & Hnext); try done.
  rewrite Hl1 in Hline. injection Hline as <-.
  rewrite Hl2 in Hnext. injection Hnext as ->.
  exists (negb (0 + d =? 0)), l1, (l1 + d). repeat split; try done.
  - rewrite negb_true_iff, Z.eqb_neq. lia.
  - rewrite negb_true_iff, Z.eqb_neq. lia.
Qed.

End LineInfoFacts.

(** ** Symbolic execution *)

Section SymbolicExecutionFacts.
Context `{Opcodes}.

Lemma changes_reg_fst (lastpc reg pc jmptarget : Z) (i : Instruction) :
  fst (changes_reg lastpc reg pc jmptarget i) = writes_reg reg i.
Proof.
  unfold writes_reg, changes_reg.
  repeat match goal with |- context [if ?b then _ else _] => destruct b end;
    reflexivity.
Qed.

(** An instruction that changes a register is not a jump: it leaves the
    jump target alone. *)
Lemma changes_reg_snd (lastpc reg pc jmptarget : Z) (i : Instruction) :
  writes_reg reg i = true ->
  snd (changes_reg lastpc reg pc jmptarget i) = jmptarget.
Proof.
  unfold writes_reg, changes_reg.
  repeat match goal with
         | |- context [if ?b then (_, _) else _] => destruct b
         end; cbn; (reflexivity || discriminate).
Qed.

Lemma last_write_range (rest : list Instruction) (reg : Z) :
  forall pc w, last_write rest reg pc = Some w ->
  pc <= w < pc + Z.of_nat (length rest).
Proof.
  induction rest as [|i rest IH]; intros pc w Hw; cbn in Hw; [discriminate|].
  cbn [length]. destruct (last_write rest reg (pc + 1)) as [w'|] eqn:Hrest.
  - injection Hw as <-. apply IH in Hrest. lia.
  - destruct (writes_reg reg i); [|discriminate]. injection Hw as <-. lia.
Qed.

(** The scan keeps the verdict on the last write and nothing else. *)
Lemma scan_setreg_last_write (rest : list Instruction) (lastpc reg : Z) :
  forall pc setreg jmptarget,
  scan_setreg rest lastpc reg pc setreg jmptarget =
    match last_write rest reg pc with
    | None => setreg
    | Some w =>
        filterpc w (jmptarget_after (take (Z.to_nat (w - pc)) rest)
                                    lastpc reg pc jmptarget)
    end.
Proof.
  induction rest as [|i rest IH]; intros pc setreg jmptarget; [reflexivity|].
  cbn [scan_setreg last_write].
  pose proof (changes_reg_fst lastpc reg pc jmptarget i) as Hfst.
  pose proof (changes_reg_snd lastpc reg pc jmptarget i) as Hsnd.
  destruct (changes_reg lastpc reg pc jmptarget i) as [change jmptarget'] eqn:Hch.
  cbn [fst snd] in Hfst, Hsnd. rewrite IH.
  destruct (last_write rest reg (pc + 1)) as [w|] eqn:Hrest.
  - apply last_write_range in Hrest.
    replace (Z.to_nat (w - pc)) with (S (Z.to_nat (w - (pc + 1)))) by lia.
    cbn [take jmptarget_after]. by rewrite Hch.
  - rewrite <- Hfst. destruct change; [|reflexivity].
    replace (Z.to_nat (pc - pc)) with 0%nat by lia. cbn [take jmptarget_after].
    by rewrite Hsnd.
Qed.

(** C3, amended.  [findsetreg] first moves the limit one instruction
    back when the instruction at [lastpc] is of the [testMMMode] kind,
    then scans the instructions before the limit.  Its result depends on
    the last of them that changes [reg] only: the position of that
    instruction if it is at or after the jump target in force there, and
    -1 if it is before it or if no instruction changes [reg].  A write
    found before the jump target thus resets the candidate to -1; it does
    not leave an earlier candidate in place. *)
Theorem findsetreg_last_write (p : Proto) (lastpc reg : Z) (i : Instruction) :
  at_index (code p) lastpc = Some i ->
  let limit := scan_limit i lastpc in
  findsetreg p lastpc reg =
    Some match last_write (take (Z.to_nat limit) (code p)) reg 0 with
         | None => -1
         | Some w => if w <? jmptarget_at p limit reg w then -1 else w
         end.
Proof.
  intros Hi limit. unfold findsetreg. rewrite Hi. cbn [mbind option_bind].
  fold limit. rewrite scan_setreg_last_write.
  destruct (last_write (take (Z.to_nat limit) (code p)) reg 0) as [w|] eqn:Hw;
    [|reflexivity].
  apply last_write_range in Hw. rewrite length_take in Hw.
  unfold filterpc, jmptarget_at.
  rewrite take_take. replace (Z.to_nat (w - 0) `min` Z.to_nat limit)%nat
    with (Z.to_nat w) by lia.
  reflexivity.
Qed.

End SymbolicExecutionFacts.

(** ** Setting the hook *)

Section HookFacts.
Context `{StateConsts}.

Lemma sol_sethook_hook (L : sol_State) (func : option nat) (mask count : Z) :
  hook (sol_sethook L func mask count) =
    match func with
    | None => None
    | Some _ => if mask =? 0 then None else func
    end.
Proof.
  unfold sol_sethook. destruct func as [h|]; [|reflexivity].
  destruct (Z.eqb_spec mask 0) as [->|Hmask]; [reflexivity|].
  destruct (Z.eqb_spec mask 0); [done|reflexivity].
Qed.

Lemma sol_sethook_hookmask (L : sol_State) (func : option nat) (mask count : Z) :
  hookmask (sol_sethook L func mask count) =
    match func with
    | None => 0
    | Some _ => if mask =? 0 then 0 else cast_byte mask
    end.
Proof.
  unfold sol_sethook. destruct func as [h|]; [|reflexivity].
  destruct (Z.eqb_spec mask 0) as [->|Hmask]; [reflexivity|].
  destruct (Z.eqb_spec mask 0); [done|reflexivity].
Qed.

(** C9, amended.  After [sol_sethook] the hook is null exactly when the
    function passed is null or the mask passed is zero, and a null
    function or a zero mask clears both the hook and the mask.  For every
    mask that fits the byte of [hookmask] (0 to 255, which covers every
    combination of the four mask bits), [hookmask] is zero exactly when
    the hook is null. *)
Theorem sol_sethook_invariant (L : sol_State) (func : option nat) (mask count : Z) :
  let L' := sol_sethook L func mask count in
  (func = None \/ mask = 0 -> hook L' = None /\ hookmask L' = 0) /\
  (hook L' = None <-> func = None \/ mask = 0) /\
  (0 <= mask < 2 ^ 8 -> (hookmask L' = 0 <-> hook L' = None)).
Proof.
  cbv zeta. rewrite sol_sethook_hook, sol_sethook_hookmask.
  destruct func as [h|].
  2:{ split; [auto|]. split; [|done]. split; auto. }
  destruct (Z.eqb_spec mask 0) as [->|Hmask].
  { split; [auto|]. split; [|done]. split; auto. }
  split; [intros [?|?]; done|].
  split; [split; [done|intros [?|?]; done]|].
  intros Hrange. unfold cast_byte. rewrite Z.mod_small by lia.
  split; [lia|done].
Qed.

End HookFacts.

(** ** Frame walker *)

Section FrameWalkerFacts.
Context `{StateConsts} `{LocalNames}.

(** C7.  In a script frame that runs a vararg function, a negative [n]
    with [-n <= nextraargs] finds the name "(vararg)" and the slot
    [func - nextraargs - (n + 1)]; with no extra argument, [n = -1]
    finds no name. *)
Theorem findlocal_vararg (L : sol_State) (ci_ : nat) (c : CallInfo) (p : Proto) :
  callinfo L !! ci_ = Some c -> isSol c = true ->
  ci_func_p L c = Some p -> is_vararg p <> 0 ->
  (forall n, n < 0 -> - n <= nextraargs c ->
     solG_findlocal L ci_ n
     = Some (Some ("(vararg)"%string, func c - nextraargs c - (n + 1)))) /\
  (nextraargs c = 0 -> solG_findlocal L ci_ (-1) = Some None).
Proof.
  intros Hc Hsol Hp Hva.
  assert (Hfind : forall n, n < 0 ->
            solG_findlocal L ci_ n =
              if n >=? - nextraargs c
              then Some (Some ("(vararg)"%string, func c - nextraargs c - (n + 1)))
              else Some None).
  { intros n Hn. unfold solG_findlocal. rewrite Hc. cbn [mbind option_bind].
    rewrite Hsol. destruct (Z.ltb_spec n 0) as [_|?]; [|lia].
    cbn [andb]. unfold findvararg. rewrite Hp. cbn [mbind option_bind].
    destruct (Z.eqb_spec (is_vararg p) 0) as [?|_]; [done|]. reflexivity. }
  split.
  - intros n Hn Hle. rewrite Hfind by done.
    destruct (Z.geb_spec n (- nextraargs c)); [reflexivity|lia].
  - intros Hzero. rewrite Hfind by lia. rewrite Hzero. reflexivity.
Qed.

(** C10.  When [solG_findlocal] yields no name, [sol_setlocal] returns
    NULL and leaves the state as it was: nothing is popped, no slot is
    written.  When it does change the stack or its top, a name was
    found, the value popped is the one that was on top and the slot
    written is the one [solG_findlocal] gave. *)
Theorem setlocal_no_name (L : sol_State) (i_ci : nat) (n : Z) :
  (solG_findlocal L i_ci n = Some None ->
   sol_setlocal L i_ci n = Some (None, L)) /\
  (forall r L', sol_setlocal L i_ci n = Some (r, L') -> L' <> L ->
   exists name pos v,
     solG_findlocal L i_ci n = Some (Some (name, pos)) /\
     r = Some name /\
     at_index (stack L) (top L - 1) = Some v /\
     0 <= pos < Z.of_nat (length (stack L)) /\
     stack L' = <[Z.to_nat pos := v]> (stack L) /\
     top L' = top L - 1).
Proof.
  unfold sol_setlocal. split.
  - intros ->. reflexivity.
  - intros r L' Hset Hne.
    destruct (solG_findlocal L i_ci n) as [[[name pos]|]|]; cbn in Hset.
    + destruct (at_index (stack L) (top L - 1)) as [v|]; [|discriminate].
      cbn in Hset. unfold store_at in Hset.
      destruct (Z.leb_spec 0 pos); [|discriminate].
      destruct (Z.ltb_spec pos (Z.of_nat (length (stack L)))); [|discriminate].
      cbn in Hset. injection Hset as <- <-.
      exists name, pos, v. repeat split; (done || lia).
    + injection Hset as <- <-. done.
    + discriminate.
Qed.

End FrameWalkerFacts.

(** ** Info assembler *)

Section InfoAssemblerFacts.
Context `{LineConsts} `{StateConsts} `{LocalNames} `{InfoServices}.

(** One turn of the loop: a character with a [case] leaves the status as
    it is, whatever the status, and a character with none clears it and
    writes nothing. *)
Lemma auxgetinfo_option_step (L : sol_State) (opt : ascii) (s1 s2 s1' : Z)
    (ar ar1 : sol_Debug) (f : option Closure) (ci_ : option nat) :
  auxgetinfo_option L opt s1 ar f ci_ = Some (s1', ar1) ->
  s1' = (if known_option opt then s1 else 0) /\
  auxgetinfo_option L opt s2 ar f ci_
    = Some (if known_option opt then s2 else 0, ar1) /\
  (known_option opt = false -> ar1 = ar).
Proof.
  destruct opt as [[] [] [] [] [] [] [] []];
    try (cbn; intros [= <- <-]; repeat split; reflexivity);
    unfold auxgetinfo_option; intros Hopt;
    repeat (first
      [ progress simplify_option_eq
      | match goal with
        | Hx : context [match ?x with _ => _ end] |- _ => destruct x eqn:?
        end ]);
    repeat split; (reflexivity || discriminate).
Qed.

Lemma auxgetinfo_from_status (L : sol_State) (what : string)
    (f : option Closure) (ci_ : option nat) :
  forall s1 s2 ar s1' ar',
  auxgetinfo_from L what s1 ar f ci_ = Some (s1', ar') ->
  auxgetinfo_from L what s2 ar f ci_
    = Some (if has_unknown_option what then 0 else s2, ar').
Proof.
  induction what as [|opt what IH]; intros s1 s2 ar s1' ar' Hrun.
  - cbn in Hrun |- *. by injection Hrun as <- <-.
  - cbn [auxgetinfo_from has_unknown_option] in Hrun |- *.
    destruct (auxgetinfo_option L opt s1 ar f ci_) as [[t1 ar1]|] eqn:Hopt;
      [|discriminate].
    cbn in Hrun.
    destruct (auxgetinfo_option_step _ _ _ s2 _ _ _ _ _ Hopt) as (_ & -> & _).
    cbn [mbind option_bind].
    rewrite (IH _ (if known_option opt then s2 else 0) _ _ _ Hrun).
    destruct (known_option opt); cbn [negb orb]; [reflexivity|].
    by destruct (has_unknown_option what).
Qed.

Lemma auxgetinfo_from_known (L : sol_State) (what : string)
    (f : option Closure) (ci_ : option nat) :
  forall status ar status' ar',
  auxgetinfo_from L what status ar f ci_ = Some (status', ar') ->
  auxgetinfo_from L (known_options what) status ar f ci_ = Some (status, ar').
Proof.
  induction what as [|opt what IH]; intros status ar status' ar' Hrun.
  - cbn in Hrun |- *. by injection Hrun as <- <-.
  - cbn [auxgetinfo_from] in Hrun. cbn [known_options].
    destruct (auxgetinfo_option L opt status ar f ci_) as [[t1 ar1]|] eqn:Hopt;
      [|discriminate].
    cbn in Hrun.
    destruct (auxgetinfo_option_step _ _ _ status _ _ _ _ _ Hopt) as (-> & _ & Hsame).
    destruct (known_option opt) eqn:Hk.
    + cbn [auxgetinfo_from]. rewrite Hopt. cbn [mbind option_bind].
      exact (IH _ _ _ _ Hrun).
    + rewrite (Hsame eq_refl) in Hrun.
      pose proof (auxgetinfo_from_status L what f ci_ _ status _ _ _ Hrun) as Hrun'.
      exact (IH _ _ _ _ Hrun').
Qed.

(** The fields of an option do not depend on the other fields. *)
Lemma written_S_kept (f : option Closure) (ar1 ar' : sol_Debug) :
  kept_S ar1 ar' -> written_S f ar1 -> written_S f ar'.
Proof.
  unfold kept_S, written_S. intros (-> & -> & -> & -> & -> & ->). done.
Qed.

Lemma written_l_kept (L : sol_State) (ci_ : option nat) (ar1 ar' : sol_Debug) :
  kept_l ar1 ar' -> written_l L ci_ ar1 -> written_l L ci_ ar'.
Proof. unfold kept_l, written_l. intros ->. done. Qed.

Lemma written_u_kept (f : option Closure) (ar1 ar' : sol_Debug) :
  kept_u ar1 ar' -> written_u f ar1 -> written_u f ar'.
Proof. unfold kept_u, written_u. intros (-> & -> & ->). done. Qed.

Lemma written_t_kept (L : sol_State) (ci_ : option nat) (ar1 ar' : sol_Debug) :
  kept_t ar1 ar' -> written_t L ci_ ar1 -> written_t L ci_ ar'.
Proof. unfold kept_t, written_t. intros ->. done. Qed.

Lemma written_n_kept (L : sol_State) (ci_ : option nat) (ar1 ar' : sol_Debug) :
  kept_n ar1 ar' -> written_n L ci_ ar1 -> written_n L ci_ ar'.
Proof. unfold kept_n, written_n. intros (-> & ->). done. Qed.

Lemma written_r_kept (L : sol_State) (ci_ : option nat) (ar1 ar' : sol_Debug) :
  kept_r ar1 ar' -> written_r L ci_ ar1 -> written_r L ci_ ar'.
Proof. unfold kept_r, written_r. intros (-> & ->). done. Qed.

Lemma kept_S_trans (ar ar1 ar' : sol_Debug) :
  kept_S ar1 ar' -> kept_S ar ar1 -> kept_S ar ar'.
Proof. unfold kept_S. intuition congruence. Qed.

Lemma kept_l_trans (ar ar1 ar' : sol_Debug) :
  kept_l ar1 ar' -> kept_l ar ar1 -> kept_l ar ar'.
Proof. unfold kept_l. congruence. Qed.

Lemma kept_u_trans (ar ar1 ar' : sol_Debug) :
  kept_u ar1 ar' -> kept_u ar ar1 -> kept_u ar ar'.
Proof. unfold kept_u. intuition congruence. Qed.

Lemma kept_t_trans (ar ar1 ar' : sol_Debug) :
  kept_t ar1 ar' -> kept_t ar ar1 -> kept_t ar ar'.
Proof. unfold kept_t. congruence. Qed.

Lemma kept_n_trans (ar ar1 ar' : sol_Debug) :
  kept_n ar1 ar' -> kept_n ar ar1 -> kept_n ar ar'.
Proof. unfold kept_n. intuition congruence. Qed.

Lemma kept_r_trans (ar ar1 ar' : sol_Debug) :
  kept_r ar1 ar' -> kept_r ar ar1 -> kept_r ar ar'.
Proof. unfold kept_r. intuition congruence. Qed.

(** One turn of the loop: the option writes its fields, with what its
    [case] stores, and keeps all the others. *)
Lemma auxgetinfo_option_fields_after (L : sol_State) (opt : ascii) (s s' : Z)
    (ar ar1 : sol_Debug) (f : option Closure) (ci_ : option nat) :
  auxgetinfo_option L opt s ar f ci_ = Some (s', ar1) ->
  fields_after L (String opt EmptyString) f ci_ ar ar1.
Proof.
  unfold fields_after.
  destruct opt as [[] [] [] [] [] [] [] []];
    repeat match goal with
           | |- context [strchr ?w ?c] =>
               let b := eval vm_compute in (strchr w c) in
               change (strchr w c) with b
           end; cbv iota;
    try (cbn; intros [= <- <-];
         unfold kept_S, kept_l, kept_u, kept_t, kept_n, kept_r;
         repeat split; reflexivity);
    unfold auxgetinfo_option; intros Hopt.
  all: unfold kept_S, kept_l, kept_u, kept_t, kept_n, kept_r,
         written_S, written_l, written_u, written_t, written_n, written_r.
  all: repeat (first
      [ progress simplify_option_eq
      | match goal with
        | Hx : context [match ?x with _ => _ end] |- _ => destruct x eqn:?
        end ]).
  all: unfold funcinfo; cbn.
  all: repeat case_match; simplify_eq; cbn.
  all: try (repeat split; reflexivity).
  all: repeat apply conj; try reflexivity.
  all: eexists; (split; [reflexivity|]).
  all: repeat case_match; simplify_eq; try done; try congruence.
Qed.

Lemma strchr_cons (opt : ascii) (what : string) (c : ascii) :
  strchr (String opt what) c = Ascii.eqb c opt || strchr what c.
Proof. reflexivity. Qed.

(** The loop: an option that occurs writes its fields, whatever else
    the string holds, and the last writing is the one that stays. *)
Lemma auxgetinfo_from_fields_after (L : sol_State) (what : string)
    (f : option Closure) (ci_ : option nat) :
  forall s ar s' ar',
  auxgetinfo_from L what s ar f ci_ = Some (s', ar') ->
  fields_after L what f ci_ ar ar'.
Proof.
  induction what as [|opt what IH]; intros s ar s' ar' Hrun.
  - cbn in Hrun. injection Hrun as <- <-.
    unfold fields_after, kept_S, kept_l, kept_u, kept_t, kept_n, kept_r. cbn.
    repeat split.
  - cbn [auxgetinfo_from] in Hrun.
    destruct (auxgetinfo_option L opt s ar f ci_) as [[s1 ar1]|] eqn:Hopt;
      [|discriminate].
    cbn [mbind option_bind] in Hrun.
    apply auxgetinfo_option_fields_after in Hopt. apply IH in Hrun.
    unfold fields_after in *. rewrite !strchr_cons in *.
    change (strchr EmptyString) with (fun _ : ascii => false) in Hopt.
    cbv beta in Hopt. rewrite !orb_false_r in Hopt.
    destruct Hopt as (Hi & HS & Hl & Hu & Ht & Hn & Hr).
    destruct Hrun as (Hi' & HS' & Hl' & Hu' & Ht' & Hn' & Hr').
    split; [congruence|].
    repeat apply conj.
    + revert HS HS'. destruct (Ascii.eqb "S" opt), (strchr what "S"); cbn [orb];
        eauto using written_S_kept, kept_S_trans.
    + revert Hl Hl'. destruct (Ascii.eqb "l" opt), (strchr what "l"); cbn [orb];
        eauto using written_l_kept, kept_l_trans.
    + revert Hu Hu'. destruct (Ascii.eqb "u" opt), (strchr what "u"); cbn [orb];
        eauto using written_u_kept, kept_u_trans.
    + revert Ht Ht'. destruct (Ascii.eqb "t" opt), (strchr what "t"); cbn [orb];
        eauto using written_t_kept, kept_t_trans.
    + revert Hn Hn'. destruct (Ascii.eqb "n" opt), (strchr what "n"); cbn [orb];
        eauto using written_n_kept, kept_n_trans.
    + revert Hr Hr'. destruct (Ascii.eqb "r" opt), (strchr what "r"); cbn [orb];
        eauto using written_r_kept, kept_r_trans.
Qed.

(** In the mode that asks about a function on the stack there is no
    frame to read, and [auxgetinfo] is defined on every string. *)
Lemma auxgetinfo_from_defined (L : sol_State) (what : string) (f : option Closure) :
  forall status ar, exists r, auxgetinfo_from L what status ar f None = Some r.
Proof.
  induction what as [|opt what IH]; intros status ar; cbn [auxgetinfo_from]; [eauto|].
  assert (Hopt : exists r, auxgetinfo_option L opt status ar f None = Some r).
  { destruct opt as [[] [] [] [] [] [] [] []]; cbn; eauto.
    destruct (SolClosure f); eauto. }
  destruct Hopt as [[s1 ar1] ->]. cbn. apply IH.
Qed.

(** In the mode that asks about a frame, [auxgetinfo] is defined when
    the frame is there, when its current line is if the string asks for
    it, and when it has a caller if the string asks for a name. *)
Lemma auxgetinfo_from_defined_frame (L : sol_State) (what : string)
    (f : option Closure) (k : nat) (c : CallInfo) :
  callinfo L !! k = Some c ->
  (strchr what "l" = true -> isSol c = true ->
   exists line, getcurrentline L c = Some line) ->
  (strchr what "n" = true -> Z.land (callstatus c) CIST_TAIL = 0 -> k <> 0%nat) ->
  forall status ar, exists r, auxgetinfo_from L what status ar f (Some k) = Some r.
Proof.
  intros Hc. induction what as [|opt what IH]; intros Hl Hn status ar;
    cbn [auxgetinfo_from]; [eauto|].
  rewrite strchr_cons in Hl, Hn.
  assert (Hopt : exists r, auxgetinfo_option L opt status ar f (Some k) = Some r).
  { destruct opt as [[] [] [] [] [] [] [] []];
      cbn [auxgetinfo_option]; rewrite ?Hc; cbn [mbind option_bind]; eauto.
    - (* u *)
      destruct (SolClosure f); eauto.
    - (* n *)
      unfold getfuncname. rewrite Hc. cbn [mbind option_bind].
      destruct (Z.eqb_spec (Z.land (callstatus c) CIST_TAIL) 0) as [Htail|];
        cbn [mbind option_bind]; [|eauto].
      destruct k as [|previous]; [|cbn; destruct (funcnamefromcall L previous) as [[]|]; eauto].
      by destruct (Hn eq_refl Htail).
    - (* r *)
      destruct (Z.land (callstatus c) CIST_TRAN =? 0); eauto.
    - (* l *)
      destruct (isSol c) eqn:Hsol; cbn [mbind option_bind]; [|eauto].
      destruct (Hl eq_refl eq_refl) as [line ->]. cbn. eauto. }
  destruct Hopt as [[s1 ar1] ->]. cbn [mbind option_bind]. apply IH.
  - intros Hw. apply Hl. rewrite Hw. apply orb_true_r.
  - intros Hw. apply Hn. rewrite Hw. apply orb_true_r.
Qed.

(** The status and the record of [sol_getinfo] are those of
    [auxgetinfo] on its options, for the function on top of the stack
    and no frame when the string starts with ['>'], and for the frame of
    the record and its function otherwise. *)
Lemma getinfo_auxgetinfo (L : sol_State) (what : string) (ar : sol_Debug)
    (status : Z) (L' : sol_State) (ar' : sol_Debug) :
  sol_getinfo L what ar = Some (status, L', ar') ->
  exists o,
    ttisfunction o = true /\
    match function_mode what with
    | Some what' =>
        at_index (stack L) (top L - 1) = Some o /\
        auxgetinfo (set_top L (top L - 1)) what' ar
                   (if ttisclosure o then clvalue o else None) None
        = Some (status, ar')
    | None =>
        exists c,
          callinfo L !! i_ci ar = Some c /\
          at_index (stack L) (func c) = Some o /\
          auxgetinfo L what ar (if ttisclosure o then clvalue o else None)
                     (Some (i_ci ar))
          = Some (status, ar')
    end.
Proof.
  unfold sol_getinfo. intros Hget.
  destruct (function_mode what) as [what'|].
  - cbn [mbind option_bind] in Hget.
    change (stack (set_top L (top L - 1))) with (stack L) in Hget.
    destruct (at_index (stack L) (top L - 1)) as [o|]; [|discriminate].
    cbn [mbind option_bind] in Hget.
    destruct (ttisfunction o) eqn:Hfun; [|discriminate].
    exists o. split; [exact Hfun|]. split; [reflexivity|].
    match type of Hget with
    | (?m ≫= _) = _ => destruct m as [[s0 ar0]|]; [|discriminate]
    end.
    cbn [mbind option_bind] in Hget.
    repeat match type of Hget with
           | (?m ≫= _) = _ => destruct m; [|discriminate]; cbn [mbind option_bind] in Hget
           end.
    by injection Hget as <- _ <-.
  - destruct (callinfo L !! i_ci ar) as [c|]; [|discriminate].
    cbn [mbind option_bind] in Hget.
    destruct (at_index (stack L) (func c)) as [o|] eqn:Ho; [|discriminate].
    cbn [mbind option_bind] in Hget.
    destruct (ttisfunction o) eqn:Hfun; [|discriminate].
    exists o. split; [exact Hfun|]. exists c. split; [reflexivity|].
    split; [exact Ho|].
    match type of Hget with
    | (?m ≫= _) = _ => destruct m as [[s0 ar0]|]; [|discriminate]
    end.
    cbn [mbind option_bind] in Hget.
    repeat match type of Hget with
           | (?m ≫= _) = _ => destruct m; [|discriminate]; cbn [mbind option_bind] in Hget
           end.
    by injection Hget as <- _ <-.
Qed.

(** [sol_getinfo] is defined when [auxgetinfo] is and the options ask
    for no table of lines, given room for the function the option ['f']
    pushes. *)
Lemma getinfo_defined (L L0 : sol_State) (what opts : string) (ar : sol_Debug)
    (ci_ : option nat) (func_ : Z) (o : TValue) :
  match function_mode what with
  | Some what' => Some (None, top L - 1, what', set_top L (top L - 1))
  | None => c ← callinfo L !! i_ci ar; Some (Some (i_ci ar), func c, what, L)
  end = Some (ci_, func_, opts, L0) ->
  at_index (stack L0) func_ = Some o -> ttisfunction o = true ->
  (exists r, auxgetinfo L0 opts ar (if ttisclosure o then clvalue o else None) ci_
             = Some r) ->
  strchr opts "L" = false ->
  (strchr opts "f" = true -> 0 <= top L0 < Z.of_nat (length (stack L0))) ->
  exists status L' ar', sol_getinfo L what ar = Some (status, L', ar').
Proof.
  intros Hsel Ho Hfun [[status ar'] Haux] HnoL Hroom.
  unfold sol_getinfo. rewrite Hsel. cbn [mbind option_bind].
  rewrite Ho. cbn [mbind option_bind]. rewrite Hfun, Haux.
  cbn [mbind option_bind]. rewrite HnoL.
  destruct (strchr opts "f").
  - unfold push, store_at. destruct (Hroom eq_refl) as [Hlow Hhigh].
    destruct (Z.leb_spec 0 (top L0)); [|lia].
    destruct (Z.ltb_spec (top L0) (Z.of_nat (length (stack L0)))); [|lia].
    cbn. eauto.
  - cbn. eauto.
Qed.

(** C8, amended.  [auxgetinfo] reports failure (status 0) exactly when
    the string of options has a character outside S, l, u, t, n, r, f,
    L, and status 1 otherwise.  Whatever the status, every option of the string
    is processed: in the record it leaves, the fields of each option
    that occurs in the string hold what the [case] of that option stores
    for the function and the frame of the call, and the fields of every
    other option, with the frame handle, are those of the record passed
    in.  A character with no [case] writes nothing: the record is the
    one the string without those characters leaves.  [sol_getinfo]
    passes on the string past the ['>'] that selects the function on the
    stack: its status and its record are those of [auxgetinfo] on that
    string, for the function on top of the stack and no frame when the
    string starts with ['>'], and for the frame of the record and the
    function of that frame otherwise.  It returns, whatever the
    characters of the string, when the function is there and the string
    asks for no table of lines: with ['>'] always, and for a frame when
    the current line and the caller the string asks for are there and
    there is room for the function ['f'] pushes. *)
Theorem getinfo_unknown_option (L : sol_State) (what : string) (ar : sol_Debug) :
  (forall f ci_ status ar',
     auxgetinfo L what ar f ci_ = Some (status, ar') ->
     (status = 0 <-> has_unknown_option what = true) /\
     (status = 1 <-> has_unknown_option what = false) /\
     fields_after L what f ci_ ar ar' /\
     auxgetinfo L (known_options what) ar f ci_ = Some (1, ar')) /\
  (forall status L' ar',
     sol_getinfo L what ar = Some (status, L', ar') ->
     (status = 0 <-> has_unknown_option (getinfo_options what) = true) /\
     (status = 1 <-> has_unknown_option (getinfo_options what) = false) /\
     exists o,
       ttisfunction o = true /\
       let cl := if ttisclosure o then clvalue o else None in
       match function_mode what with
       | Some what' =>
           at_index (stack L) (top L - 1) = Some o /\
           auxgetinfo (set_top L (top L - 1)) what' ar cl None = Some (status, ar') /\
           fields_after (set_top L (top L - 1)) what' cl None ar ar'
       | None =>
           exists c,
             callinfo L !! i_ci ar = Some c /\
             at_index (stack L) (func c) = Some o /\
             auxgetinfo L what ar cl (Some (i_ci ar)) = Some (status, ar') /\
             fields_after L what cl (Some (i_ci ar)) ar ar'
       end) /\
  (forall what' o,
     what = String ">" what' ->
     at_index (stack L) (top L - 1) = Some o -> ttisfunction o = true ->
     strchr what' "L" = false ->
     exists status L' ar', sol_getinfo L what ar = Some (status, L', ar')) /\
  (forall c o,
     function_mode what = None ->
     callinfo L !! i_ci ar = Some c ->
     at_index (stack L) (func c) = Some o -> ttisfunction o = true ->
     (strchr what "l" = true -> isSol c = true ->
      exists line, getcurrentline L c = Some line) ->
     (strchr what "n" = true -> Z.land (callstatus c) CIST_TAIL = 0 ->
      i_ci ar <> 0%nat) ->
     (strchr what "f" = true -> 0 <= top L < Z.of_nat (length (stack L))) ->
     strchr what "L" = false ->
     exists status L' ar', sol_getinfo L what ar = Some (status, L', ar')).
Proof.
  assert (Haux : forall L0 w f ci_ status ar',
            auxgetinfo L0 w ar f ci_ = Some (status, ar') ->
            (status = 0 <-> has_unknown_option w = true) /\
            (status = 1 <-> has_unknown_option w = false) /\
            fields_after L0 w f ci_ ar ar' /\
            auxgetinfo L0 (known_options w) ar f ci_ = Some (1, ar')).
  { unfold auxgetinfo. intros L0 w f ci_ status ar' Hrun.
    pose proof (auxgetinfo_from_status L0 w f ci_ _ 1 _ _ _ Hrun) as Hst.
    rewrite Hrun in Hst. injection Hst as ->.
    split; [destruct (has_unknown_option w); split; (done || lia)|].
    split; [destruct (has_unknown_option w); split; (done || lia)|].
    split; [exact (auxgetinfo_from_fields_after L0 w f ci_ _ _ _ _ Hrun)|].
    exact (auxgetinfo_from_known L0 w f ci_ _ _ _ _ Hrun). }
  split; [intros f ci_ status ar'; apply Haux|].
  split; [|split].
  - intros status L' ar' Hget.
    destruct (getinfo_auxgetinfo _ _ _ _ _ _ Hget) as (o & Hfun & Hmode).
    unfold getinfo_options. destruct (function_mode what) as [what'|].
    + destruct Hmode as [Ho Hrun].
      destruct (Haux _ _ _ _ _ _ Hrun) as (Hs0 & Hs1 & Hfields & _).
      split; [exact Hs0|]. split; [exact Hs1|].
      exists o. split; [exact Hfun|]. cbv zeta. split; [exact Ho|].
      split; [exact Hrun|exact Hfields].
    + destruct Hmode as (c & Hc & Ho & Hrun).
      destruct (Haux _ _ _ _ _ _ Hrun) as (Hs0 & Hs1 & Hfields & _).
      split; [exact Hs0|]. split; [exact Hs1|].
      exists o. split; [exact Hfun|]. cbv zeta. exists c.
      split; [exact Hc|]. split; [exact Ho|]. split; [exact Hrun|exact Hfields].
  - intros what' o -> Ho Hfun HnoL.
    apply (getinfo_defined L (set_top L (top L - 1)) (String ">" what') what' ar
             None (top L - 1) o); [reflexivity|exact Ho|exact Hfun| |exact HnoL|].
    + apply auxgetinfo_from_defined.
    + intros _. apply at_index_Some in Ho. cbn [top stack set_top]. lia.
  - intros c o Hmode Hc Ho Hfun Hl Hn Hroom HnoL.
    apply (getinfo_defined L L what what ar (Some (i_ci ar)) (func c) o);
      [|exact Ho|exact Hfun| |exact HnoL|exact Hroom].
    + rewrite Hmode, Hc. reflexivity.
    + by apply (auxgetinfo_from_defined_frame L what _ (i_ci ar) c).
Qed.

End InfoAssemblerFacts.

(** ** Error constructor *)

Section ErrorConstructorFacts.
Context `{ErrorServices}.

(** C6, amended.  [solG_concaterror] raises a type error for the
    operation "concatenate".  The error describes the first operand
    exactly when it is neither a string nor a value the language turns
    into a string by itself ([cvt2str]); otherwise it describes the
    second operand. *)
Theorem concaterror_blames (L : sol_State) (p1 p2 : TValuePtr) :
  (ttisstring (ptr_val p1) = false -> cvt2str (ptr_val p1) = false ->
   solG_concaterror L p1 p2 = solG_typeerror L p1 "concatenate"%string) /\
  (ttisstring (ptr_val p1) = true \/ cvt2str (ptr_val p1) = true ->
   solG_concaterror L p1 p2 = solG_typeerror L p2 "concatenate"%string).
Proof.
  unfold solG_concaterror. split.
  - intros -> ->. reflexivity.
  - intros [-> | ->]; [reflexivity|]. by rewrite orb_true_r.
Qed.

End ErrorConstructorFacts.

(** ** Hook/trace engine *)

Section TraceEngineFacts.
Context `{LineConsts} `{Opcodes} `{StateConsts} `{LocalNames} `{HookDispatch}.

(** C5.  At the first instruction of the function of the running frame,
    [solG_tracecall] sets the trap of the frame to 1; for a function
    that is not vararg and a frame not marked as having yielded in a
    hook it then calls the call-hook dispatcher once, on the state with
    the trap set: when the hook returns, the run returns 1 in the state
    the hook left, and when the hook raises an error the run unwinds
    with the status of that error; for a vararg function it calls no
    dispatcher and returns 0. *)
Theorem tracecall_first_instruction (L : sol_State) (c : CallInfo) (p : Proto) :
  callinfo L !! ci L = Some c -> ci_func_p L c = Some p -> savedpc c = 0 ->
  let L1 := update_frame L (ci L) (fun c => set_trap c 1) in
  callinfo L1 !! ci L = Some (set_trap c 1) /\
  trap (set_trap c 1) = 1 /\
  (is_vararg p = 0 -> Z.land (callstatus c) CIST_HOOKYIELD = 0 ->
   dispatched (solG_tracecall L) = [D_hookcall (ci L)] /\
   (forall L2, solD_hookcall L1 (ci L) = HookReturns L2 ->
      solG_tracecall L = mkRun (Returns 1) L2 [D_hookcall (ci L)]) /\
   (forall errcode L2, solD_hookcall L1 (ci L) = HookRaises errcode L2 ->
      solG_tracecall L = mkRun (Throws errcode) L2 [D_hookcall (ci L)])) /\
  (is_vararg p <> 0 -> solG_tracecall L = mkRun (Returns 0) L1 []).
Proof.
  intros Hc Hp Hpc L1. split; [|split; [reflexivity|]].
  - unfold L1, update_frame. cbn [callinfo set_callinfo].
    rewrite list_lookup_alter_eq, Hc. reflexivity.
  - unfold solG_tracecall. rewrite Hc, Hp, Hpc. cbn [Z.eqb]. fold L1. split.
    + intros -> ->. cbn [Z.eqb negb]. change (ci L1) with (ci L).
      destruct (solD_hookcall L1 (ci L)) as [L2|errcode L2].
      * split; [reflexivity|]. split; [by intros ? [= <-]|discriminate].
      * split; [reflexivity|]. split; [discriminate|by intros ? ? [= <- <-]].
    + intros Hva. destruct (Z.eqb_spec (is_vararg p) 0); [done|reflexivity].
Qed.

Lemma traceexec_finish_dispatched (L : sol_State) (ci_ : nat) (counthook : bool)
    (calls : list Dispatch) :
  dispatched (traceexec_finish L ci_ counthook calls) = calls.
Proof. unfold traceexec_finish. by destruct (status L =? SOL_YIELD). Qed.

Lemma traceexec_line_dispatched (L : sol_State) (ci_ : nat) (p : Proto) (pc : Z)
    (counthook : bool) (calls : list Dispatch) :
  dispatched (traceexec_line L ci_ p pc counthook calls) = calls \/
  exists newline,
    dispatched (traceexec_line L ci_ p pc counthook calls)
    = calls ++ [D_hook SOL_HOOKLINE newline 0 0].
Proof.
  unfold traceexec_line.
  destruct (if pcRel pc p <=? (if oldpc L <? sizecode p then oldpc L else 0)
            then Some true
            else changedline p (if oldpc L <? sizecode p then oldpc L else 0)
                             (pcRel pc p)) as [[|]|].
  - destruct (solG_getfuncline p (pcRel pc p)) as [newline|]; [|by left].
    right. exists newline.
    destruct (solD_hook L SOL_HOOKLINE newline 0 0) as [L1|errcode L1];
      [apply traceexec_finish_dispatched|reflexivity].
  - left. apply traceexec_finish_dispatched.
  - by left.
Qed.

(** C4.  The calls one run of [solG_traceexec] makes to the hook
    dispatcher are none, or one for the count hook, or one for the line
    hook, or one for the count hook followed by one for the line hook:
    at most one of each, the count hook first. *)
Theorem traceexec_dispatch_order (L : sol_State) (pc : Z) :
  let calls := dispatched (solG_traceexec L pc) in
  calls = [] \/
  calls = [D_hook SOL_HOOKCOUNT (-1) 0 0] \/
  (exists newline, calls = [D_hook SOL_HOOKLINE newline 0 0]) \/
  (exists newline,
     calls = [D_hook SOL_HOOKCOUNT (-1) 0 0; D_hook SOL_HOOKLINE newline 0 0]).
Proof.
  cbv zeta. unfold solG_traceexec.
  destruct (callinfo L !! ci L) as [c|]; [|by left].
  destruct (ci_func_p L c) as [p|]; [|by left].
  destruct (Z.land (cast_byte (hookmask L)) (Z.lor SOL_MASKLINE SOL_MASKCOUNT) =? 0);
    [by left|].
  match goal with
  | |- context [if negb ?counthook && ?noline then _ else _] =>
      generalize counthook as counthook_; intros counthook_;
      destruct (negb counthook_ && noline); [by left|]
  end.
  destruct (negb (Z.land (callstatus c) CIST_HOOKYIELD =? 0)); [by left|].
  destruct (at_index (code p) (pc + 1 - 1)) as [i|]; [|by left].
  destruct counthook_; cbv beta iota.
  - match goal with
    | |- context [solD_hook ?L0 SOL_HOOKCOUNT (-1) 0 0] =>
        destruct (solD_hook L0 SOL_HOOKCOUNT (-1) 0 0) as [L1|errcode L1]
    end; [|right; by left].
    destruct (negb (Z.land (cast_byte (hookmask L)) SOL_MASKLINE =? 0)).
    + match goal with
      | |- context [traceexec_line ?L1 ?k ?q ?n ?b ?cs] =>
          destruct (traceexec_line_dispatched L1 k q n b cs) as [->|[newline ->]]
      end.
      * right; by left.
      * right; right; right. by exists newline.
    + rewrite traceexec_finish_dispatched. right; by left.
  - destruct (negb (Z.land (cast_byte (hookmask L)) SOL_MASKLINE =? 0)).
    + match goal with
      | |- context [traceexec_line ?L1 ?k ?q ?n ?b ?cs] =>
          destruct (traceexec_line_dispatched L1 k q n b cs) as [->|[newline ->]]
      end.
      * by left.
      * right; right; left. by exists newline.
    + rewrite traceexec_finish_dispatched. by left.
Qed.

End TraceEngineFacts.

(** ** The properties at work on the sample instances *)

Section Samples.

#[local] Existing Instance sample_LineConsts.
#[local] Existing Instance sample_Opcodes.
#[local] Existing Instance sample_StateConsts.
#[local] Existing Instance sample_LocalNames.
#[local] Existing Instance sample_InfoServices.
#[local] Existing Instance sample_HookDispatch.
#[local] Existing Instance sample_ErrorServices.

(** *** Line-info decoder *)

(** C1, as stated: the lines 10, 10, 11, 13, 15, 12 for the program
    counters from 0 on.  Whatever the two constants are, this fails: the
    instruction at 1 is on line 11, and the table has five entries. *)
Lemma getfuncline_scenario_from_0_refuted :
  ~ exists consts : LineConsts,
      map (@solG_getfuncline consts (@scenario_proto consts)) [0; 1; 2; 3; 4; 5]
      = map Some [10; 10; 11; 13; 15; 12].
Proof.
  intros [consts Heq].
  apply (f_equal (fun l => l !! 1%nat)) in Heq.
  vm_compute in Heq. discriminate.
Qed.

Lemma getfuncline_scenario_witness :
  3 <= MAXIWTHABS /\
  map (solG_getfuncline scenario_proto) [-1; 0; 1; 2; 3; 4]
  = map Some [10; 10; 11; 13; 15; 12].
Proof.
  split; [cbn; lia|].
  apply getfuncline_scenario. cbn. lia.
Defined.

Lemma changedline_adjacent_witness :
  exists (changed : bool) (l1 l2 : Z),
    changedline scenario_proto 3 4 = Some changed /\
    solG_getfuncline scenario_proto 3 = Some l1 /\
    solG_getfuncline scenario_proto 4 = Some l2 /\
    (changed = true <-> l1 <> l2).
Proof.
  apply (changedline_adjacent scenario_proto 3).
  - reflexivity.
  - reflexivity.
  - lia.
  - reflexivity.
Defined.

Example changedline_unmarked_anchor :
  lineinfo_wf unmarked_anchor_proto = false /\
  changedline unmarked_anchor_proto 2 3 = Some false /\
  solG_getfuncline unmarked_anchor_proto 2 = Some 10 /\
  solG_getfuncline unmarked_anchor_proto 3 = Some 15.
Proof. repeat split; reflexivity. Qed.

(** *** Symbolic execution *)

Example conditional_load_findsetreg :
  findsetreg conditional_load_proto 4 0 = Some (-1) /\
  findsetreg_discarding conditional_load_proto 4 0 = Some 0.
Proof. split; reflexivity. Qed.

(** C3, as stated: a write found before the jump target is discarded and
    the last write that survives is returned.  In
    [conditional_load_proto] the load at 0 survives and the load at 2,
    under the jump to 3, does not; [findsetreg] returns -1 for
    register 0 at the call, not 0. *)
Lemma findsetreg_discarding_refuted :
  ~ (forall (ops : Opcodes) (p : Proto) (lastpc reg : Z),
       @findsetreg ops p lastpc reg = @findsetreg_discarding ops p lastpc reg).
Proof.
  intros Hall.
  specialize (Hall sample_Opcodes conditional_load_proto 4 0).
  destruct conditional_load_findsetreg as [Hcode Hspec].
  rewrite Hcode, Hspec in Hall. discriminate.
Qed.

Lemma findsetreg_last_write_witness :
  at_index (code conditional_load_proto) 4 = Some (sample_CALL 0) /\
  findsetreg conditional_load_proto 4 0 = Some (-1).
Proof.
  split; [reflexivity|].
  exact (@findsetreg_last_write sample_Opcodes conditional_load_proto 4 0
           (sample_CALL 0) eq_refl).
Defined.

(** *** Setting the hook *)

(** C9, as stated: with any arguments.  A mask of 256 with a hook leaves
    the hook installed and a [hookmask] of zero. *)
Lemma sol_sethook_invariant_refuted :
  ~ (forall (consts : StateConsts) (L : sol_State) (func : option nat) (mask count : Z),
       hookmask (@sol_sethook consts L func mask count) = 0
       <-> hook (@sol_sethook consts L func mask count) = None).
Proof.
  intros Hall.
  destruct (Hall sample_StateConsts sample_state (Some 1%nat) 256 0) as [Hnull _].
  specialize (Hnull eq_refl). discriminate Hnull.
Qed.

Lemma sol_sethook_invariant_witness :
  0 <= 4 < 2 ^ 8 /\
  (hookmask (sol_sethook sample_state (Some 1%nat) 4 0) = 0
   <-> hook (sol_sethook sample_state (Some 1%nat) 4 0) = None).
Proof.
  split; [lia|].
  apply (sol_sethook_invariant sample_state (Some 1%nat) 4 0).
  lia.
Defined.

(** *** Frame walker *)

Lemma findlocal_vararg_witness :
  solG_findlocal sample_state 1 (-2) = Some (Some ("(vararg)"%string, 2)).
Proof.
  destruct (@findlocal_vararg sample_StateConsts sample_LocalNames sample_state 1
              (mkCallInfo 3 6 0 1 0 2 0 0) sample_vararg_proto
              eq_refl eq_refl eq_refl ltac:(discriminate))
    as [Hfound _].
  exact (Hfound (-2) ltac:(lia) ltac:(cbn; lia)).
Defined.

Lemma setlocal_no_name_witness :
  solG_findlocal sample_state 1 5 = Some None /\
  sol_setlocal sample_state 1 5 = Some (None, sample_state).
Proof.
  split; [reflexivity|].
  exact (proj1 (@setlocal_no_name sample_StateConsts sample_LocalNames
                  sample_state 1 5) eq_refl).
Defined.

(** A temporary of the running frame takes the value on top. *)
Example setlocal_temporary :
  sol_setlocal sample_state 1 1
  = Some (Some "(temporary)"%string, set_top sample_state 4).
Proof. reflexivity. Qed.

(** *** Info assembler *)

(** C8, as stated for [sol_getinfo]: failure exactly when the string has
    a character outside S, l, u, t, n, r, f, L.  The ['>'] that selects
    the function on the stack is such a character, and the call with
    ">u" succeeds. *)
Lemma getinfo_leading_mode_refuted :
  ~ (forall (lc : LineConsts) (sc : StateConsts) (services : InfoServices)
            (L : sol_State) (what : string) (ar : sol_Debug)
            (status : Z) (L' : sol_State) (ar' : sol_Debug),
       @sol_getinfo lc sc services L what ar = Some (status, L', ar') ->
       (status = 0 <-> has_unknown_option what = true)).
Proof.
  intros Hall.
  assert (Hrun : exists L' ar',
            sol_getinfo (set_top sample_state 4) ">u" sample_Debug
            = Some (1, L', ar')) by (do 2 eexists; reflexivity).
  destruct Hrun as (L' & ar' & Hrun).
  destruct (Hall _ _ _ _ _ _ _ _ _ Hrun) as [_ Hback].
  discriminate (Hback eq_refl).
Qed.

Lemma getinfo_unknown_option_witness :
  exists L' ar',
    sol_getinfo (set_top sample_state 4) ">u?f" sample_Debug = Some (0, L', ar') /\
    ar_nups ar' = 0 /\ ar_isvararg ar' = 1 /\ ar_nparams ar' = 0 /\
    ar_currentline ar' = ar_currentline sample_Debug.
Proof.
  destruct (@getinfo_unknown_option sample_LineConsts sample_StateConsts
              sample_InfoServices (set_top sample_state 4) ">u?f" sample_Debug)
    as (_ & Hget & Hdefined & _).
  destruct (Hdefined "u?f"%string (VLCL 0 sample_vararg_proto)
              eq_refl eq_refl eq_refl eq_refl) as (status & L' & ar' & Hrun).
  destruct (Hget status L' ar' Hrun)
    as (Hfails & _ & o & _ & Ho & _ & Hfields).
  injection Ho as <-.
  destruct Hfields as (_ & _ & Hl & (Hnups & Hva & Hnp) & _).
  rewrite (proj2 Hfails eq_refl) in Hrun.
  exists L', ar'. split; [exact Hrun|].
  split; [exact Hnups|]. split; [exact Hva|]. split; [exact Hnp|exact Hl].
Defined.

(** The function on top of the stack, asked with an option that has no
    case: the call fails, and the function is pushed all the same. *)
Example getinfo_function_mode :
  exists L' ar',
    sol_getinfo (set_top sample_state 4) ">u?f" sample_Debug = Some (0, L', ar') /\
    top L' = 4 /\ ar_nups ar' = 0 /\ ar_isvararg ar' = 1.
Proof. do 2 eexists. repeat split; reflexivity. Qed.

(** *** Error constructor *)

(** The failed concatenation of the number 1 and a table blames the
    table. *)
Example concaterror_number_table :
  solG_concaterror sample_state (mkPtr 4 (VInteger 1)) (mkPtr 5 (VTable []))
  = ("attempt to %s a %s value%s"%string, ["concatenate"; "table"; ""]%string).
Proof. reflexivity. Qed.

(** C6, as stated: the error describes the first operand exactly when
    it is not a string.  The number 1 is not a string, and the error for
    [1 .. {}] describes the table. *)
Lemma concaterror_blames_nonstring_refuted :
  ~ (forall (services : ErrorServices) (L : sol_State) (p1 p2 : TValuePtr),
       @solG_concaterror services L p1 p2
       = @solG_typeerror services L
           (if ttisstring (ptr_val p1) then p2 else p1) "concatenate").
Proof.
  intros Hall.
  specialize (Hall sample_ErrorServices sample_state
                   (mkPtr 4 (VInteger 1)) (mkPtr 5 (VTable []))).
  rewrite concaterror_number_table in Hall. discriminate Hall.
Qed.

Lemma concaterror_blames_witness :
  solG_concaterror sample_state (mkPtr 4 VNil) (mkPtr 5 (VString "x"))
  = solG_typeerror sample_state (mkPtr 4 VNil) "concatenate".
Proof.
  exact (proj1 (@concaterror_blames sample_ErrorServices sample_state
                  (mkPtr 4 VNil) (mkPtr 5 (VString "x")))
               eq_refl eq_refl).
Defined.

(** *** Hook/trace engine *)

Lemma tracecall_first_instruction_witness :
  dispatched (solG_tracecall (sample_entry_state 1 0)) = [D_hookcall 1] /\
  outcome (solG_tracecall (sample_entry_state 1 0)) = Returns 1.
Proof.
  destruct (@tracecall_first_instruction sample_StateConsts sample_HookDispatch
              (sample_entry_state 1 0) (mkCallInfo 1 4 0 0 0 0 0 0)
              sample_entry_proto eq_refl eq_refl eq_refl)
    as (_ & _ & Hcall & _).
  destruct (Hcall eq_refl eq_refl) as (_ & Hreturns & _).
  rewrite (Hreturns _ eq_refl). split; reflexivity.
Defined.

(** A vararg function at its first instruction: the trap, no call. *)
Example tracecall_vararg :
  solG_tracecall (update_frame sample_state 1 (fun c => set_savedpc c 0))
  = mkRun (Returns 0)
          (update_frame sample_state 1 (fun c => set_trap (set_savedpc c 0) 1)) [].
Proof. reflexivity. Qed.

(** Each of the four shapes of C4 occurs: no hook enabled, the count
    hook at a count that runs out, the line hook on entering the
    function, and both. *)
Example traceexec_shapes :
  dispatched (solG_traceexec (sample_entry_state 0 1) 0) = [] /\
  dispatched (solG_traceexec (sample_entry_state 8 1) 0)
    = [D_hook SOL_HOOKCOUNT (-1) 0 0] /\
  dispatched (solG_traceexec (sample_entry_state 4 1) 0)
    = [D_hook SOL_HOOKLINE 4 0 0] /\
  dispatched (solG_traceexec (sample_entry_state 12 1) 0)
    = [D_hook SOL_HOOKCOUNT (-1) 0 0; D_hook SOL_HOOKLINE 4 0 0] /\
  dispatched (solG_traceexec (sample_entry_state 12 2) 0)
    = [D_hook SOL_HOOKLINE 4 0 0].
Proof. repeat split; reflexivity. Qed.

End Samples.

(** * Further properties *)

(** ** Line-info decoder *)

Section LineInfoMore.
Context `{LineConsts}.

Lemma lineinfo_wf_parts (p : Proto) (li : list Z) :
  lineinfo p = Some li -> lineinfo_wf p = true ->
  Z.of_nat (length li) = sizecode p /\
  Z.of_nat (length li) < 2 ^ 31 /\
  anchors_sorted (abslineinfo p) = true /\
  forallb (anchor_marked li) (abslineinfo p) = true.
Proof.
  intros Hli Hwf. unfold lineinfo_wf in Hwf. rewrite Hli in Hwf.
  repeat (apply andb_prop in Hwf as [Hwf ?]).
  apply Nat.eqb_eq in Hwf. unfold sizecode. rewrite <- Hwf.
  repeat split; try done. by apply Z.ltb_lt.
Qed.

Lemma walk_lines_sum (li : list Z) (n : nat) :
  forall basepc baseline,
  -1 <= basepc -> basepc + Z.of_nat n < Z.of_nat (length li) ->
  walk_lines li n basepc baseline =
    Some (baseline + sum_deltas (take n (drop (Z.to_nat (basepc + 1)) li))).
Proof.
  induction n as [|n IH]; intros basepc baseline Hlo Hhi.
  - rewrite take_0. cbn. f_equal. lia.
  - rewrite walk_lines_unfold.
    rewrite (at_index_drop li (basepc + 1)) by lia.
    destruct (at_index_is_Some li (basepc + 1)) as [d ->]; [lia|].
    cbn [mbind option_bind take sum_deltas foldr].
    rewrite IH by lia. f_equal. unfold sum_deltas. lia.
Qed.

Lemma getfuncline_anchor_sum (p : Proto) (li : list Z) (pc : Z) :
  0 < MAXIWTHABS -> lineinfo p = Some li -> lineinfo_wf p = true ->
  0 <= pc < Z.of_nat (length li) ->
  let '(basepc, baseline) := anchor_before p pc in
  -1 <= basepc <= pc /\
  solG_getfuncline p pc =
    Some (baseline + sum_deltas (take (Z.to_nat (pc - basepc))
                                      (drop (Z.to_nat (basepc + 1)) li))).
Proof.
  intros HM Hli Hwf Hpc.
  destruct (lineinfo_wf_parts p li Hli Hwf) as (_ & _ & _ & Hmarked).
  pose proof (anchor_before_bounds p li pc Hmarked ltac:(lia)) as Hb.
  unfold solG_getfuncline. rewrite Hli.
  rewrite (getbaseline_anchor_before p li pc) by done.
  destruct (anchor_before p pc) as [basepc baseline]. cbn [fst] in Hb.
  split; [exact Hb|]. cbn [mbind option_bind].
  apply walk_lines_sum; lia.
Qed.


Lemma anchors_sorted_split (pre post : list AbsLineInfo) (e : AbsLineInfo) :
  anchors_sorted (pre ++ e :: post) = true ->
  (forall x, In x pre -> abs_pc x < abs_pc e) /\
  (forall y, In y post -> abs_pc e < abs_pc y).
Proof.
  induction pre as [|a pre IH]; intros Hs.
  - split; [intros x []|]. cbn [app] in Hs. exact (anchors_sorted_head post e Hs).
  - cbn [app] in Hs.
    destruct (IH (anchors_sorted_tail _ _ Hs)) as [Hpre Hpost].
    split; [|exact Hpost].
    intros x [<-|Hx]; [|by apply Hpre].
    apply (anchors_sorted_head _ _ Hs). apply in_or_app. right. by left.
Qed.

(** X2.  An anchor is exact: on a well-formed prototype the line of the
    instruction an anchor stands at is the line of the anchor. *)
Theorem getfuncline_at_anchor (p : Proto) (e : AbsLineInfo) :
  0 < MAXIWTHABS -> lineinfo_wf p = true -> lineinfo p <> None ->
  In e (abslineinfo p) ->
  solG_getfuncline p (abs_pc e) = Some (abs_line e).
Proof.
  intros HM Hwf Hsome Hin.
  destruct (lineinfo p) as [li|] eqn:Hli; [|done].
  destruct (lineinfo_wf_parts p li Hli Hwf) as (_ & _ & Hsorted & Hmarked).
  pose proof (at_index_Some _ _ _ (anchors_marked _ _ _ Hmarked Hin)) as Hrange.
  assert (Hbase : anchor_before p (abs_pc e) = (abs_pc e, abs_line e)).
  { unfold anchor_before. apply in_split in Hin as (pre & post & Habs).
    rewrite Habs in Hsorted |- *.
    destruct (anchors_sorted_split _ _ _ Hsorted) as [Hpre Hpost].
    rewrite adjust_estimate_app by (intros x Hx; specialize (Hpre x Hx); lia).
    cbn [adjust_estimate].
    destruct (Z.geb_spec (abs_pc e) (abs_pc e)) as [_|?]; [|lia].
    assert (Hstop : forall i, adjust_estimate post (abs_pc e) i = i).
    { intros i. destruct post as [|y post]; [reflexivity|]. cbn [adjust_estimate].
      specialize (Hpost y (or_introl eq_refl)).
      destruct (Z.geb_spec (abs_pc e) (abs_pc y)); [lia|reflexivity]. }
    rewrite Hstop. unfold at_index.
    destruct (Z.ltb_spec (-1 + Z.of_nat (length pre) + 1) 0); [lia|].
    replace (Z.to_nat (-1 + Z.of_nat (length pre) + 1)) with (length pre) by lia.
    by rewrite list_lookup_middle. }
  pose proof (getfuncline_anchor_sum p li (abs_pc e) HM Hli Hwf Hrange) as Hline.
  rewrite Hbase in Hline. destruct Hline as [_ ->].
  replace (Z.to_nat (abs_pc e - abs_pc e)) with 0%nat by lia.
  rewrite take_0. cbn. f_equal. lia.
Qed.

Lemma scan_delta_lines (p : Proto) (li : list Z) (oldpc newpc l0 : Z) :
  0 < MAXIWTHABS -> lineinfo p = Some li -> lineinfo_wf p = true ->
  newpc < Z.of_nat (length li) ->
  forall (n : nat) (pc delta : Z),
  n = Z.to_nat (newpc - pc) -> 0 <= pc < newpc ->
  solG_getfuncline p pc = Some (l0 + delta) ->
  match scan_delta (drop (Z.to_nat (pc + 1)) li) pc newpc delta with
  | DeltaDone changed =>
      exists l2, solG_getfuncline p newpc = Some l2 /\ (changed = true <-> l0 <> l2)
  | DeltaBreak => True
  | DeltaOutside => False
  end.
Proof.
  intros HM Hli Hwf Hnew n. induction n as [|n IH]; intros pc delta Hn Hpc Hline; [lia|].
  rewrite (at_index_drop li (pc + 1)) by lia.
  destruct (at_index_is_Some li (pc + 1)) as [d Hd]; [lia|]. rewrite Hd.
  cbn [scan_delta]. destruct (Z.eqb_spec d ABSLINEINFO) as [?|Hne]; [exact I|].
  destruct (getfuncline_next p li pc d) as (line & Hline' & Hnext); try done; [lia|].
  rewrite Hline in Hline'. injection Hline' as <-.
  destruct (Z.eqb_spec (pc + 1) newpc) as [<-|Hmore].
  - exists (l0 + delta + d). split; [exact Hnext|].
    rewrite negb_true_iff, Z.eqb_neq. lia.
  - apply IH; [lia|lia|]. rewrite Hnext. f_equal. lia.
Qed.

(** X3.  On a well-formed prototype and for any two instructions
    [oldpc < newpc], however far apart, [changedline] is defined and
    holds exactly when [solG_getfuncline] gives them different lines:
    the sum of deltas of the fast path and the two decodings of the slow
    path agree. *)
Theorem changedline_agrees (p : Proto) (oldpc newpc : Z) :
  0 < MAXIWTHABS -> lineinfo_wf p = true ->
  0 <= oldpc < newpc -> newpc < sizecode p ->
  exists (changed : bool) (l1 l2 : Z),
    changedline p oldpc newpc = Some changed /\
    solG_getfuncline p oldpc = Some l1 /\
    solG_getfuncline p newpc = Some l2 /\
    (changed = true <-> l1 <> l2).
Proof.
  intros HM Hwf Hpc Hsize.
  destruct (lineinfo p) as [li|] eqn:Hli.
  2:{ exists false, (-1), (-1). unfold changedline, solG_getfuncline.
      rewrite Hli. repeat split; (done || lia). }
  destruct (lineinfo_wf_parts p li Hli Hwf) as (Hlen & _).
  destruct (getfuncline_defined p li oldpc) as [l1 Hl1]; try done; [lia|].
  destruct (getfuncline_defined p li newpc) as [l2 Hl2]; try done; [lia|].
  assert (Hslow : exists changed,
             compare_lines p oldpc newpc = Some changed /\
             (changed = true <-> l1 <> l2)).
  { exists (negb (l1 =? l2)). unfold compare_lines. rewrite Hl1, Hl2. cbn.
    split; [reflexivity|]. rewrite negb_true_iff, Z.eqb_neq. reflexivity. }
  unfold changedline. rewrite Hli.
  destruct (newpc - oldpc <? Z.quot MAXIWTHABS 2).
  2:{ destruct Hslow as (changed & Hc & Hiff). by exists changed, l1, l2. }
  destruct (Z.ltb_spec (oldpc + 1) 0) as [?|_]; [lia|].
  pose proof (scan_delta_lines p li oldpc newpc l1 HM Hli Hwf ltac:(lia)
                _ oldpc 0 eq_refl ltac:(lia)) as Hscan.
  rewrite Z.add_0_r in Hscan. specialize (Hscan Hl1).
  destruct (scan_delta (drop (Z.to_nat (oldpc + 1)) li) oldpc newpc 0) as [|changed|].
  - destruct Hslow as (changed & Hc & Hiff). by exists changed, l1, l2.
  - destruct Hscan as (l2' & Hl2' & Hiff). rewrite Hl2 in Hl2'. injection Hl2' as <-.
    by exists changed, l1, l2.
  - destruct Hscan.
Qed.

Lemma getfuncline_first (p : Proto) (li : list Z) (d : Z) :
  0 < MAXIWTHABS -> lineinfo p = Some li -> lineinfo_wf p = true ->
  at_index li 0 = Some d -> d <> ABSLINEINFO ->
  solG_getfuncline p 0 = Some (linedefined p + d).
Proof.
  intros HM Hli Hwf Hd Hne.
  destruct (lineinfo_wf_parts p li Hli Hwf) as (_ & _ & _ & Hmarked).
  pose proof (at_index_Some _ _ _ Hd) as Hrange.
  pose proof (getfuncline_anchor_sum p li 0 HM Hli Hwf Hrange) as Hline.
  assert (Hbase : anchor_before p 0 = (-1, linedefined p)).
  { unfold anchor_before. destruct (abslineinfo p) as [|e0 rest] eqn:Habs; [reflexivity|].
    assert (Hin : In e0 (e0 :: rest)) by (by left).
    pose proof (anchors_marked _ _ _ Hmarked Hin) as Hm.
    pose proof (at_index_Some _ _ _ Hm) as Hr.
    assert (abs_pc e0 <> 0) by (intros Hz; rewrite Hz, Hd in Hm; congruence).
    cbn [adjust_estimate]. destruct (Z.geb_spec 0 (abs_pc e0)); [lia|reflexivity]. }
  rewrite Hbase in Hline. destruct Hline as [_ ->].
  change (Z.to_nat (0 - -1)) with 1%nat. change (Z.to_nat (-1 + 1)) with 0%nat.
  rewrite drop_0. unfold at_index in Hd. cbn in Hd.
  destruct li as [|d0 li']; [discriminate|]. injection Hd as ->.
  unfold sum_deltas. cbn [take foldr]. rewrite take_0. cbn [foldr]. f_equal. lia.
Qed.

Lemma nextline_step (p : Proto) (pc currentline : Z) :
  0 < MAXIWTHABS -> lineinfo_wf p = true -> lineinfo p <> None ->
  0 <= pc < sizecode p ->
  (if pc =? 0 then currentline = linedefined p
   else solG_getfuncline p (pc - 1) = Some currentline) ->
  nextline p currentline pc = solG_getfuncline p pc /\
  exists line, solG_getfuncline p pc = Some line.
Proof.
  intros HM Hwf Hsome Hpc Hcur.
  destruct (lineinfo p) as [li|] eqn:Hli; [|done].
  destruct (lineinfo_wf_parts p li Hli Hwf) as (Hlen & _).
  split; [|apply (getfuncline_defined p li pc); (done || lia)].
  unfold nextline. rewrite Hli. cbn [mbind option_bind].
  destruct (at_index_is_Some li pc) as [d Hd]; [lia|]. rewrite Hd.
  cbn [mbind option_bind].
  destruct (Z.eqb_spec d ABSLINEINFO) as [?|Hne]; [reflexivity|].
  destruct (Z.eqb_spec pc 0) as [->|Hpos].
  - subst currentline. symmetry. by apply (getfuncline_first p li d).
  - destruct (getfuncline_next p li (pc - 1) d) as (line & Hline & Hnext);
      try done; try lia.
    { by replace (pc - 1 + 1) with pc by lia. }
    replace (pc - 1 + 1) with pc in Hnext by lia.
    rewrite Hcur in Hline. injection Hline as <-. by rewrite Hnext.
Qed.

(** X4.  Decoding one instruction at a time agrees with decoding from
    scratch: on a well-formed prototype [nextline], given the line of
    the instruction before [pc] (the line where the function is defined
    for the first one), returns the line [solG_getfuncline] gives at
    [pc]. *)
Theorem nextline_getfuncline (p : Proto) (pc currentline : Z) :
  0 < MAXIWTHABS -> lineinfo_wf p = true -> lineinfo p <> None ->
  0 <= pc < sizecode p ->
  (if pc =? 0 then currentline = linedefined p
   else solG_getfuncline p (pc - 1) = Some currentline) ->
  nextline p currentline pc = solG_getfuncline p pc /\
  exists line, solG_getfuncline p pc = Some line.
Proof. exact (nextline_step p pc currentline). Qed.

Lemma solH_setint_active (t : list (TValue * TValue)) (key line : Z) :
  line_active (solH_setint t key VTrue) line <-> line = key \/ line_active t line.
Proof.
  unfold line_active. induction t as [|[k x] t IH]; cbn [solH_setint].
  - cbn. split; [intros [[= ->]|[]]; by left|intros [->|[]]; by left].
  - destruct k; try (cbn [In]; rewrite IH; split; [intros [?|[?|?]]|intros [?|[?|?]]]; tauto).
    destruct (Z.eqb_spec i key) as [->|Hne].
    + cbn [In]. split.
      * intros [[= ->]|?]; [by left|right; by right].
      * intros [->|[[= -> ->]|?]]; [by left|by left|by right].
    + cbn [In]. rewrite IH. tauto.
Qed.

Lemma collect_lines_active (p : Proto) (li : list Z) :
  0 < MAXIWTHABS -> lineinfo p = Some li -> lineinfo_wf p = true ->
  forall (n : nat) (i currentline : Z) (t : list (TValue * TValue)),
  Z.of_nat n = Z.of_nat (length li) - i -> 0 <= i ->
  (i < Z.of_nat (length li) ->
   if i =? 0 then currentline = linedefined p
   else solG_getfuncline p (i - 1) = Some currentline) ->
  exists t',
    collect_lines p n i currentline t = Some t' /\
    forall line,
      line_active t' line <->
      line_active t line \/
      exists j, i <= j < Z.of_nat (length li) /\ solG_getfuncline p j = Some line.
Proof.
  intros HM Hli Hwf.
  destruct (lineinfo_wf_parts p li Hli Hwf) as (Hlen & _).
  assert (Hsome : lineinfo p <> None) by (rewrite Hli; done).
  induction n as [|n IH]; intros i currentline t Hn Hi Hcur.
  - exists t. split; [reflexivity|]. intros line. split; [by left|].
    intros [?|(j & Hj & _)]; [done|lia].
  - cbn [collect_lines].
    destruct (nextline_step p i currentline HM Hwf Hsome ltac:(lia) (Hcur ltac:(lia)))
      as [Hnext [l Hl]].
    rewrite Hnext, Hl. cbn [mbind option_bind].
    destruct (IH (i + 1) l (solH_setint t l VTrue)) as (t' & Ht' & Hact); [lia|lia| |].
    { intros _. destruct (Z.eqb_spec (i + 1) 0); [lia|].
      by replace (i + 1 - 1) with i by lia. }
    exists t'. split; [exact Ht'|]. intros line. rewrite Hact, solH_setint_active.
    split.
    + intros [[->|?]|(j & Hj & Hjl)]; [right; exists i; split; [lia|done]|by left|].
      right. exists j. split; [lia|done].
    + intros [?|(j & Hj & Hjl)]; [left; by right|].
      destruct (Z.eq_dec j i) as [->|Hne].
      * left; left. rewrite Hl in Hjl. by injection Hjl.
      * right. exists j. split; [lia|done].
Qed.

(** X5.  The table [collectvalidlines] builds for a well-formed
    prototype has [true] at exactly the lines of its instructions, as
    [solG_getfuncline] gives them: all of them for a function that is
    not vararg, all but the first instruction for a vararg function. *)
Theorem collectvalidlines_lines (L : sol_State) (nup : Z) (p : Proto) (li : list Z) :
  0 < MAXIWTHABS -> lineinfo p = Some li -> lineinfo_wf p = true ->
  (is_vararg p <> 0 -> 0 < Z.of_nat (length li)) ->
  exists t,
    collectvalidlines L (Some (LClosure nup p)) = push L (VTable t) /\
    forall line,
      line_active t line <->
      exists j, (if is_vararg p =? 0 then 0 else 1) <= j < Z.of_nat (length li) /\
                solG_getfuncline p j = Some line.
Proof.
  intros HM Hli Hwf Hva.
  destruct (lineinfo_wf_parts p li Hli Hwf) as (Hlen & _).
  assert (Hsome : lineinfo p <> None) by (rewrite Hli; done).
  unfold collectvalidlines. cbn [SolClosure]. rewrite Hli.
  unfold sizelineinfo. rewrite Hli.
  destruct (Z.eqb_spec (is_vararg p) 0) as [Hz|Hnz]; cbn [mbind option_bind].
  - destruct (collect_lines_active p li HM Hli Hwf
                (Z.to_nat (Z.of_nat (length li) - 0)) 0 (linedefined p) [])
      as (t & -> & Hact); [lia|lia|done|].
    exists t. split; [reflexivity|]. intros line. rewrite Hact.
    split; [intros [[]|?]; done|by right].
  - destruct (nextline_step p 0 (linedefined p) HM Hwf Hsome ltac:(lia) eq_refl)
      as [Hnext [l Hl]].
    rewrite Hnext, Hl. cbn [mbind option_bind].
    destruct (collect_lines_active p li HM Hli Hwf
                (Z.to_nat (Z.of_nat (length li) - 1)) 1 l [])
      as (t & -> & Hact); [lia|lia|done|].
    exists t. split; [reflexivity|]. intros line. rewrite Hact.
    split; [intros [[]|?]; done|by right].
Qed.

End LineInfoMore.

(** ** Hooks and frames *)

Section HooksMore.
Context `{StateConsts}.

Lemma settraps_lookup (ci_ : nat) :
  forall (cis : list CallInfo) (k : nat) (c : CallInfo),
  cis !! k = Some c ->
  settraps cis ci_ !! k
  = Some (if (k <=? ci_)%nat && isSol c then set_trap c 1 else c).
Proof.
  induction ci_ as [|ci_ IH]; intros cis k c Hk; cbn [settraps].
  - destruct k as [|k].
    + rewrite list_lookup_alter_eq, Hk. cbn. by destruct (isSol c).
    + rewrite list_lookup_alter_ne by done. by rewrite Hk.
  - destruct (Nat.eq_dec k (S ci_)) as [->|Hne].
    + rewrite (IH _ (S ci_) (if isSol c then set_trap c 1 else c)).
      * destruct (Nat.leb_spec (S ci_) ci_); [lia|]. cbn [andb].
        rewrite Nat.leb_refl. reflexivity.
      * by rewrite list_lookup_alter_eq, Hk.
    + rewrite (IH _ k c) by (by rewrite list_lookup_alter_ne).
      destruct (Nat.leb_spec k ci_), (Nat.leb_spec k (S ci_)); (reflexivity || lia).
Qed.

Lemma settraps_length (ci_ : nat) :
  forall cis : list CallInfo, length (settraps cis ci_) = length cis.
Proof.
  induction ci_ as [|ci_ IH]; intros cis; cbn [settraps].
  - by rewrite length_alter.
  - by rewrite IH, length_alter.
Qed.

(** X6.  The getters read back what [sol_sethook] installed: the count
    is the one passed, the live count is reset to it, and a hook passed
    with a mask of 1 to 255 is returned with that mask.  The call
    touches neither the stack nor its top, nor the running frame, the
    last traced instruction, the status or the number of frames. *)
Theorem sethook_getters (L : sol_State) (func : option nat) (mask count : Z) :
  let L' := sol_sethook L func mask count in
  sol_gethookcount L' = count /\ hookcount L' = count /\
  (func <> None -> 0 < mask < 2 ^ 8 ->
   sol_gethook L' = func /\ sol_gethookmask L' = mask) /\
  stack L' = stack L /\ top L' = top L /\ ci L' = ci L /\
  oldpc L' = oldpc L /\ status L' = status L /\
  length (callinfo L') = length (callinfo L).
Proof.
  cbv zeta. unfold sol_gethook, sol_gethookmask.
  rewrite sol_sethook_hook, sol_sethook_hookmask.
  split; [|split; [|split]].
  - unfold sol_sethook, sol_gethookcount.
    destruct func; [destruct (mask =? 0) eqn:E; [|rewrite E]|]; reflexivity.
  - unfold sol_sethook.
    destruct func; [destruct (mask =? 0) eqn:E; [|rewrite E]|]; reflexivity.
  - intros Hf Hm. destruct func as [h|]; [|done].
    destruct (Z.eqb_spec mask 0); [lia|]. split; [reflexivity|].
    unfold cast_byte. apply Z.mod_small. lia.
  - unfold sol_sethook.
    destruct func; [destruct (mask =? 0) eqn:E; [|rewrite E]|];
      cbn [stack top ci oldpc status callinfo set_callinfo set_hook set_hookmask
           set_basehookcount resethookcount set_hookcount];
      rewrite ?settraps_length; repeat split; reflexivity.
Qed.

(** X7.  Turning the hooks off, with a null function or a zero mask,
    leaves every frame as it is.  Installing a hook with a mask that is
    not zero sets the trap of every script frame from the running one
    down to [base_ci], and changes nothing else of any frame. *)
Theorem sethook_traps (L : sol_State) (func : option nat) (mask count : Z) :
  let L' := sol_sethook L func mask count in
  (func = None \/ mask = 0 -> callinfo L' = callinfo L) /\
  (func <> None -> mask <> 0 ->
   forall (k : nat) (c : CallInfo), callinfo L !! k = Some c ->
   callinfo L' !! k
   = Some (if (k <=? ci L)%nat && isSol c then set_trap c 1 else c)).
Proof.
  cbv zeta. unfold sol_sethook. split.
  - intros [->| ->]; [reflexivity|]. destruct func; reflexivity.
  - intros Hf Hm k c Hk. destruct func as [h|]; [|done].
    destruct (Z.eqb_spec mask 0) as [?|_]; [done|].
    destruct (Z.eqb_spec mask 0) as [?|_]; [done|].
    cbn [callinfo set_callinfo set_hook set_hookmask set_basehookcount
         resethookcount set_hookcount ci].
    by apply settraps_lookup.
Qed.

Lemma getstack_walk_level (ci_ : nat) :
  forall level : Z, 0 <= level ->
  getstack_walk ci_ level =
    if level <? Z.of_nat ci_ then ((ci_ - Z.to_nat level)%nat, 0)
    else (O, level - Z.of_nat ci_).
Proof.
  induction ci_ as [|ci_ IH]; intros level Hlevel; cbn [getstack_walk].
  - destruct (Z.ltb_spec level (Z.of_nat 0)); [lia|]. f_equal. lia.
  - destruct (Z.gtb_spec level 0).
    + rewrite IH by lia.
      destruct (Z.ltb_spec (level - 1) (Z.of_nat ci_)),
               (Z.ltb_spec level (Z.of_nat (S ci_))); try lia; f_equal; lia.
    + destruct (Z.ltb_spec level (Z.of_nat (S ci_))); [|lia].
      f_equal; lia.
Qed.

(** X8.  [sol_getstack] finds a level exactly when it is at least 0 and
    less than the number of frames above [base_ci]; the frame it stores
    is then the one [level] calls below the running frame, and it is
    never [base_ci].  Otherwise it returns 0 and leaves the record as it
    was. *)
Theorem getstack_level (L : sol_State) (level : Z) (ar : sol_Debug) :
  sol_getstack L level ar =
    if (0 <=? level) && (level <? Z.of_nat (ci L))
    then (1, set_i_ci ar (ci L - Z.to_nat level))
    else (0, ar).
Proof.
  unfold sol_getstack.
  destruct (Z.ltb_spec level 0), (Z.leb_spec 0 level); try lia; [reflexivity|].
  rewrite getstack_walk_level by lia. cbn [andb].
  destruct (Z.ltb_spec level (Z.of_nat (ci L))).
  - cbn [andb Z.eqb]. destruct (Nat.eqb_spec (ci L - Z.to_nat level) 0); [lia|].
    reflexivity.
  - destruct (Z.eqb_spec (level - Z.of_nat (ci L)) 0); reflexivity.
Qed.

End HooksMore.

(** ** Frame walker *)

Section FrameWalkerMore.
Context `{StateConsts} `{LocalNames}.

(** [limit] of [solG_findlocal]: the top of the stack for the running
    frame, the function slot of the next frame otherwise. *)
Lemma findlocal_native (L : sol_State) (ci_ : nat) (c : CallInfo) (n limit : Z) :
  callinfo L !! ci_ = Some c -> isSol c = false ->
  (if decide (ci_ = ci L) then Some (top L)
   else next ← callinfo L !! S ci_; Some (func next)) = Some limit ->
  solG_findlocal L ci_ n =
    Some (if (0 <? n) && (func c + n <? limit)
          then Some ("(C temporary)"%string, func c + n) else None).
Proof.
  intros Hc Hsol Hlimit. unfold solG_findlocal. rewrite Hc. cbn [mbind option_bind].
  rewrite Hsol. cbn [andb mbind option_bind].
  destruct (decide (ci_ = ci L)) as [Heq|Hne].
  - injection Hlimit as <-. cbn [mbind option_bind].
    destruct (Z.geb_spec (top L - (func c + 1)) n), (Z.gtb_spec n 0),
             (Z.ltb_spec 0 n), (Z.ltb_spec (func c + n) (top L));
      cbn [andb]; try lia; try reflexivity.
    do 3 f_equal. lia.
  - destruct (callinfo L !! S ci_) as [next|]; [|discriminate].
    cbn in Hlimit. injection Hlimit as <-. cbn [mbind option_bind].
    destruct (Z.geb_spec (func next - (func c + 1)) n), (Z.gtb_spec n 0),
             (Z.ltb_spec 0 n), (Z.ltb_spec (func c + n) (func next));
      cbn [andb]; try lia; try reflexivity.
    do 3 f_equal. lia.
Qed.

(** X9.  In a native frame [solG_findlocal] names exactly the slots
    between the function and the limit of the frame, the top of the
    stack for the running frame and the function of the next frame
    otherwise: [n] finds "(C temporary)" at slot [func + n] when
    [0 < n] and that slot is below the limit, and nothing otherwise. *)
Theorem findlocal_native_slots (L : sol_State) (ci_ : nat) (c : CallInfo) (n limit : Z) :
  callinfo L !! ci_ = Some c -> isSol c = false ->
  (if decide (ci_ = ci L) then Some (top L)
   else next ← callinfo L !! S ci_; Some (func next)) = Some limit ->
  solG_findlocal L ci_ n =
    Some (if (0 <? n) && (func c + n <? limit)
          then Some ("(C temporary)"%string, func c + n) else None).
Proof. exact (findlocal_native L ci_ c n limit). Qed.

(** X10.  In a script frame a negative [n] is looked up among the extra
    arguments only: it is found exactly when the function is vararg and
    [-n <= nextraargs], and the slot is then one of the [nextraargs]
    slots just below the function. *)
Theorem findlocal_negative (L : sol_State) (ci_ : nat) (c : CallInfo) (p : Proto) (n : Z) :
  callinfo L !! ci_ = Some c -> isSol c = true ->
  ci_func_p L c = Some p -> n < 0 ->
  (exists r, solG_findlocal L ci_ n = Some r) /\
  forall name pos,
    solG_findlocal L ci_ n = Some (Some (name, pos)) <->
    is_vararg p <> 0 /\ - n <= nextraargs c /\
    name = "(vararg)"%string /\ pos = func c - nextraargs c - (n + 1) /\
    func c - nextraargs c <= pos < func c.
Proof.
  intros Hc Hsol Hp Hn.
  assert (Hfind : solG_findlocal L ci_ n =
            if negb (is_vararg p =? 0) && (n >=? - nextraargs c)
            then Some (Some ("(vararg)"%string, func c - nextraargs c - (n + 1)))
            else Some None).
  { unfold solG_findlocal. rewrite Hc. cbn [mbind option_bind].
    rewrite Hsol. destruct (Z.ltb_spec n 0) as [_|?]; [|lia].
    cbn [andb]. unfold findvararg. rewrite Hp. cbn [mbind option_bind].
    destruct (negb (is_vararg p =? 0)); [|reflexivity].
    cbn [andb]. by destruct (n >=? - nextraargs c). }
  rewrite Hfind. split.
  { destruct (negb (is_vararg p =? 0) && (n >=? - nextraargs c)); eauto. }
  intros name pos.
  destruct (Z.eqb_spec (is_vararg p) 0) as [Hz|Hnz]; cbn [negb andb].
  - split; [discriminate|]. intros (Hva & _). done.
  - destruct (Z.geb_spec n (- nextraargs c)) as [Hge|Hlt].
    + split.
      * intros [= <- <-]. repeat split; (done || lia).
      * intros (_ & _ & -> & -> & _). reflexivity.
    + split; [discriminate|]. intros (_ & Hle & _). lia.
Qed.

(** Looking a local up again in a state that differs in the stack, away
    from the function of the frame, and in its top, still above the
    slot. *)
Lemma findlocal_stable (L L' : sol_State) (ci_ : nat) (c : CallInfo) (n : Z)
    (name : string) (pos : Z) :
  callinfo L' = callinfo L -> ci L' = ci L -> callinfo L !! ci_ = Some c ->
  at_index (stack L') (func c) = at_index (stack L) (func c) ->
  solG_findlocal L ci_ n = Some (Some (name, pos)) -> pos < top L' ->
  solG_findlocal L' ci_ n = Some (Some (name, pos)).
Proof.
  intros Hcis Hci Hc Hfunc Hfound Htop.
  assert (Hp : ci_func_p L' c = ci_func_p L c) by (unfold ci_func_p; by rewrite Hfunc).
  assert (Hpc : currentpc L' c = currentpc L c) by (unfold currentpc; by rewrite Hp).
  unfold solG_findlocal in *. rewrite Hcis, Hci, Hc in *.
  cbn [mbind option_bind] in *.
  destruct (isSol c && (n <? 0)).
  { unfold findvararg in *. by rewrite Hp. }
  rewrite Hp, Hpc.
  destruct (if isSol c
            then p ← ci_func_p L c; pc ← currentpc L c; Some (solF_getlocalname p n pc)
            else Some None) as [[stdname|]|]; cbn [mbind option_bind] in *;
    [exact Hfound| |discriminate].
  destruct (decide (ci_ = ci L)) as [Heq|Hne]; [|exact Hfound].
  cbn [mbind option_bind] in *.
  destruct ((top L - (func c + 1) >=? n) && (n >? 0)) eqn:Hin; [|discriminate].
  injection Hfound as <- <-.
  apply andb_prop in Hin as [_ Hpos]. rewrite Hpos, andb_true_r.
  destruct (Z.geb_spec (top L' - (func c + 1)) n); [reflexivity|lia].
Qed.

(** X11.  What [sol_setlocal] writes, [sol_getlocal] reads back: after
    a value is popped into a local that lies below it and is not the
    function slot, reading the same local pushes that value again, and
    the stack is the one before the write but for the local, with its
    top where it was. *)
Theorem setlocal_getlocal (L L1 : sol_State) (ci_ : nat) (c : CallInfo) (n : Z)
    (name : string) (pos : Z) :
  callinfo L !! ci_ = Some c ->
  solG_findlocal L ci_ n = Some (Some (name, pos)) ->
  pos <> func c -> pos < top L - 1 ->
  sol_setlocal L ci_ n = Some (Some name, L1) ->
  exists v,
    at_index (stack L) (top L - 1) = Some v /\
    at_index (stack L1) pos = Some v /\
    sol_getlocal L1 ci_ n
    = Some (Some name, set_stack L (<[Z.to_nat pos := v]> (stack L))).
Proof.
  intros Hc Hfound Hnf Hbelow Hset. unfold sol_setlocal in Hset.
  rewrite Hfound in Hset. cbn [mbind option_bind] in Hset.
  destruct (at_index (stack L) (top L - 1)) as [v|] eqn:Hv; [|discriminate].
  cbn [mbind option_bind] in Hset. unfold store_at in Hset.
  destruct (Z.leb_spec 0 pos) as [Hp0|]; [|discriminate].
  destruct (Z.ltb_spec pos (Z.of_nat (length (stack L)))) as [Hplen|]; [|discriminate].
  cbn in Hset. injection Hset as <-.
  pose proof (at_index_Some _ _ _ Hv) as Hvr.
  assert (Hread : at_index (<[Z.to_nat pos := v]> (stack L)) pos = Some v).
  { unfold at_index. destruct (Z.ltb_spec pos 0); [lia|].
    apply list_lookup_insert_eq. lia. }
  exists v. split; [reflexivity|]. split; [exact Hread|].
  unfold sol_getlocal.
  rewrite (findlocal_stable L _ ci_ c n name pos);
    [|reflexivity|reflexivity|exact Hc| |exact Hfound|cbn; lia].
  2:{ cbn. unfold at_index. destruct (Z.ltb_spec (func c) 0); [reflexivity|].
      apply list_lookup_insert_ne. lia. }
  cbn [mbind option_bind stack set_top set_stack]. rewrite Hread.
  cbn [mbind option_bind]. unfold push, store_at.
  cbn [stack top set_top set_stack]. rewrite length_insert.
  destruct (Z.leb_spec 0 (top L - 1)); [|lia].
  destruct (Z.ltb_spec (top L - 1) (Z.of_nat (length (stack L)))); [|lia].
  cbn. do 2 f_equal. unfold set_top, set_stack. cbn.
  replace (top L - 1 + 1) with (top L) by lia.
  rewrite list_insert_id; [by destruct L|].
  rewrite list_lookup_insert_ne by lia.
  unfold at_index in Hv. by destruct (Z.ltb_spec (top L - 1) 0); [lia|].
Qed.

(** X12.  Reading a local and writing it back restores the stack: after
    [sol_getlocal] has pushed the value of a local below the top, in a
    frame whose function is below the top, [sol_setlocal] for the same
    local pops that value into it, and the state is the one before the
    read but for the slot that was the top, which keeps the value. *)
Theorem getlocal_setlocal (L L1 : sol_State) (ci_ : nat) (c : CallInfo) (n : Z)
    (name : string) (pos : Z) :
  callinfo L !! ci_ = Some c ->
  solG_findlocal L ci_ n = Some (Some (name, pos)) ->
  func c < top L -> 0 <= pos < top L ->
  sol_getlocal L ci_ n = Some (Some name, L1) ->
  exists v,
    at_index (stack L) pos = Some v /\
    sol_setlocal L1 ci_ n
    = Some (Some name, set_stack L (<[Z.to_nat (top L) := v]> (stack L))).
Proof.
  intros Hc Hfound Hfunc Hbelow Hget. unfold sol_getlocal in Hget.
  rewrite Hfound in Hget. cbn [mbind option_bind] in Hget.
  destruct (at_index (stack L) pos) as [v|] eqn:Hv; [|discriminate].
  cbn [mbind option_bind] in Hget. unfold push, store_at in Hget.
  destruct (Z.leb_spec 0 (top L)) as [Ht0|]; [|discriminate].
  destruct (Z.ltb_spec (top L) (Z.of_nat (length (stack L)))) as [Htlen|]; [|discriminate].
  cbn in Hget. injection Hget as <-.
  exists v. split; [reflexivity|].
  unfold sol_setlocal.
  rewrite (findlocal_stable L _ ci_ c n name pos);
    [|reflexivity|reflexivity|exact Hc| |exact Hfound|cbn; lia].
  2:{ cbn. unfold at_index. destruct (Z.ltb_spec (func c) 0); [reflexivity|].
      apply list_lookup_insert_ne. lia. }
  cbn [mbind option_bind stack top set_top set_stack].
  replace (top L + 1 - 1) with (top L) by lia.
  assert (Hread : at_index (<[Z.to_nat (top L) := v]> (stack L)) (top L) = Some v).
  { unfold at_index. destruct (Z.ltb_spec (top L) 0); [lia|].
    apply list_lookup_insert_eq. lia. }
  rewrite Hread. cbn [mbind option_bind]. unfold store_at. rewrite length_insert.
  destruct (Z.leb_spec 0 pos); [|lia].
  destruct (Z.ltb_spec pos (Z.of_nat (length (stack L)))); [|lia].
  cbn. do 2 f_equal. unfold set_top, set_stack. cbn.
  rewrite list_insert_id; [by destruct L|].
  rewrite list_lookup_insert_ne by lia.
  unfold at_index in Hv. by destruct (Z.ltb_spec pos 0); [lia|].
Qed.

End FrameWalkerMore.

(** ** Symbolic execution *)

Section SymbolicExecutionMore.
Context `{Opcodes}.

Lemma last_write_last (rest : list Instruction) (reg : Z) :
  forall pc w, last_write rest reg pc = Some w ->
  (exists i, rest !! Z.to_nat (w - pc) = Some i /\ writes_reg reg i = true) /\
  (forall k i, w < k -> rest !! Z.to_nat (k - pc) = Some i -> writes_reg reg i = false).
Proof.
  induction rest as [|i0 rest IH]; intros pc w Hw; cbn [last_write] in Hw; [discriminate|].
  destruct (last_write rest reg (pc + 1)) as [w'|] eqn:Hrest.
  - injection Hw as <-. pose proof (last_write_range _ _ _ _ Hrest) as Hr.
    destruct (IH _ _ Hrest) as [(i & Hi & Hwr) Hlast]. split.
    + exists i. split; [|exact Hwr].
      replace (Z.to_nat (w' - pc)) with (S (Z.to_nat (w' - (pc + 1)))) by lia.
      exact Hi.
    + intros k i' Hk Hi'. apply (Hlast k i' Hk).
      replace (Z.to_nat (k - pc)) with (S (Z.to_nat (k - (pc + 1)))) in Hi' by lia.
      exact Hi'.
  - destruct (writes_reg reg i0) eqn:Hwr; [|discriminate]. injection Hw as <-. split.
    + exists i0. replace (Z.to_nat (pc - pc)) with 0%nat by lia. done.
    + intros k i' Hk Hi'.
      replace (Z.to_nat (k - pc)) with (S (Z.to_nat (k - (pc + 1)))) in Hi' by lia.
      cbn in Hi'. clear IH Hwr.
      revert Hrest Hi'. generalize (Z.to_nat (k - (pc + 1))) as m. generalize (pc + 1) as q.
      induction rest as [|j rest IHr]; intros q m Hnone Hm; [by destruct m|].
      cbn [last_write] in Hnone.
      destruct (last_write rest reg (q + 1)) eqn:Hr'; [discriminate|].
      destruct (writes_reg reg j) eqn:Hj; [discriminate|].
      destruct m as [|m]; cbn in Hm.
      * by injection Hm as <-.
      * exact (IHr (q + 1) m Hr' Hm).
Qed.

Lemma scan_limit_le (i : Instruction) (lastpc : Z) :
  lastpc - 1 <= scan_limit i lastpc <= lastpc.
Proof. unfold scan_limit. destruct (testMMMode (GET_OPCODE i)); lia. Qed.

Lemma findsetreg_range (p : Proto) (lastpc reg r : Z) :
  findsetreg p lastpc reg = Some r ->
  r = -1 \/
  (0 <= r < lastpc /\
   (exists i, at_index (code p) r = Some i /\ writes_reg reg i = true) /\
   (forall k i lastinsn,
      at_index (code p) lastpc = Some lastinsn ->
      r < k < scan_limit lastinsn lastpc ->
      at_index (code p) k = Some i -> writes_reg reg i = false)).
Proof.
  unfold findsetreg. intros Hfind.
  destruct (at_index (code p) lastpc) as [i|] eqn:Hi; [|discriminate].
  cbn [mbind option_bind] in Hfind. injection Hfind as <-.
  rewrite scan_setreg_last_write.
  pose proof (scan_limit_le i lastpc) as Hlim.
  destruct (last_write (take (Z.to_nat (scan_limit i lastpc)) (code p)) reg 0)
    as [w|] eqn:Hw; [|by left].
  pose proof (last_write_range _ _ _ _ Hw) as Hr. rewrite length_take in Hr.
  destruct (last_write_last _ _ _ _ Hw) as [(iw & Hiw & Hwr) Hlast].
  unfold filterpc.
  destruct (w <? jmptarget_after _ _ _ _ _); [by left|]. right.
  split; [lia|]. split.
  - exists iw. split; [|exact Hwr]. unfold at_index.
    destruct (Z.ltb_spec w 0); [lia|].
    rewrite lookup_take_lt in Hiw by lia.
    by replace (Z.to_nat (w - 0)) with (Z.to_nat w) in Hiw by lia.
  - intros k ik lastinsn [= <-] Hk Hik. apply (Hlast k ik); [lia|].
    rewrite lookup_take_lt by lia. unfold at_index in Hik.
    destruct (Z.ltb_spec k 0); [lia|].
    by replace (Z.to_nat (k - 0)) with (Z.to_nat k) by lia.
Qed.

(** X13.  [findsetreg] is defined exactly when [lastpc] is an
    instruction of the prototype.  Its result is -1 or the position,
    before [lastpc], of an instruction that changes [reg] and after
    which no instruction before the limit of the scan changes it: it
    never points at or past [lastpc], nor at an instruction that leaves
    [reg] alone. *)
Theorem findsetreg_result (p : Proto) (lastpc reg : Z) :
  (findsetreg p lastpc reg = None <-> at_index (code p) lastpc = None) /\
  forall r, findsetreg p lastpc reg = Some r ->
  r = -1 \/
  (0 <= r < lastpc /\
   (exists i, at_index (code p) r = Some i /\ writes_reg reg i = true) /\
   (forall k i lastinsn,
      at_index (code p) lastpc = Some lastinsn ->
      r < k < scan_limit lastinsn lastpc ->
      at_index (code p) k = Some i -> writes_reg reg i = false)).
Proof.
  split; [|exact (findsetreg_range p lastpc reg)].
  unfold findsetreg. by destruct (at_index (code p) lastpc).
Qed.

(** X14.  [findsetreg] looks at no instruction after [lastpc]: two
    prototypes with the same instructions up to [lastpc] give the same
    result, whatever follows. *)
Theorem findsetreg_prefix (p p' : Proto) (lastpc reg : Z) :
  take (Z.to_nat (lastpc + 1)) (code p) = take (Z.to_nat (lastpc + 1)) (code p') ->
  findsetreg p lastpc reg = findsetreg p' lastpc reg.
Proof.
  intros Hpre. unfold findsetreg.
  assert (Hat : at_index (code p) lastpc = at_index (code p') lastpc).
  { unfold at_index. destruct (Z.ltb_spec lastpc 0); [reflexivity|].
    rewrite <- (lookup_take_lt (code p) (Z.to_nat (lastpc + 1))) by lia.
    rewrite <- (lookup_take_lt (code p') (Z.to_nat (lastpc + 1))) by lia.
    by rewrite Hpre. }
  rewrite <- Hat. destruct (at_index (code p) lastpc) as [i|] eqn:Hi; [|reflexivity].
  cbn [mbind option_bind]. pose proof (scan_limit_le i lastpc) as Hlim.
  pose proof (at_index_Some _ _ _ Hi) as Hr.
  assert (Htake : take (Z.to_nat (scan_limit i lastpc)) (code p)
                  = take (Z.to_nat (scan_limit i lastpc)) (code p')).
  { replace (Z.to_nat (scan_limit i lastpc))
      with (Z.to_nat (scan_limit i lastpc) `min` Z.to_nat (lastpc + 1))%nat by lia.
    rewrite <- !take_take. by rewrite Hpre. }
  by rewrite Htake.
Qed.

End SymbolicExecutionMore.

(** ** Names from the code *)

Section NamingFacts.
Context `{Opcodes} `{NameOpcodes} `{NameTables} `{StateConsts} `{LocalNames}.

Lemma basicgetobjname_depth (p : Proto) (d1 : nat) :
  forall (d2 : nat) (pc reg : Z),
  (Z.to_nat pc < d1)%nat -> (Z.to_nat pc < d2)%nat ->
  Naming.basicgetobjname_upto d1 p pc reg = Naming.basicgetobjname_upto d2 p pc reg.
Proof.
  induction d1 as [|d1 IH]; intros d2 pc reg Hd1 Hd2; [lia|].
  destruct d2 as [|d2]; [lia|]. cbn [Naming.basicgetobjname_upto].
  destruct (solF_getlocalname p (reg + 1) pc); [reflexivity|].
  destruct (findsetreg p pc reg) as [pc'|] eqn:Hfind; [|reflexivity].
  cbn [mbind option_bind].
  destruct (Z.eqb_spec pc' (-1)) as [?|Hne]; [reflexivity|].
  destruct (findsetreg_range p pc reg pc' Hfind) as [?|(Hr & _)]; [done|].
  destruct (at_index (code p) pc') as [i|]; [|reflexivity]. cbn [mbind option_bind].
  destruct (GET_OPCODE i =? OP_MOVE); [|reflexivity].
  destruct (GETARG_B i <? GETARG_A i); [|reflexivity].
  apply IH; lia.
Qed.

(** X15.  The recursion of [basicgetobjname] through moves ends: each
    call is at an instruction before the one it comes from, so that any
    bound on the depth above [pc] gives the result of the bound
    [pc + 1]; the depth never decides the result. *)
Theorem basicgetobjname_terminates (p : Proto) (depth : nat) (pc reg : Z) :
  (Z.to_nat pc < depth)%nat ->
  Naming.basicgetobjname_upto depth p pc reg = Naming.basicgetobjname p pc reg.
Proof.
  intros Hd. unfold Naming.basicgetobjname. apply basicgetobjname_depth; lia.
Qed.

Lemma kname_constant (p : Proto) (index : Z) (kind name : string) :
  Naming.kname p index = Some (Some kind, name) ->
  kind = "constant"%string /\ In (VString name) (proto_k p).
Proof.
  unfold Naming.kname. intros Hk.
  destruct (at_index (proto_k p) index) as [v|] eqn:Hv; [|discriminate].
  cbn in Hk. destruct v; try discriminate. injection Hk as <- <-.
  split; [reflexivity|]. unfold at_index in Hv.
  destruct (index <? 0); [discriminate|].
  apply list_elem_of_In, list_elem_of_lookup. eauto.
Qed.

Lemma basicgetobjname_kinds (p : Proto) (depth : nat) :
  forall (pc reg pc' : Z) (kind : string) (name : option string),
  Naming.basicgetobjname_upto depth p pc reg = Some (pc', Some kind, name) ->
  exists nm, name = Some nm /\
    (kind = "local"%string \/ kind = "upvalue"%string \/
     (kind = "constant"%string /\ In (VString nm) (proto_k p))).
Proof.
  induction depth as [|depth IH]; intros pc reg pc' kind name Hb; [discriminate|].
  cbn [Naming.basicgetobjname_upto] in Hb.
  destruct (solF_getlocalname p (reg + 1) pc) as [nm|].
  { injection Hb as <- <- <-. exists nm. split; [reflexivity|by left]. }
  destruct (findsetreg p pc reg) as [q|]; [|discriminate].
  cbn [mbind option_bind] in Hb.
  destruct (q =? -1); [discriminate|].
  destruct (at_index (code p) q) as [i|]; [|discriminate]. cbn [mbind option_bind] in Hb.
  destruct (GET_OPCODE i =? OP_MOVE).
  { destruct (GETARG_B i <? GETARG_A i); [exact (IH _ _ _ _ _ Hb)|discriminate]. }
  destruct (GET_OPCODE i =? OP_GETUPVAL).
  { destruct (Naming.upvalname p (GETARG_B i)) as [nm|]; [|discriminate].
    injection Hb as <- <- <-. exists nm. split; [reflexivity|right; by left]. }
  destruct (GET_OPCODE i =? OP_LOADK).
  { destruct (Naming.kname p (GETARG_Bx i)) as [[[k|] nm]|] eqn:Hk; try discriminate.
    injection Hb as <- <- <-. exists nm. split; [reflexivity|].
    right; right. exact (kname_constant _ _ _ _ Hk). }
  destruct (GET_OPCODE i =? OP_LOADKX); [|discriminate].
  destruct (at_index (code p) (q + 1)) as [i'|]; [|discriminate].
  cbn [mbind option_bind] in Hb.
  destruct (Naming.kname p (GETARG_Ax i')) as [[[k|] nm]|] eqn:Hk; try discriminate.
  injection Hb as <- <- <-. exists nm. split; [reflexivity|].
  right; right. exact (kname_constant _ _ _ _ Hk).
Qed.

(** X16.  [rname] names a register by a constant or not at all: the
    name it stores is a string of the constants of the prototype or
    "?", never the name of a local variable or of an upvalue. *)
Theorem rname_constant (p : Proto) (pc c : Z) (name : string) :
  Naming.rname p pc c = Some name ->
  name = "?"%string \/ In (VString name) (proto_k p).
Proof.
  unfold Naming.rname, Naming.basicgetobjname. intros Hr.
  destruct (Naming.basicgetobjname_upto (S (Z.to_nat pc)) p pc c)
    as [[[pc' what] nm]|] eqn:Hb; [|discriminate].
  cbn in Hr. destruct nm as [nm|]; [|injection Hr as <-; by left].
  destruct what as [kind|]; [|cbn in Hr; injection Hr as <-; by left].
  destruct (basicgetobjname_kinds _ _ _ _ _ _ _ Hb) as (nm' & [= <-] & Hkind).
  destruct Hkind as [->|[->|[-> Hin]]]; cbn in Hr; injection Hr as <-;
    [by left|by left|by right].
Qed.

Lemma isEnv_kinds (p : Proto) (pc : Z) (i : Instruction) (isup : bool) (kind : string) :
  Naming.isEnv p pc i isup = Some kind ->
  kind = "global"%string \/ kind = "field"%string.
Proof.
  unfold Naming.isEnv. intros He.
  match type of He with
  | (?m ≫= _) = _ => destruct m as [[nm|]|]; cbn in He; [|by injection He as <-; right|discriminate]
  end.
  destruct (String.eqb nm SOL_ENV); injection He as <-; [by left|by right].
Qed.

Lemma getobjname_kinds (p : Proto) (lastpc reg : Z) (kind : string)
    (name : option string) :
  Naming.getobjname p lastpc reg = Some (Some kind, name) ->
  In kind name_kinds /\ name <> None.
Proof.
  unfold Naming.getobjname, Naming.basicgetobjname. intros Hg.
  destruct (Naming.basicgetobjname_upto (S (Z.to_nat lastpc)) p lastpc reg)
    as [[[pc' what] nm]|] eqn:Hb; [|discriminate].
  cbn [mbind option_bind] in Hg. destruct what as [k|].
  { injection Hg as <- <-.
    destruct (basicgetobjname_kinds _ _ _ _ _ _ _ Hb) as (nm' & -> & Hkind).
    split; [|done]. unfold name_kinds.
    destruct Hkind as [->|[->|[-> _]]]; cbn; tauto. }
  destruct (pc' =? -1); [discriminate|].
  destruct (at_index (code p) pc') as [i|]; [|discriminate]. cbn [mbind option_bind] in Hg.
  clear Hb.
  repeat match type of Hg with
         | (if ?b then _ else _) = _ => destruct b
         end;
    repeat match type of Hg with
           | context [Naming.kname ?a ?b] =>
               destruct (Naming.kname a b) as [[? ?]|];
               cbn [mbind option_bind] in Hg; [|discriminate Hg]
           | context [Naming.rname ?a ?b ?c] =>
               destruct (Naming.rname a b c) as [?|];
               cbn [mbind option_bind] in Hg; [|discriminate Hg]
           | context [Naming.rkname ?a ?b ?c] =>
               destruct (Naming.rkname a b c) as [?|];
               cbn [mbind option_bind] in Hg; [|discriminate Hg]
           | context [Naming.isEnv ?a ?b ?c ?d] =>
               let He := fresh "He" in
               destruct (Naming.isEnv a b c d) as [?|] eqn:He;
               cbn [mbind option_bind] in Hg; [|discriminate Hg];
               apply isEnv_kinds in He
           end;
    try discriminate Hg; injection Hg as <- <-;
    (split; [unfold name_kinds; cbn; intuition (subst; auto)|done]).
Qed.

(** X17.  The vocabulary of names is closed: when [funcnamefromcall]
    returns a kind, it is one of "hook", "metamethod", "for iterator",
    "local", "upvalue", "constant", "global", "field" and "method", and
    a name comes with it. *)
Theorem funcnamefromcall_kinds (L : sol_State) (ci_ : nat) (kind : string)
    (name : option string) :
  Naming.funcnamefromcall L ci_ = Some (Some kind, name) ->
  In kind ("hook" :: "metamethod" :: "for iterator" :: name_kinds)%string /\
  name <> None.
Proof.
  unfold Naming.funcnamefromcall. intros Hf.
  destruct (callinfo L !! ci_) as [c|]; [|discriminate]. cbn [mbind option_bind] in Hf.
  destruct (negb (Z.land (callstatus c) CIST_HOOKED =? 0)).
  { injection Hf as <- <-. split; [by left|done]. }
  destruct (negb (Z.land (callstatus c) CIST_FIN =? 0)).
  { injection Hf as <- <-. split; [right; by left|done]. }
  destruct (isSol c); [|discriminate].
  destruct (ci_func_p L c) as [p|]; [|discriminate]. cbn [mbind option_bind] in Hf.
  destruct (currentpc L c) as [pc|]; [|discriminate]. cbn [mbind option_bind] in Hf.
  unfold Naming.funcnamefromcode in Hf.
  destruct (at_index (code p) pc) as [i|]; [|discriminate]. cbn [mbind option_bind] in Hf.
  destruct ((GET_OPCODE i =? OP_CALL) || (GET_OPCODE i =? OP_TAILCALL)).
  { destruct (getobjname_kinds _ _ _ _ _ Hf) as [Hin Hname].
    split; [|exact Hname]. do 3 right. exact Hin. }
  destruct (GET_OPCODE i =? OP_TFORCALL).
  { injection Hf as <- <-. split; [right; right; by left|done]. }
  destruct (Naming.metamethod_tag i) as [tm|]; [|discriminate].
  destruct (tmname L tm) as [s|]; [|discriminate]. cbn [mbind option_bind] in Hf.
  destruct (skip2 s) as [nm|]; [|discriminate]. cbn [mbind option_bind] in Hf.
  injection Hf as <- <-. split; [right; by left|done].
Qed.

End NamingFacts.

(** ** Info assembler *)

Section InfoAssemblerMore.
Context `{LineConsts} `{StateConsts} `{LocalNames} `{InfoServices}.

(** A push writes the slot at the top, moves the top up by one, and
    leaves every other slot and the frames alone. *)
Lemma push_effect (L L' : sol_State) (v : TValue) :
  push L v = Some L' ->
  top L' = top L + 1 /\ callinfo L' = callinfo L /\
  at_index (stack L') (top L) = Some v /\
  (forall i, i <> top L -> at_index (stack L') i = at_index (stack L) i).
Proof.
  unfold push, store_at. intros Hp.
  destruct (Z.leb_spec 0 (top L)); [|discriminate].
  destruct (Z.ltb_spec (top L) (Z.of_nat (length (stack L)))); [|discriminate].
  cbn in Hp. injection Hp as <-. cbn. repeat split.
  - unfold at_index. destruct (Z.ltb_spec (top L) 0); [lia|].
    apply list_lookup_insert_eq. lia.
  - intros i Hi. unfold at_index. destruct (Z.ltb_spec i 0); [reflexivity|].
    apply list_lookup_insert_ne. lia.
Qed.

(** [collectvalidlines] pushes one value, a table or nil. *)
Lemma collectvalidlines_push (L L' : sol_State) (f : option Closure) :
  collectvalidlines L f = Some L' ->
  exists v, push L v = Some L' /\ (v = VNil \/ exists t, v = VTable t).
Proof.
  unfold collectvalidlines. intros Hc.
  destruct (SolClosure f) as [p|]; [|eauto].
  match type of Hc with
  | (?m ≫= _) = _ => destruct m as [t|]; [|discriminate]
  end.
  cbn [mbind option_bind] in Hc. eauto.
Qed.

(** [auxgetinfo] works on the record alone: the state is an argument it
    reads. *)
Lemma getinfo_steps (L : sol_State) (what : string) (ar : sol_Debug)
    (status : Z) (L' : sol_State) (ar' : sol_Debug) :
  sol_getinfo L what ar = Some (status, L', ar') ->
  exists L0 L1 o,
    L0 = match function_mode what with
         | Some _ => set_top L (top L - 1)
         | None => L
         end /\
    ttisfunction o = true /\
    (if strchr (getinfo_options what) "f" then push L0 o else Some L0) = Some L1 /\
    (if strchr (getinfo_options what) "L"
     then exists f, collectvalidlines L1 f = Some L'
     else L' = L1).
Proof.
  unfold sol_getinfo, getinfo_options. intros Hget.
  destruct (function_mode what) as [what'|].
  - cbn [mbind option_bind] in Hget.
    destruct (at_index (stack (set_top L (top L - 1))) (top L - 1)) as [o|];
      [|discriminate].
    cbn [mbind option_bind] in Hget.
    destruct (ttisfunction o) eqn:Hfun; [|discriminate].
    match type of Hget with
    | (?m ≫= _) = _ => destruct m as [[s0 ar0]|]; [|discriminate]
    end.
    cbn [mbind option_bind] in Hget.
    destruct (if strchr what' "f" then push (set_top L (top L - 1)) o
              else Some (set_top L (top L - 1))) as [L1|] eqn:Hf; [|discriminate].
    cbn [mbind option_bind] in Hget.
    exists (set_top L (top L - 1)), L1, o.
    split; [reflexivity|]. split; [exact Hfun|]. split; [exact Hf|].
    destruct (strchr what' "L").
    + match type of Hget with
      | (collectvalidlines _ ?cl ≫= _) = _ =>
          destruct (collectvalidlines L1 cl) as [L2|] eqn:Hl; [|discriminate];
          exists cl
      end.
      cbn in Hget. by injection Hget as _ <- _.
    + cbn in Hget. by injection Hget as _ <- _.
  - destruct (callinfo L !! i_ci ar) as [c|]; [|discriminate].
    cbn [mbind option_bind] in Hget.
    destruct (at_index (stack L) (func c)) as [o|]; [|discriminate].
    cbn [mbind option_bind] in Hget.
    destruct (ttisfunction o) eqn:Hfun; [|discriminate].
    match type of Hget with
    | (?m ≫= _) = _ => destruct m as [[s0 ar0]|]; [|discriminate]
    end.
    cbn [mbind option_bind] in Hget.
    destruct (if strchr what "f" then push L o else Some L) as [L1|] eqn:Hf;
      [|discriminate].
    cbn [mbind option_bind] in Hget.
    exists L, L1, o.
    split; [reflexivity|]. split; [exact Hfun|]. split; [exact Hf|].
    destruct (strchr what "L").
    + match type of Hget with
      | (collectvalidlines _ ?cl ≫= _) = _ =>
          destruct (collectvalidlines L1 cl) as [L2|] eqn:Hl; [|discriminate];
          exists cl
      end.
      cbn in Hget. by injection Hget as _ <- _.
    + cbn in Hget. by injection Hget as _ <- _.
Qed.

(** X18.  The stack balance of [sol_getinfo]: the top goes down by one
    when the function is taken from the stack (['>']), up by one for the
    option ['f'] and up by one for the option ['L'], and by nothing
    else; the slots below the place the top starts from, after the
    function is popped, keep their values, and the frames are not
    touched. *)
Theorem getinfo_stack_balance (L : sol_State) (what : string) (ar : sol_Debug)
    (status : Z) (L' : sol_State) (ar' : sol_Debug) :
  sol_getinfo L what ar = Some (status, L', ar') ->
  let popped := match function_mode what with Some _ => 1 | None => 0 end in
  top L' = top L - popped
           + (if strchr (getinfo_options what) "f" then 1 else 0)
           + (if strchr (getinfo_options what) "L" then 1 else 0) /\
  callinfo L' = callinfo L /\
  (forall i, i < top L - popped -> at_index (stack L') i = at_index (stack L) i).
Proof.
  intros Hget popped.
  destruct (getinfo_steps _ _ _ _ _ _ Hget) as (L0 & L1 & o & HL0 & _ & Hf & Hl).
  assert (Hpop : top L0 = top L - popped /\ callinfo L0 = callinfo L /\
               stack L0 = stack L).
  { subst L0 popped. destruct (function_mode what); cbn; repeat split; lia. }
  destruct Hpop as (Ht0 & Hc0 & Hs0).
  assert (Hpush : top L1 = top L0 + (if strchr (getinfo_options what) "f" then 1 else 0)
               /\ callinfo L1 = callinfo L0 /\
               (forall i, i < top L0 -> at_index (stack L1) i = at_index (stack L0) i)).
  { destruct (strchr (getinfo_options what) "f").
    - apply push_effect in Hf as (Ht & Hc & _ & Hs).
      repeat split; [lia|done|]. intros i Hi. apply Hs. lia.
    - injection Hf as <-. repeat split. lia. }
  destruct Hpush as (Ht1 & Hc1 & Hs1).
  assert (Hge : 0 <= (if strchr (getinfo_options what) "f" then 1 else 0))
    by (destruct (strchr (getinfo_options what) "f"); lia).
  destruct (strchr (getinfo_options what) "L").
  - destruct Hl as [f Hl]. apply collectvalidlines_push in Hl as (v & Hp & _).
    apply push_effect in Hp as (Ht & Hc & _ & Hs).
    repeat split; [lia|congruence|].
    intros i Hi. rewrite Hs by lia. rewrite Hs1 by lia. by rewrite Hs0.
  - subst L'. repeat split; [lia|congruence|].
    intros i Hi. rewrite Hs1 by lia. by rewrite Hs0.
Qed.

(** One turn of the loop writes the fields of its own option only. *)
Lemma auxgetinfo_option_fields (L : sol_State) (opt : ascii) (s s' : Z)
    (ar ar1 : sol_Debug) (f : option Closure) (ci_ : option nat) :
  auxgetinfo_option L opt s ar f ci_ = Some (s', ar1) ->
  i_ci ar1 = i_ci ar /\
  (Ascii.eqb "S" opt = false ->
   ar_source ar1 = ar_source ar /\ ar_srclen ar1 = ar_srclen ar /\
   ar_linedefined ar1 = ar_linedefined ar /\
   ar_lastlinedefined ar1 = ar_lastlinedefined ar /\
   ar_what ar1 = ar_what ar /\ ar_short_src ar1 = ar_short_src ar) /\
  (Ascii.eqb "l" opt = false -> ar_currentline ar1 = ar_currentline ar) /\
  (Ascii.eqb "u" opt = false ->
   ar_nups ar1 = ar_nups ar /\ ar_nparams ar1 = ar_nparams ar /\
   ar_isvararg ar1 = ar_isvararg ar) /\
  (Ascii.eqb "t" opt = false -> ar_istailcall ar1 = ar_istailcall ar) /\
  (Ascii.eqb "n" opt = false ->
   ar_name ar1 = ar_name ar /\ ar_namewhat ar1 = ar_namewhat ar) /\
  (Ascii.eqb "r" opt = false ->
   ar_ftransfer ar1 = ar_ftransfer ar /\ ar_ntransfer ar1 = ar_ntransfer ar).
Proof.
  destruct opt as [[] [] [] [] [] [] [] []];
    try (cbn; intros [= <- <-]; repeat split; reflexivity);
    unfold auxgetinfo_option, funcinfo; intros Hopt;
    repeat (first
      [ progress simplify_option_eq
      | match goal with
        | Hx : context [match ?x with _ => _ end] |- _ => destruct x eqn:?
        end ]);
    repeat case_match; simplify_eq;
    cbn; repeat first [split | intro]; (reflexivity || discriminate).
Qed.

Lemma auxgetinfo_from_fields (L : sol_State) (what : string)
    (f : option Closure) (ci_ : option nat) :
  forall s ar s' ar',
  auxgetinfo_from L what s ar f ci_ = Some (s', ar') ->
  i_ci ar' = i_ci ar /\
  (strchr what "S" = false ->
   ar_source ar' = ar_source ar /\ ar_srclen ar' = ar_srclen ar /\
   ar_linedefined ar' = ar_linedefined ar /\
   ar_lastlinedefined ar' = ar_lastlinedefined ar /\
   ar_what ar' = ar_what ar /\ ar_short_src ar' = ar_short_src ar) /\
  (strchr what "l" = false -> ar_currentline ar' = ar_currentline ar) /\
  (strchr what "u" = false ->
   ar_nups ar' = ar_nups ar /\ ar_nparams ar' = ar_nparams ar /\
   ar_isvararg ar' = ar_isvararg ar) /\
  (strchr what "t" = false -> ar_istailcall ar' = ar_istailcall ar) /\
  (strchr what "n" = false ->
   ar_name ar' = ar_name ar /\ ar_namewhat ar' = ar_namewhat ar) /\
  (strchr what "r" = false ->
   ar_ftransfer ar' = ar_ftransfer ar /\ ar_ntransfer ar' = ar_ntransfer ar).
Proof.
  induction what as [|opt what IH]; intros s ar s' ar' Hrun.
  - cbn in Hrun. injection Hrun as <- <-. repeat split.
  - cbn [auxgetinfo_from] in Hrun.
    destruct (auxgetinfo_option L opt s ar f ci_) as [[s1 ar1]|] eqn:Hopt;
      [|discriminate].
    cbn [mbind option_bind] in Hrun.
    apply auxgetinfo_option_fields in Hopt as (Hi & HS & Hl & Hu & Ht & Hn & Hr).
    apply IH in Hrun as (Hi' & HS' & Hl' & Hu' & Ht' & Hn' & Hr').
    unfold strchr in *. cbn [list_ascii_of_string existsb].
    apply conj; [congruence|].
    repeat match goal with |- _ /\ _ => apply conj end;
      intros [Ho Hw]%orb_false_elim;
      repeat match goal with
             | Hx : ?a = false -> _, Hy : ?a = false |- _ => specialize (Hx Hy)
             end;
      intuition congruence.
Qed.

(** X19.  [auxgetinfo] writes the fields of the options it is given and
    no other: without ['S'] the source, its length, the lines of the
    definition, [what] and [short_src] are those of the record passed
    in, without ['l'] the current line, without ['u'] the counts of
    upvalues and parameters and the vararg flag, without ['t'] the
    tail-call flag, without ['n'] the name and its kind, without ['r']
    the transfer range; the frame handle [i_ci] is never written. *)
Theorem auxgetinfo_fields (L : sol_State) (what : string) (ar : sol_Debug)
    (f : option Closure) (ci_ : option nat) (status : Z) (ar' : sol_Debug) :
  auxgetinfo L what ar f ci_ = Some (status, ar') ->
  i_ci ar' = i_ci ar /\
  (strchr what "S" = false ->
   ar_source ar' = ar_source ar /\ ar_srclen ar' = ar_srclen ar /\
   ar_linedefined ar' = ar_linedefined ar /\
   ar_lastlinedefined ar' = ar_lastlinedefined ar /\
   ar_what ar' = ar_what ar /\ ar_short_src ar' = ar_short_src ar) /\
  (strchr what "l" = false -> ar_currentline ar' = ar_currentline ar) /\
  (strchr what "u" = false ->
   ar_nups ar' = ar_nups ar /\ ar_nparams ar' = ar_nparams ar /\
   ar_isvararg ar' = ar_isvararg ar) /\
  (strchr what "t" = false -> ar_istailcall ar' = ar_istailcall ar) /\
  (strchr what "n" = false ->
   ar_name ar' = ar_name ar /\ ar_namewhat ar' = ar_namewhat ar) /\
  (strchr what "r" = false ->
   ar_ftransfer ar' = ar_ftransfer ar /\ ar_ntransfer ar' = ar_ntransfer ar).
Proof. exact (auxgetinfo_from_fields L what f ci_ 1 ar status ar'). Qed.

End InfoAssemblerMore.

(** ** Hook/trace engine *)

Section TraceEngineMore.
Context `{LineConsts} `{Opcodes} `{StateConsts} `{LocalNames} `{HookDispatch}.

(** The end of a run: it returns 1, or it throws the yield status on a
    state whose status is the yield status, with the frame marked and,
    after a count hook, the count put back to 1. *)
Lemma traceexec_finish_outcome (L : sol_State) (ci_ : nat) (counthook : bool)
    (calls : list Dispatch) :
  let r := traceexec_finish L ci_ counthook calls in
  (outcome r = Returns 1 /\ status L <> SOL_YIELD) \/
  (outcome r = Throws SOL_YIELD /\ status L = SOL_YIELD /\
   status (final r) = SOL_YIELD /\
   (counthook = true -> hookcount (final r) = 1) /\
   forall c', callinfo (final r) !! ci_ = Some c' ->
              Z.land (callstatus c') CIST_HOOKYIELD = CIST_HOOKYIELD).
Proof.
  cbv zeta. unfold traceexec_finish.
  destruct (Z.eqb_spec (status L) SOL_YIELD) as [Hy|Hn]; [right|by left].
  cbn [outcome final]. split; [reflexivity|]. split; [exact Hy|].
  split; [by destruct counthook|]. split; [by intros ->|].
  intros c'. unfold update_frame. cbn [callinfo set_callinfo].
  rewrite list_lookup_alter_eq.
  destruct (callinfo (if counthook then set_hookcount L 1 else L) !! ci_) as [c0|];
    [|discriminate].
  cbn. intros [= <-]. cbn [callstatus set_callstatus].
  apply Z.bits_inj'. intros n _. rewrite Z.land_spec, Z.lor_spec.
  by destruct (Z.testbit (callstatus c0) n), (Z.testbit CIST_HOOKYIELD n).
Qed.

(** The line hook part: it has no defined result, or the line hook
    raises an error and the run unwinds with its status in the state the
    hook left, or it hands over to [traceexec_finish], on a state whose
    status is that of the state it was given unless the line hook was
    called. *)
Lemma traceexec_line_outcome (L : sol_State) (ci_ : nat) (p : Proto) (pc : Z)
    (counthook : bool) (calls : list Dispatch) :
  let r := traceexec_line L ci_ p pc counthook calls in
  outcome r = Undefined \/
  (exists newline errcode L1,
     solD_hook L SOL_HOOKLINE newline 0 0 = HookRaises errcode L1 /\
     r = mkRun (Throws errcode) L1 (calls ++ [D_hook SOL_HOOKLINE newline 0 0])) \/
  exists L1 calls1,
    r = traceexec_finish L1 ci_ counthook calls1 /\
    (calls1 = calls /\ status L1 = status L \/
     exists newline, calls1 = calls ++ [D_hook SOL_HOOKLINE newline 0 0]).
Proof.
  cbv zeta. unfold traceexec_line.
  destruct (if pcRel pc p <=? (if oldpc L <? sizecode p then oldpc L else 0)
            then Some true
            else changedline p (if oldpc L <? sizecode p then oldpc L else 0)
                             (pcRel pc p)) as [[|]|]; [| |by left].
  - destruct (solG_getfuncline p (pcRel pc p)) as [newline|]; [|by left].
    destruct (solD_hook L SOL_HOOKLINE newline 0 0) as [L1|errcode L1] eqn:Hhook.
    + right; right. eexists _, _. split; [reflexivity|]. right. by exists newline.
    + right; left. by exists newline, errcode, L1.
  - right; right. eexists _, _. split; [reflexivity|]. by left.
Qed.

(** In a frame marked as having yielded in a hook the run ends before
    any hook. *)
Lemma traceexec_marked (L : sol_State) (pc : Z) (c : CallInfo) (p : Proto) :
  callinfo L !! ci L = Some c -> ci_func_p L c = Some p ->
  Z.land (callstatus c) CIST_HOOKYIELD <> 0 ->
  let r := solG_traceexec L pc in
  dispatched r = [] /\
  (outcome r = Returns 0 \/ outcome r = Returns 1) /\
  top (final r) = top L /\ stack (final r) = stack L /\
  oldpc (final r) = oldpc L /\ status (final r) = status L.
Proof.
  intros Hc Hp Hmark. cbv zeta. unfold solG_traceexec. rewrite Hc, Hp.
  destruct (Z.land (cast_byte (hookmask L)) (Z.lor SOL_MASKLINE SOL_MASKCOUNT) =? 0).
  { cbn. tauto. }
  match goal with
  | |- context [if negb ?counthook && ?noline then _ else _] =>
      destruct (negb counthook && noline)
  end.
  - cbn [dispatched outcome final]. split; [done|]. split; [by right|].
    destruct (Z.land (cast_byte (hookmask L)) SOL_MASKCOUNT =? 0); cbn [negb andb];
      [by cbn|].
    match goal with
    | |- context [if ?b then _ else _] => destruct b
    end; by cbn.
  - destruct (Z.eqb_spec (Z.land (callstatus c) CIST_HOOKYIELD) 0) as [|_]; [done|].
    cbn [negb dispatched outcome final]. split; [done|]. split; [by right|].
    destruct (Z.land (cast_byte (hookmask L)) SOL_MASKCOUNT =? 0); cbn [negb andb];
      [by cbn|].
    match goal with
    | |- context [if ?b then _ else _] => destruct b
    end; by cbn.
Qed.

(** X20.  A frame marked as having yielded in a hook is not traced
    again: the run of [solG_traceexec] calls no dispatcher, returns
    (0 or 1) without unwinding, and leaves the top of the stack, the
    stack, [oldpc] and the status as they were. *)
Theorem traceexec_resumed_frame (L : sol_State) (pc : Z) (c : CallInfo) (p : Proto) :
  callinfo L !! ci L = Some c -> ci_func_p L c = Some p ->
  Z.land (callstatus c) CIST_HOOKYIELD <> 0 ->
  let r := solG_traceexec L pc in
  dispatched r = [] /\
  (outcome r = Returns 0 \/ outcome r = Returns 1) /\
  top (final r) = top L /\ stack (final r) = stack L /\
  oldpc (final r) = oldpc L /\ status (final r) = status L.
Proof. exact (traceexec_marked L pc c p). Qed.

(** The ways a run ends: with no defined result; with 0, having done
    nothing but clear the trap; with 1 before any hook; in a hook that
    raises an error; or in [traceexec_finish]. *)
Lemma traceexec_ends (L : sol_State) (pc : Z) :
  let r := solG_traceexec L pc in
  let bits := Z.land (cast_byte (hookmask L)) (Z.lor SOL_MASKLINE SOL_MASKCOUNT) in
  outcome r = Undefined \/
  (bits = 0 /\
   r = mkRun (Returns 0) (update_frame L (ci L) (fun c => set_trap c 0)) []) \/
  (bits <> 0 /\
   ((outcome r = Returns 1 /\ dispatched r = [] /\ status (final r) = status L) \/
    (exists L0 event line errcode,
       solD_hook L0 event line 0 0 = HookRaises errcode (final r) /\
       outcome r = Throws errcode /\
       last (dispatched r) = Some (D_hook event line 0 0)) \/
    (exists L1 counthook calls,
       r = traceexec_finish L1 (ci L) counthook calls /\
       (calls = [] -> status L1 = status L)))).
Proof.
  cbv zeta. unfold solG_traceexec.
  destruct (callinfo L !! ci L) as [c|]; [|by left].
  destruct (ci_func_p L c) as [p|]; [|by left].
  destruct (Z.eqb_spec (Z.land (cast_byte (hookmask L))
                               (Z.lor SOL_MASKLINE SOL_MASKCOUNT)) 0) as [Hno|Hyes].
  { right; left. by split. }
  assert (Hst : status (if Z.land (cast_byte (hookmask L)) SOL_MASKCOUNT =? 0
                        then update_frame L (ci L) (fun c => set_savedpc c (pc + 1))
                        else set_hookcount
                               (update_frame L (ci L) (fun c => set_savedpc c (pc + 1)))
                               (hookcount
                                  (update_frame L (ci L)
                                     (fun c => set_savedpc c (pc + 1))) - 1))
                = status L).
  { by destruct (Z.land (cast_byte (hookmask L)) SOL_MASKCOUNT =? 0). }
  match goal with
  | |- context [if negb ?counthook && ?noline then _ else _] =>
      generalize counthook as counthook_; intros counthook_
  end.
  revert counthook_.
  match type of Hst with
  | status ?X = _ => generalize dependent X
  end.
  intros L0 Hst counthook_.
  assert (Hst1 : status (if counthook_ then resethookcount L0 else L0) = status L).
  { by destruct counthook_. }
  generalize dependent (if counthook_ then resethookcount L0 else L0).
  intros L1 Hst1.
  destruct (negb counthook_ && _).
  { right; right. split; [exact Hyes|]. left. by repeat split. }
  destruct (negb (Z.land (callstatus c) CIST_HOOKYIELD =? 0)).
  { right; right. split; [exact Hyes|]. left. by repeat split. }
  destruct (at_index (code p) (pc + 1 - 1)) as [i|]; [|by left].
  assert (Hst2 : status (if negb (isIT i) then set_top L1 (ci_top c) else L1)
                 = status L).
  { by destruct (negb (isIT i)). }
  generalize dependent (if negb (isIT i) then set_top L1 (ci_top c) else L1).
  intros L2 Hst2.
  assert (Hline : forall L3 calls,
            (calls = [] -> status L3 = status L) ->
            let r := traceexec_line L3 (ci L) p (pc + 1) counthook_ calls in
            outcome r = Undefined \/
            (exists L0 event line errcode,
               solD_hook L0 event line 0 0 = HookRaises errcode (final r) /\
               outcome r = Throws errcode /\
               last (dispatched r) = Some (D_hook event line 0 0)) \/
            (exists L4 counthook calls1,
               r = traceexec_finish L4 (ci L) counthook calls1 /\
               (calls1 = [] -> status L4 = status L))).
  { intros L3 calls Hcalls. cbv zeta.
    destruct (traceexec_line_outcome L3 (ci L) p (pc + 1) counthook_ calls)
      as [Hu|[(newline & errcode & L4 & Hhook & ->)|(L4 & calls1 & -> & Hc1)]].
    - by left.
    - right; left. exists L3, SOL_HOOKLINE, newline, errcode.
      cbn [final outcome dispatched]. split; [exact Hhook|]. split; [reflexivity|].
      apply last_snoc.
    - right; right. exists L4, counthook_, calls1. split; [reflexivity|].
      destruct Hc1 as [[-> Hs]|[newline ->]].
      + intros Hnil. rewrite Hs. by apply Hcalls.
      + by intros [_ [=]]%app_nil. }
  destruct counthook_; cbv beta iota.
  - destruct (solD_hook L2 SOL_HOOKCOUNT (-1) 0 0) as [L3|errcode L3] eqn:Hhook.
    + destruct (negb (Z.land (cast_byte (hookmask L)) SOL_MASKLINE =? 0)).
      * destruct (Hline L3 [D_hook SOL_HOOKCOUNT (-1) 0 0]) as [Hu|[Hr|Hf]];
          [discriminate|by left|right; right; split; [exact Hyes|]; right; by left|].
        right; right. split; [exact Hyes|]. right; by right.
      * right; right. split; [exact Hyes|]. right; right.
        exists L3, true, [D_hook SOL_HOOKCOUNT (-1) 0 0]. by split.
    + right; right. split; [exact Hyes|]. right; left.
      exists L2, SOL_HOOKCOUNT, (-1), errcode. by repeat split.
  - destruct (negb (Z.land (cast_byte (hookmask L)) SOL_MASKLINE =? 0)).
    + destruct (Hline L2 []) as [Hu|[Hr|Hf]];
        [done|by left|right; right; split; [exact Hyes|]; right; by left|].
      right; right. split; [exact Hyes|]. right; by right.
    + right; right. split; [exact Hyes|]. right; right.
      exists L2, false, []. by split.
Qed.

(** What the run is at an instruction of a frame that is not marked: the
    cases of the mask and of the count. *)
Lemma traceexec_cases (L : sol_State) (pc : Z) (c : CallInfo) (p : Proto)
    (i : Instruction) :
  callinfo L !! ci L = Some c -> ci_func_p L c = Some p ->
  Z.land (callstatus c) CIST_HOOKYIELD = 0 ->
  at_index (code p) pc = Some i ->
  let mask := cast_byte (hookmask L) in
  let counthook := negb (Z.land mask SOL_MASKCOUNT =? 0) && (hookcount L - 1 =? 0) in
  let r := solG_traceexec L pc in
  (Z.land mask (Z.lor SOL_MASKLINE SOL_MASKCOUNT) = 0 /\ dispatched r = []) \/
  (counthook = false /\ Z.land mask SOL_MASKLINE = 0 /\ dispatched r = []) \/
  (counthook = false /\
   exists L1, r = traceexec_line L1 (ci L) p (pc + 1) false []) \/
  (counthook = true /\
   exists L1,
     match solD_hook L1 SOL_HOOKCOUNT (-1) 0 0 with
     | HookRaises errcode L2 =>
         r = mkRun (Throws errcode) L2 [D_hook SOL_HOOKCOUNT (-1) 0 0]
     | HookReturns L2 =>
         r = traceexec_finish L2 (ci L) true [D_hook SOL_HOOKCOUNT (-1) 0 0] \/
         r = traceexec_line L2 (ci L) p (pc + 1) true [D_hook SOL_HOOKCOUNT (-1) 0 0]
     end).
Proof.
  intros Hc Hp Hmark Hi. cbv zeta. unfold solG_traceexec. rewrite Hc, Hp.
  destruct (Z.eqb_spec (Z.land (cast_byte (hookmask L))
                               (Z.lor SOL_MASKLINE SOL_MASKCOUNT)) 0) as [Hno|Hyes].
  { left. by split. }
  right. rewrite Hmark. cbn [Z.eqb negb].
  replace (pc + 1 - 1) with pc by lia. rewrite Hi.
  destruct (Z.eqb_spec (Z.land (cast_byte (hookmask L)) SOL_MASKCOUNT) 0)
    as [Hcount|Hcount]; cbn [negb andb].
  - destruct (Z.eqb_spec (Z.land (cast_byte (hookmask L)) SOL_MASKLINE) 0)
      as [Hline|Hline]; cbn [negb].
    + left. by repeat split.
    + right; left. split; [reflexivity|]. by eexists.
  - cbn [hookcount set_hookcount update_frame set_callinfo].
    destruct (hookcount L - 1 =? 0); cbn [negb andb].
    + right; right. split; [reflexivity|]. eexists.
      match goal with
      | |- context [solD_hook ?L0 SOL_HOOKCOUNT (-1) 0 0] =>
          instantiate (1 := L0);
          destruct (solD_hook L0 SOL_HOOKCOUNT (-1) 0 0) as [L2|errcode L2]
      end; [|reflexivity].
      destruct (Z.eqb_spec (Z.land (cast_byte (hookmask L)) SOL_MASKLINE) 0);
        cbn [negb]; [by left|by right].
    + destruct (Z.eqb_spec (Z.land (cast_byte (hookmask L)) SOL_MASKLINE) 0)
        as [Hline|Hline]; cbn [negb].
      * left. by repeat split.
      * right; left. split; [reflexivity|]. by eexists.
Qed.

(** X21.  [solG_traceexec] unwinds in two ways only.  Either a hook
    raised an error: the run then ends with the status of that error in
    the state the hook left, and that hook is the last one the run
    called.  Or the hooks returned and left the status of a yield: the
    run then throws that status, and the running frame, when the hooks
    have left it in place, is marked as having yielded in a hook.
    When the status was not that of a yield before the run, a hook was
    called in it. *)
Theorem traceexec_unwinds (L : sol_State) (pc errcode : Z) :
  let r := solG_traceexec L pc in
  outcome r = Throws errcode ->
  ((exists L0 event line,
      solD_hook L0 event line 0 0 = HookRaises errcode (final r) /\
      last (dispatched r) = Some (D_hook event line 0 0)) \/
   (errcode = SOL_YIELD /\ status (final r) = SOL_YIELD /\
    forall c', callinfo (final r) !! ci L = Some c' ->
               Z.land (callstatus c') CIST_HOOKYIELD = CIST_HOOKYIELD)) /\
  (status L <> SOL_YIELD -> dispatched r <> []).
Proof.
  cbv zeta. intros Hthrow.
  destruct (traceexec_ends L pc)
    as [Hu|[[_ Hr]|[_ [(Ho & _)|[(L0 & event & line & e & Hhook & Ho & Hlast)
                               |(L1 & counthook & calls & Hr & Hcalls)]]]]].
  - rewrite Hu in Hthrow. discriminate.
  - rewrite Hr in Hthrow. discriminate.
  - rewrite Ho in Hthrow. discriminate.
  - rewrite Ho in Hthrow. injection Hthrow as ->. split.
    + left. by exists L0, event, line.
    + intros _ Hnil. rewrite Hnil in Hlast. discriminate.
  - rewrite Hr in Hthrow |- *.
    destruct (traceexec_finish_outcome L1 (ci L) counthook calls)
      as [[Ho _]|(Ho & Hy & Hs & _ & Hm)]; rewrite Ho in Hthrow; [discriminate|].
    injection Hthrow as <-. split; [by right|].
    rewrite traceexec_finish_dispatched. intros Hst Hnil.
    apply Hst. rewrite <- (Hcalls Hnil). exact Hy.
Qed.

(** X22.  The count hook is called exactly when it is armed and the
    countdown reaches zero: in a frame that is not marked, at an
    instruction of the code, the run calls the dispatcher for the count
    hook if and only if the mask has the count bit and [hookcount] was
    1. *)
Theorem traceexec_count_hook (L : sol_State) (pc : Z) (c : CallInfo) (p : Proto)
    (i : Instruction) :
  callinfo L !! ci L = Some c -> ci_func_p L c = Some p ->
  Z.land (callstatus c) CIST_HOOKYIELD = 0 ->
  at_index (code p) pc = Some i ->
  In (D_hook SOL_HOOKCOUNT (-1) 0 0) (dispatched (solG_traceexec L pc)) <->
  Z.land (cast_byte (hookmask L)) SOL_MASKCOUNT <> 0 /\ hookcount L = 1.
Proof.
  intros Hc Hp Hmark Hi.
  assert (Hcount : forall b : bool,
            b = negb (Z.land (cast_byte (hookmask L)) SOL_MASKCOUNT =? 0)
                && (hookcount L - 1 =? 0) ->
            b = true <->
            Z.land (cast_byte (hookmask L)) SOL_MASKCOUNT <> 0 /\ hookcount L = 1).
  { intros b ->.
    destruct (Z.eqb_spec (Z.land (cast_byte (hookmask L)) SOL_MASKCOUNT) 0),
             (Z.eqb_spec (hookcount L - 1) 0); cbn; split; (lia || intuition lia). }
  assert (Hbits : Z.land (cast_byte (hookmask L)) (Z.lor SOL_MASKLINE SOL_MASKCOUNT) = 0 ->
                  Z.land (cast_byte (hookmask L)) SOL_MASKCOUNT = 0).
  { rewrite Z.land_lor_distr_r. intros Hz. by apply Z.lor_eq_0_iff in Hz as [_ Hz]. }
  rewrite <- (Hcount _ eq_refl).
  destruct (traceexec_cases L pc c p i Hc Hp Hmark Hi)
    as [[Hno Hd]|[(Hch & _ & Hd)|[(Hch & L1 & Hr)|(Hch & L1 & Hr)]]].
  - rewrite Hd. apply Hbits in Hno. rewrite Hno. cbn.
    split; [tauto|discriminate].
  - rewrite Hd, Hch. cbn. split; [tauto|discriminate].
  - rewrite Hr, Hch.
    destruct (traceexec_line_dispatched L1 (ci L) p (pc + 1) false [])
      as [->|[newline ->]]; cbn; split; try tauto; try discriminate;
      intuition discriminate.
  - rewrite Hch. split; [done|]. intros _.
    destruct (solD_hook L1 SOL_HOOKCOUNT (-1) 0 0) as [L2|errcode L2].
    + destruct Hr as [->| ->].
      * rewrite traceexec_finish_dispatched. by left.
      * match goal with
        | |- context [traceexec_line ?a ?b ?c ?d ?e ?f] =>
            destruct (traceexec_line_dispatched a b c d e f) as [->|[newline ->]]
        end; by left.
    + rewrite Hr. by left.
Qed.

(** X23.  [solG_traceexec] returns 0, which turns the trap off, exactly
    when the mask has neither the line bit nor the count bit; it has
    then called no hook and changed nothing but the trap of the running
    frame.  A run that returns returns 0 or 1. *)
Theorem traceexec_trap_off (L : sol_State) (pc : Z) (c : CallInfo) (p : Proto) :
  callinfo L !! ci L = Some c -> ci_func_p L c = Some p ->
  let r := solG_traceexec L pc in
  (outcome r = Returns 0 <->
   Z.land (cast_byte (hookmask L)) (Z.lor SOL_MASKLINE SOL_MASKCOUNT) = 0) /\
  (outcome r = Returns 0 ->
   dispatched r = [] /\
   final r = update_frame L (ci L) (fun c => set_trap c 0)) /\
  (forall v, outcome r = Returns v -> v = 0 \/ v = 1).
Proof.
  intros Hc Hp. cbv zeta.
  assert (Hfin : forall L1 counthook calls v,
            outcome (traceexec_finish L1 (ci L) counthook calls) = Returns v -> v = 1).
  { intros L1 counthook calls v.
    destruct (traceexec_finish_outcome L1 (ci L) counthook calls)
      as [[Ho _]|(Ho & _)]; rewrite Ho; by intros [= <-]. }
  assert (Hzero : Z.land (cast_byte (hookmask L)) (Z.lor SOL_MASKLINE SOL_MASKCOUNT) = 0 ->
                  solG_traceexec L pc
                  = mkRun (Returns 0) (update_frame L (ci L) (fun c => set_trap c 0)) []).
  { intros Hno. unfold solG_traceexec. by rewrite Hc, Hp, Hno. }
  destruct (traceexec_ends L pc)
    as [Hu|[[Hno Hr]|[Hyes [(Ho & _)|[(L0 & event & line & e & _ & Ho & _)
                                   |(L1 & counthook & calls & Hr & _)]]]]].
  - split; [split|split].
    + rewrite Hu. discriminate.
    + intros Hno. rewrite (Hzero Hno) in Hu. discriminate.
    + rewrite Hu. discriminate.
    + intros v. rewrite Hu. discriminate.
  - rewrite Hr. cbn [outcome dispatched final]. split; [split|split].
    + intros _. exact Hno.
    + reflexivity.
    + intros _. split; reflexivity.
    + intros v [= <-]. by left.
  - split; [split|split].
    + rewrite Ho. discriminate.
    + intros Hno. contradiction.
    + rewrite Ho. discriminate.
    + intros v. rewrite Ho. intros [= <-]. by right.
  - split; [split|split].
    + rewrite Ho. discriminate.
    + intros Hno. contradiction.
    + rewrite Ho. discriminate.
    + intros v. rewrite Ho. discriminate.
  - rewrite Hr. split; [split|split].
    + intros Hz. apply Hfin in Hz. discriminate.
    + intros Hno. contradiction.
    + intros Hz. apply Hfin in Hz. discriminate.
    + intros v Hv. right. by apply Hfin in Hv.
Qed.

(** X24.  [solG_tracecall] calls the call hook only at the first
    instruction of a function that is not vararg, in a frame that is not
    marked, and then once, on the state with the trap set: the run
    returns 1 in the state the hook left when the hook returns, and
    unwinds with the status of the error when the hook raises one.  In
    every other case it calls nothing and only sets the trap; it then
    returns 0 at the first instruction of a vararg function and 1
    otherwise. *)
Theorem tracecall_dispatch (L : sol_State) (c : CallInfo) (p : Proto) :
  callinfo L !! ci L = Some c -> ci_func_p L c = Some p ->
  let L1 := update_frame L (ci L) (fun c => set_trap c 1) in
  let r := solG_tracecall L in
  let hooked :=
    savedpc c = 0 /\ is_vararg p = 0 /\ Z.land (callstatus c) CIST_HOOKYIELD = 0 in
  (hooked /\ dispatched r = [D_hookcall (ci L)] /\
   match solD_hookcall L1 (ci L) with
   | HookReturns L2 => outcome r = Returns 1 /\ final r = L2
   | HookRaises errcode L2 => outcome r = Throws errcode /\ final r = L2
   end) \/
  (~ hooked /\ dispatched r = [] /\ final r = L1 /\
   (outcome r = Returns 0 /\ savedpc c = 0 /\ is_vararg p <> 0 \/
    outcome r = Returns 1 /\ ~ (savedpc c = 0 /\ is_vararg p <> 0))).
Proof.
  intros Hc Hp. cbv zeta. unfold solG_tracecall. rewrite Hc, Hp.
  destruct (Z.eqb_spec (savedpc c) 0) as [Hpc|Hpc].
  2:{ right. cbn [outcome dispatched final].
      split; [tauto|]. split; [reflexivity|]. split; [reflexivity|]. right. tauto. }
  destruct (Z.eqb_spec (is_vararg p) 0) as [Hva|Hva]; cbn [negb].
  2:{ right. cbn [outcome dispatched final].
      split; [tauto|]. split; [reflexivity|]. split; [reflexivity|]. left. tauto. }
  destruct (Z.eqb_spec (Z.land (callstatus c) CIST_HOOKYIELD) 0) as [Hm|Hm].
  2:{ right. cbn [outcome dispatched final].
      split; [tauto|]. split; [reflexivity|]. split; [reflexivity|]. right. tauto. }
  left. split; [done|].
  change (ci (update_frame L (ci L) (fun c0 => set_trap c0 1))) with (ci L).
  by destruct (solD_hookcall (update_frame L (ci L) (fun c0 => set_trap c0 1)) (ci L)).
Qed.

End TraceEngineMore.

(** ** Variable information *)

Lemma instack_from_slot (n : nat) (base o : Z) :
  forall pos,
  instack_from n base pos o =
    if (base + pos <=? o) && (o <? base + pos + Z.of_nat n) then o - base else -1.
Proof.
  induction n as [|n IH]; intros pos.
  - cbn [instack_from].
    destruct (Z.leb_spec (base + pos) o), (Z.ltb_spec o (base + pos + Z.of_nat 0));
      cbn; lia.
  - cbn [instack_from]. rewrite IH.
    destruct (Z.eqb_spec o (base + pos)),
             (Z.leb_spec (base + (pos + 1)) o),
             (Z.ltb_spec o (base + (pos + 1) + Z.of_nat n)),
             (Z.leb_spec (base + pos) o),
             (Z.ltb_spec o (base + pos + Z.of_nat (S n))); cbn; lia.
Qed.

(** X25.  [instack] finds the slots of the frame and no other: for an
    address [o] from the slot after the function up to, and not
    including, the top of the frame it returns the index [o - base] of
    the slot, and -1 for every other address. *)
Theorem instack_slot (c : CallInfo) (o : Z) :
  let base := func c + 1 in
  instack c o = if (base <=? o) && (o <? ci_top c) then o - base else -1.
Proof.
  cbv zeta. unfold instack. rewrite instack_from_slot.
  destruct (Z.leb_spec (func c + 1 + 0) o),
           (Z.ltb_spec o (func c + 1 + 0 + Z.of_nat (Z.to_nat (ci_top c - (func c + 1))))),
           (Z.leb_spec (func c + 1) o), (Z.ltb_spec o (ci_top c)); cbn; lia.
Qed.

(** ** Memory manager *)

Section MemoryFacts.
Context {heap : Type} `{MemServices heap}.

(** The allocation function works on its own data: a call changes
    [g->ud] and nothing else of the state. *)
Lemma callfrealloc_state (g g' : global_State heap) (b nb : block) (os ns : Z) :
  callfrealloc g b os ns = (nb, g') ->
  g' = set_ud g (ud g') /\
  GCdebt g' = GCdebt g /\ gcstopem g' = gcstopem g /\
  nb = fst (frealloc (ud g) b os ns).
Proof.
  unfold callfrealloc. destruct (frealloc (ud g) b os ns) as [nb0 h].
  intros [= <- <-]. by cbn.
Qed.

Lemma grown_size_bounds (nelems size limit newsize : Z) :
  0 <= size -> nelems <= size -> MINSIZEARRAY <= limit ->
  grown_size size limit = Some newsize ->
  nelems + 1 <= newsize <= limit /\ size < newsize.
Proof.
  unfold grown_size, MINSIZEARRAY. intros H0 Hn Hl.
  pose proof (Z.quot_pos limit 2 ltac:(lia) ltac:(lia)) as Hq0.
  assert (Hq : 2 * Z.quot limit 2 <= limit).
  { pose proof (Z.quot_rem' limit 2) as Hqr.
    pose proof (Z.rem_nonneg limit 2 ltac:(lia) ltac:(lia)). lia. }
  destruct (Z.geb_spec size (Z.quot limit 2)).
  - destruct (Z.geb_spec size limit); [discriminate|]. intros [= <-]. lia.
  - destruct (Z.ltb_spec (size * 2) 4); intros [= <-]; lia.
Qed.

(** X26.  The array [solM_growaux_] hands back has room for one more
    element and stays within the limit: for an array of [size] slots
    holding [nelems] elements, with a limit of at least [MINSIZEARRAY],
    a successful call leaves a size with [nelems + 1 <= size <= limit];
    the size never shrinks, and it is unchanged, with the block, exactly
    when one more element already fits. *)
Theorem growaux_size (g g' : global_State heap) (b b' : block)
    (nelems size size_elems limit size' : Z) (what : string) :
  0 <= size <= limit -> nelems <= size -> MINSIZEARRAY <= limit ->
  solM_growaux_ g b nelems size size_elems limit what = MemOk (b', size') g' ->
  nelems + 1 <= size' <= limit /\ size <= size' /\
  (nelems + 1 <= size -> size' = size /\ b' = b /\ g' = g) /\
  (size' = size -> nelems + 1 <= size).
Proof.
  intros Hs Hn Hl. unfold solM_growaux_.
  destruct (Z.leb_spec (nelems + 1) size) as [Hfit|Hfull].
  - intros [= <- <- <-]. repeat split; lia.
  - destruct (grown_size size limit) as [newsize|] eqn:Hg; [|discriminate].
    apply (grown_size_bounds nelems) in Hg; [|lia..].
    destruct (solM_saferealloc_ g b (cast_sizet size * size_elems)
                                (cast_sizet newsize * size_elems))
      as [nb g1|g1|raised]; [|discriminate..].
    intros [= <- <- <-]. repeat split; lia.
Qed.

(** [solM_saferealloc_] raises the memory error only. *)
Lemma saferealloc_not_runerror (g : global_State heap) (b : block) (osize nsize : Z)
    (raised : MemRaised) :
  solM_saferealloc_ g b osize nsize <> MemRunError raised.
Proof.
  unfold solM_saferealloc_. destruct (solM_realloc_ g b osize nsize) as [[nb|] g1];
    [discriminate|]. by destruct (nsize >? 0).
Qed.

(** X27.  [solM_growaux_] ends in the error of too many elements
    exactly when one more element does not fit and the array has reached
    its limit.  It then calls [solG_runerror] with the format
    "too many %s (limit is %d)", [what] and [limit], in the state it was
    itself called in: no allocation has been asked for before the
    call. *)
Theorem growaux_too_many (g : global_State heap) (b : block)
    (nelems size size_elems limit : Z) (what : string) :
  0 <= limit ->
  ((exists raised,
      solM_growaux_ g b nelems size size_elems limit what = MemRunError raised)
   <-> size < nelems + 1 /\ limit <= size) /\
  (size < nelems + 1 -> limit <= size ->
   solM_growaux_ g b nelems size size_elems limit what
   = MemRunError (solG_runerror_g g "too many %s (limit is %d)" what limit)).
Proof.
  intros Hl. unfold solM_growaux_, grown_size.
  assert (Hq : Z.quot limit 2 <= limit).
  { pose proof (Z.quot_rem' limit 2) as Hqr.
    pose proof (Z.rem_nonneg limit 2 ltac:(lia) Hl).
    pose proof (Z.quot_pos limit 2 Hl ltac:(lia)). lia. }
  destruct (Z.leb_spec (nelems + 1) size) as [Hfit|Hfull].
  { split; [|lia]. split; [intros (raised & [=])|lia]. }
  destruct (Z.geb_spec size (Z.quot limit 2)) as [Hhalf|Hhalf].
  - destruct (Z.geb_spec size limit) as [Hlim|Hlim].
    + split; [|reflexivity]. split; [lia|eauto].
    + split; [|lia]. split; [|lia].
      intros (raised & Hr). exfalso. revert Hr.
      match goal with
      | |- context [solM_saferealloc_ ?a ?b ?c ?d] =>
          pose proof (saferealloc_not_runerror a b c d) as Hnot;
          destruct (solM_saferealloc_ a b c d) as [? ?|?|r]; try discriminate
      end.
      by destruct (Hnot r).
  - split; [|lia]. split; [|lia].
    intros (raised & Hr). exfalso. revert Hr.
    match goal with
    | |- context [solM_saferealloc_ ?a ?b ?c ?d] =>
        pose proof (saferealloc_not_runerror a b c d) as Hnot;
        destruct (solM_saferealloc_ a b c d) as [? ?|?|r]; try discriminate
    end.
    by destruct (Hnot r).
Qed.

(** X28.  A reallocation to size 0 is a free: with an allocation
    function that returns NULL when asked for size 0, as its contract
    says, [solM_realloc_] returns NULL and leaves the state
    [solM_free_] leaves, with the debt down by the old size. *)
Theorem realloc_zero_is_free (g : global_State heap) (b : block) (osize : Z) :
  (forall h b' os, fst (frealloc h b' os 0) = None) ->
  solM_realloc_ g b osize 0 = (None, solM_free_ g b osize) /\
  GCdebt (solM_free_ g b osize) = GCdebt g - osize.
Proof.
  intros Hcontract. unfold solM_realloc_, solM_free_.
  destruct (callfrealloc g b osize 0) as [nb g1] eqn:Hcall.
  apply callfrealloc_state in Hcall as (_ & Hd & _ & Hnb).
  rewrite Hcontract in Hnb. rewrite Hnb. cbn. split.
  - f_equal. unfold set_GCdebt. f_equal. lia.
  - lia.
Qed.

(** The two ways [tryagain] goes. *)
Lemma tryagain_state (g g' : global_State heap) (b nb : block) (osize nsize : Z) :
  tryagain g b osize nsize = (nb, g') ->
  (cantryagain g = false /\ nb = None /\ g' = g) \/
  (cantryagain g = true /\
   callfrealloc (solC_fullgc g) b osize nsize = (nb, g')).
Proof.
  unfold tryagain. destruct (cantryagain g); [by right|].
  intros [= <- <-]. by left.
Qed.

(** Whether an emergency collection can run does not change with a call
    of the allocation function, when the test for a fully built state
    does not read the data of the allocator. *)
Lemma cantryagain_callfrealloc (g g' : global_State heap) (b nb : block) (os ns : Z) :
  (forall g0 h, completestate (set_ud g0 h) = completestate g0) ->
  callfrealloc g b os ns = (nb, g') ->
  cantryagain g' = cantryagain g.
Proof.
  intros Hcs Hcall. apply callfrealloc_state in Hcall as (-> & _).
  unfold cantryagain. by rewrite Hcs.
Qed.

(** X29.  [solM_saferealloc_] returns NULL only for a block of size 0:
    with an allocation function that returns NULL when asked for size 0,
    a call that returns gives NULL exactly when the new size is 0, so a
    call for a positive size that finds no memory, also after the
    emergency collection, does not return.  When no emergency
    collection can run, a call that returns has moved the debt by the
    new size less the old one. *)
Theorem saferealloc_null (g g' : global_State heap) (b nb : block) (osize nsize : Z) :
  (forall h b' os, fst (frealloc h b' os 0) = None) ->
  (forall g0 h, completestate (set_ud g0 h) = completestate g0) ->
  0 <= nsize ->
  solM_saferealloc_ g b osize nsize = MemOk nb g' ->
  (nb = None <-> nsize = 0) /\
  (cantryagain g = false -> GCdebt g' = GCdebt g + nsize - osize).
Proof.
  intros Hcontract Hcs Hns. unfold solM_saferealloc_, solM_realloc_.
  destruct (callfrealloc g b osize nsize) as [nb1 g1] eqn:Hcall.
  pose proof (cantryagain_callfrealloc _ _ _ _ _ _ Hcs Hcall) as Hsame.
  apply callfrealloc_state in Hcall as (_ & Hd & Hstop & Hnb).
  destruct nb1 as [a|].
  - intros [= <- <-]. cbn. split; [|lia]. split; [discriminate|].
    intros ->. by rewrite Hcontract in Hnb.
  - destruct (Z.gtb_spec nsize 0) as [Hpos|Hzero].
    + destruct (tryagain g1 b osize nsize) as [nb2 g2] eqn:Htry.
      apply tryagain_state in Htry as [(Hcan & -> & ->)|(Hcan & Hcall2)].
      * destruct (Z.gtb_spec nsize 0); [discriminate|lia].
      * destruct nb2 as [a|].
        -- intros [= <- <-]. split; [split; [discriminate|lia]|]. congruence.
        -- destruct (Z.gtb_spec nsize 0); [discriminate|lia].
    + destruct (Z.gtb_spec nsize 0); [lia|]. intros [= <- <-]. cbn.
      split; [|lia]. split; [lia|done].
Qed.

(** X30.  Allocation and release balance the debt: when no emergency
    collection runs, because none can or because the first try finds the
    memory, freeing the block [solM_malloc_] returned, with the size it
    was asked for, brings [GCdebt] back to what it was before the
    allocation.  [solM_malloc_] returns NULL exactly for size 0. *)
Theorem malloc_free_debt (g g1 : global_State heap) (nb : block) (size tag : Z) :
  (forall g0 h, completestate (set_ud g0 h) = completestate g0) ->
  cantryagain g = false \/ fst (frealloc (ud g) None tag size) <> None ->
  solM_malloc_ g size tag = MemOk nb g1 ->
  GCdebt (solM_free_ g1 nb size) = GCdebt g /\
  GCdebt g1 = GCdebt g + size /\
  (nb = None <-> size = 0).
Proof.
  intros Hcs Hnogc. unfold solM_malloc_.
  assert (Hfree : forall g2 b2, GCdebt (solM_free_ g2 b2 size) = GCdebt g2 - size).
  { intros g2 b2. unfold solM_free_.
    destruct (callfrealloc g2 b2 size 0) as [nb3 g3] eqn:Hcall.
    apply callfrealloc_state in Hcall as (_ & Hd & _). cbn. lia. }
  destruct (Z.eqb_spec size 0) as [->|Hsize].
  { intros [= <- <-]. rewrite Hfree. repeat split; lia. }
  destruct (callfrealloc g None tag size) as [nb1 g2] eqn:Hcall.
  pose proof (cantryagain_callfrealloc _ _ _ _ _ _ Hcs Hcall) as Hsame.
  apply callfrealloc_state in Hcall as (_ & Hd & Hstop & Hnb).
  destruct nb1 as [a|].
  - intros [= <- <-]. rewrite Hfree. cbn. repeat split; (lia || done).
  - destruct Hnogc as [Hcannot|Hfound]; [|by rewrite <- Hnb in Hfound].
    unfold tryagain. rewrite Hsame, Hcannot. discriminate.
Qed.

End MemoryFacts.

(** * The further properties on the examples *)

Section MoreSamples.
#[local] Existing Instance sample_LineConsts.
#[local] Existing Instance sample_Opcodes.
#[local] Existing Instance sample_StateConsts.
#[local] Existing Instance sample_LocalNames.
#[local] Existing Instance sample_InfoServices.
#[local] Existing Instance sample_HookDispatch.
#[local] Existing Instance sample_NameOpcodes.
#[local] Existing Instance sample_NameTables.
#[local] Existing Instance sample_MemServices.

(** *** Line-info decoder *)


Lemma getfuncline_at_anchor_witness :
  solG_getfuncline scenario_proto 3 = Some 15.
Proof.
  apply (getfuncline_at_anchor scenario_proto (mkAbsLineInfo 3 15)).
  - reflexivity.
  - reflexivity.
  - discriminate.
  - left. reflexivity.
Defined.

Lemma changedline_agrees_witness :
  exists (changed : bool) (l1 l2 : Z),
    changedline scenario_proto 0 4 = Some changed /\
    solG_getfuncline scenario_proto 0 = Some l1 /\
    solG_getfuncline scenario_proto 4 = Some l2 /\
    (changed = true <-> l1 <> l2).
Proof.
  apply (changedline_agrees scenario_proto 0 4).
  - reflexivity.
  - reflexivity.
  - lia.
  - reflexivity.
Defined.

Lemma nextline_getfuncline_witness :
  solG_getfuncline scenario_proto 2 = Some 13 /\
  nextline scenario_proto 13 3 = solG_getfuncline scenario_proto 3.
Proof.
  split; [reflexivity|].
  apply (nextline_getfuncline scenario_proto 3 13).
  - reflexivity.
  - reflexivity.
  - discriminate.
  - unfold sizecode. cbn. lia.
  - reflexivity.
Defined.

Lemma collectvalidlines_lines_witness :
  exists t,
    collectvalidlines sample_state (Some (LClosure 0 scenario_proto))
    = push sample_state (VTable t) /\
    forall line,
      line_active t line <->
      exists j, 0 <= j < 5 /\ solG_getfuncline scenario_proto j = Some line.
Proof.
  apply (collectvalidlines_lines sample_state 0 scenario_proto
           [0; 1; 2; ABSLINEINFO; -3]).
  - reflexivity.
  - reflexivity.
  - reflexivity.
  - intros _. cbn. lia.
Defined.

(** *** Frame walker *)

Lemma findlocal_native_slots_witness :
  isSol (mkCallInfo 0 1 2 0 0 0 0 0) = false /\
  solG_findlocal sample_state 0 1 = Some (Some ("(C temporary)"%string, 1)) /\
  solG_findlocal sample_state 0 3 = Some None.
Proof.
  split; [reflexivity|]. split.
  - exact (findlocal_native_slots sample_state 0 (mkCallInfo 0 1 2 0 0 0 0 0) 1 3
             eq_refl eq_refl eq_refl).
  - exact (findlocal_native_slots sample_state 0 (mkCallInfo 0 1 2 0 0 0 0 0) 3 3
             eq_refl eq_refl eq_refl).
Defined.

Lemma findlocal_negative_witness :
  solG_findlocal sample_state 1 (-1) = Some (Some ("(vararg)"%string, 1)).
Proof.
  apply (@findlocal_negative sample_StateConsts sample_LocalNames
           sample_state 1 (mkCallInfo 3 6 0 1 0 2 0 0)
           sample_vararg_proto (-1) eq_refl eq_refl eq_refl ltac:(lia)).
  repeat split; first [discriminate | cbn; lia].
Defined.

Lemma setlocal_getlocal_witness :
  let L1 := set_top (set_stack sample_state
                       [VNil; VInteger 1; VInteger 8; VLCL 0 sample_vararg_proto;
                        VInteger 1; VNil; VNil; VNil]) 4 in
  sol_setlocal sample_state 1 (-1) = Some (Some "(vararg)"%string, L1) /\
  exists v,
    at_index (stack sample_state) 4 = Some v /\
    at_index (stack L1) 1 = Some v /\
    sol_getlocal L1 1 (-1)
    = Some (Some "(vararg)"%string,
            set_stack sample_state (<[1%nat := v]> (stack sample_state))).
Proof.
  split; [reflexivity|].
  apply (setlocal_getlocal sample_state _ 1 (mkCallInfo 3 6 0 1 0 2 0 0) (-1)
           "(vararg)" 1).
  - reflexivity.
  - reflexivity.
  - discriminate.
  - reflexivity.
  - reflexivity.
Defined.

Lemma getlocal_setlocal_witness :
  let L1 := set_top (set_stack sample_state
                       [VNil; VInteger 7; VInteger 8; VLCL 0 sample_vararg_proto;
                        VInteger 1; VInteger 7; VNil; VNil]) 6 in
  sol_getlocal sample_state 1 (-1) = Some (Some "(vararg)"%string, L1) /\
  exists v,
    at_index (stack sample_state) 1 = Some v /\
    sol_setlocal L1 1 (-1)
    = Some (Some "(vararg)"%string,
            set_stack sample_state (<[5%nat := v]> (stack sample_state))).
Proof.
  split; [reflexivity|].
  apply (getlocal_setlocal sample_state _ 1 (mkCallInfo 3 6 0 1 0 2 0 0) (-1)
           "(vararg)" 1).
  - reflexivity.
  - reflexivity.
  - reflexivity.
  - cbn. lia.
  - reflexivity.
Defined.

(** *** Symbolic execution *)

Lemma findsetreg_prefix_witness :
  findsetreg conditional_load_proto 2 0
  = findsetreg (mkProto 0 0 [sample_LOADK 0; sample_JMP 1; sample_LOADK 0]
                        None [] 0 0 None) 2 0.
Proof.
  apply findsetreg_prefix. reflexivity.
Defined.

(** *** Names from the code *)

Lemma basicgetobjname_terminates_witness :
  Naming.basicgetobjname_upto 10 sample_caller_proto 1 0
  = Naming.basicgetobjname sample_caller_proto 1 0.
Proof.
  apply basicgetobjname_terminates. cbn. lia.
Defined.

Lemma rname_constant_witness :
  Naming.rname sample_caller_proto 1 0 = Some "print"%string /\
  ("print"%string = "?"%string \/
   In (VString "print") (proto_k sample_caller_proto)).
Proof.
  split; [reflexivity|].
  apply (rname_constant sample_caller_proto 1 0). reflexivity.
Defined.

Lemma funcnamefromcall_kinds_witness :
  Naming.funcnamefromcall sample_caller_state 1
  = Some (Some "constant"%string, Some "print"%string) /\
  In "constant"%string
     ("hook" :: "metamethod" :: "for iterator" :: name_kinds)%string /\
  Some "print"%string <> None.
Proof.
  split; [reflexivity|].
  apply (funcnamefromcall_kinds sample_caller_state 1). reflexivity.
Defined.

(** *** Info assembler *)

Lemma getinfo_stack_balance_witness :
  exists status L' ar',
    sol_getinfo sample_state "fL" (set_i_ci sample_Debug 1) = Some (status, L', ar') /\
    top L' = top sample_state - 0 + 1 + 1 /\
    callinfo L' = callinfo sample_state /\
    (forall i, i < top sample_state - 0 ->
               at_index (stack L') i = at_index (stack sample_state) i).
Proof.
  eexists _, _, _. split; [reflexivity|].
  exact (getinfo_stack_balance sample_state "fL" (set_i_ci sample_Debug 1) _ _ _
           eq_refl).
Defined.

Lemma auxgetinfo_fields_witness :
  exists status ar',
    auxgetinfo sample_state "Sl" sample_Debug
               (Some (LClosure 0 sample_vararg_proto)) (Some 1%nat)
    = Some (status, ar') /\
    ar_what ar' = "Sol"%string /\
    ar_nups ar' = ar_nups sample_Debug /\ ar_name ar' = ar_name sample_Debug.
Proof.
  eexists _, _. split; [reflexivity|]. split; [reflexivity|].
  match goal with
  | |- ar_nups ?ar' = _ /\ _ =>
      destruct (@auxgetinfo_fields sample_LineConsts sample_StateConsts
                  sample_InfoServices sample_state "Sl" sample_Debug
                  (Some (LClosure 0 sample_vararg_proto)) (Some 1%nat) 1 ar' eq_refl)
        as (_ & _ & _ & Hu & _ & Hn & _)
  end.
  split; [exact (proj1 (Hu eq_refl))|exact (proj1 (Hn eq_refl))].
Defined.

(** *** Hook/trace engine *)

Lemma traceexec_resumed_frame_witness :
  let L := update_frame (sample_entry_state 4 1) 1 (fun c => set_callstatus c 64) in
  let r := solG_traceexec L 0 in
  dispatched r = [] /\
  (outcome r = Returns 0 \/ outcome r = Returns 1) /\
  top (final r) = top L /\ stack (final r) = stack L /\
  oldpc (final r) = oldpc L /\ status (final r) = status L.
Proof.
  apply (traceexec_resumed_frame
           (update_frame (sample_entry_state 4 1) 1 (fun c => set_callstatus c 64))
           0 (mkCallInfo 1 4 64 0 0 0 0 0) sample_entry_proto).
  - reflexivity.
  - reflexivity.
  - discriminate.
Defined.

Lemma traceexec_unwinds_witness :
  let r := @solG_traceexec sample_LineConsts sample_Opcodes sample_StateConsts
             raising_HookDispatch (sample_entry_state 4 1) 0 in
  outcome r = Throws 2 /\
  ((exists L0 event line,
      @solD_hook raising_HookDispatch L0 event line 0 0 = HookRaises 2 (final r) /\
      last (dispatched r) = Some (D_hook event line 0 0)) \/
   (2 = SOL_YIELD /\ status (final r) = SOL_YIELD /\
    forall c', callinfo (final r) !! 1%nat = Some c' ->
               Z.land (callstatus c') CIST_HOOKYIELD = CIST_HOOKYIELD)) /\
  (status (sample_entry_state 4 1) <> SOL_YIELD -> dispatched r <> []).
Proof.
  split; [reflexivity|].
  apply (@traceexec_unwinds sample_LineConsts sample_Opcodes sample_StateConsts
           raising_HookDispatch (sample_entry_state 4 1) 0 2).
  reflexivity.
Defined.

(** The other way to unwind: the hooks return, the status is that of a
    yield, and the run throws it with the frame marked. *)
Example traceexec_yield_marked :
  outcome (solG_traceexec sample_yielded_state 0) = Throws SOL_YIELD /\
  dispatched (solG_traceexec sample_yielded_state 0) = [D_hook SOL_HOOKLINE 4 0 0] /\
  callstatus <$> callinfo (final (solG_traceexec sample_yielded_state 0)) !! 1%nat
  = Some CIST_HOOKYIELD.
Proof. repeat split; reflexivity. Qed.

Lemma traceexec_count_hook_witness :
  In (D_hook SOL_HOOKCOUNT (-1) 0 0)
     (dispatched (solG_traceexec (sample_entry_state 8 1) 0)) <->
  Z.land (cast_byte (hookmask (sample_entry_state 8 1))) SOL_MASKCOUNT <> 0 /\
  hookcount (sample_entry_state 8 1) = 1.
Proof.
  apply (traceexec_count_hook (sample_entry_state 8 1) 0
           (mkCallInfo 1 4 0 0 0 0 0 0) sample_entry_proto (sample_LOADK 1)).
  - reflexivity.
  - reflexivity.
  - reflexivity.
  - reflexivity.
Defined.

Lemma traceexec_trap_off_witness :
  let r := solG_traceexec (sample_entry_state 0 1) 0 in
  outcome r = Returns 0 /\
  Z.land (cast_byte (hookmask (sample_entry_state 0 1)))
         (Z.lor SOL_MASKLINE SOL_MASKCOUNT) = 0 /\
  dispatched r = [] /\
  final r = update_frame (sample_entry_state 0 1) 1 (fun c => set_trap c 0).
Proof.
  destruct (traceexec_trap_off (sample_entry_state 0 1) 0
              (mkCallInfo 1 4 0 0 0 0 0 0) sample_entry_proto eq_refl eq_refl)
    as ([Hto Hfrom] & Hzero & _).
  split; [exact (Hfrom eq_refl)|]. split; [exact (Hto (Hfrom eq_refl))|].
  exact (Hzero (Hfrom eq_refl)).
Defined.

Lemma tracecall_dispatch_witness :
  let r := @solG_tracecall sample_StateConsts raising_HookDispatch
             (sample_entry_state 1 0) in
  dispatched r = [D_hookcall 1] /\ outcome r = Throws 2 /\
  final r = update_frame (sample_entry_state 1 0) 1 (fun c => set_trap c 1).
Proof.
  destruct (@tracecall_dispatch sample_StateConsts raising_HookDispatch
              (sample_entry_state 1 0) (mkCallInfo 1 4 0 0 0 0 0 0)
              sample_entry_proto eq_refl eq_refl)
    as [(_ & Hd & Ho & Hf)|(Hnot & _)].
  - split; [exact Hd|]. split; [exact Ho|exact Hf].
  - exfalso. apply Hnot. repeat split; reflexivity.
Defined.

(** With hooks that return, the run of the same frame returns 1. *)
Example tracecall_returns :
  solG_tracecall (sample_entry_state 1 0)
  = mkRun (Returns 1)
          (set_oldpc (update_frame (sample_entry_state 1 0) 1
                        (fun c => set_trap c 1)) 0)
          [D_hookcall 1].
Proof. reflexivity. Qed.

(** *** Memory manager *)

Lemma growaux_size_witness :
  solM_growaux_ (mkGlobal 0 0 0) None 0 0 8 100 "items"
  = MemOk (Some 1, 4) (mkGlobal 32 0 32) /\
  0 + 1 <= 4 <= 100.
Proof.
  split; [reflexivity|].
  apply (growaux_size (mkGlobal 0 0 0) (mkGlobal 32 0 32) None (Some 1)
           0 0 8 100 4 "items").
  - lia.
  - lia.
  - unfold MINSIZEARRAY. lia.
  - reflexivity.
Defined.

Lemma growaux_too_many_witness :
  solM_growaux_ (mkGlobal 32 0 32) (Some 1) 4 4 8 4 "items"
  = MemRunError (mkGlobal 32 0 32, "too many %s (limit is %d)", "items", 4)%string.
Proof.
  exact (proj2 (growaux_too_many (mkGlobal 32 0 32) (Some 1) 4 4 8 4 "items"
                  ltac:(lia)) ltac:(lia) ltac:(lia)).
Defined.

Lemma realloc_zero_is_free_witness :
  solM_realloc_ (mkGlobal 32 0 32) (Some 1) 32 0
  = (None, solM_free_ (mkGlobal 32 0 32) (Some 1) 32) /\
  GCdebt (solM_free_ (mkGlobal 32 0 32) (Some 1) 32) = 32 - 32.
Proof.
  apply (realloc_zero_is_free (mkGlobal 32 0 32) (Some 1) 32).
  intros h b' os. reflexivity.
Defined.

Lemma saferealloc_null_witness :
  solM_saferealloc_ (mkGlobal 32 1 32) (Some 1) 32 64
  = MemOk (Some 1) (mkGlobal 64 1 64) /\
  (Some 1 = None <-> 64 = 0) /\
  (cantryagain (mkGlobal 32 1 32) = false -> 64 = 32 + 64 - 32).
Proof.
  split; [reflexivity|].
  apply (saferealloc_null (mkGlobal 32 1 32) (mkGlobal 64 1 64) (Some 1) (Some 1)
           32 64).
  - intros h b' os. reflexivity.
  - intros g0 h. reflexivity.
  - lia.
  - reflexivity.
Defined.

Lemma malloc_free_debt_witness :
  solM_malloc_ (mkGlobal 0 0 0) 16 0 = MemOk (Some 1) (mkGlobal 16 0 16) /\
  GCdebt (solM_free_ (mkGlobal 16 0 16) (Some 1) 16) = 0 /\
  16 = 0 + 16 /\ (Some 1 = None <-> 16 = 0).
Proof.
  split; [reflexivity|].
  apply (malloc_free_debt (mkGlobal 0 0 0) (mkGlobal 16 0 16) (Some 1) 16 0).
  - intros g0 h. reflexivity.
  - right. discriminate.
  - reflexivity.
Defined.

End MoreSamples.
